(** * Ear trainer: session generation and progression engine

    A shallow embedding of the pure logic of the ear-training quiz
    (interval catalog, note frequencies, adaptive weighting, question
    generator, quiz-session hook, phase progression, streak calculator)
    and the properties its specification states about it.

    Conventions of the embedding.
    - A JavaScript number that the code compares or tests is a rational
      ([Q]); every finite double is one, and the thresholds 0.5 and 0.8 are
      compared exactly.  An array index or a counter is a [nat], a catalog
      integer is a [Z].
    - A frequency, which the code only computes with [Math.pow] and hands
      on, is a real number ([R]): [Math.pow(2, s / 12)] is [Rpower 2 (s / 12)].
    - [null] / [undefined] is [None].
    - A function that throws or draws from [Math.random] lives in the
      monad [M]; the values [Math.random] returns are the sequence [rand]
      of the machine, consumed in call order. *)

From Stdlib Require Import ZArith QArith Qround Reals Lra Lia.
From Stdlib Require Import Ascii.
From Stdlib Require Lqa.
From stdpp Require Import gmap strings list fin_maps sorting pretty.

Local Open Scope string_scope.
Local Open Scope Z_scope.

(** ** Exceptions and [Math.random] *)

(** The [Error]s the code throws, one constructor per message. *)
Inductive Error :=
| UnknownKey (keyName : option string)
    (* Unknown key: ... Expected a note name like 'C', 'A', 'G#'. *)
| InvalidSemitones (semitones : Z)
    (* semitones must be >= 0, got ... *)
| EmptyArray
    (* Cannot pick from an empty array. *)
| EmptyPool
    (* pickFromWeightedPool: pool must not be empty *)
| UnknownIntervalId (intervalId : option string)
    (* Unknown intervalId: ... *)
| InvalidCount (count : Q).
    (* count must be a positive integer, got ... *)

Inductive Result (A : Type) :=
| Ok (a : A)
| Throw (e : Error).
Arguments Ok {A} a.
Arguments Throw {A} e.

(** A computation over a store [S] that may throw: it returns a value or
    an exception, and the store as the computation left it. *)
Definition Eff (S A : Type) : Type := S → Result A * S.

Definition ret {S A} (a : A) : Eff S A := λ s, (Ok a, s).

Definition throw {S A} (e : Error) : Eff S A := λ s, (Throw e, s).

Definition bind {S A B} (m : Eff S A) (k : A → Eff S B) : Eff S B :=
  λ s, match m s with
       | (Ok a, s') => k a s'
       | (Throw e, s') => (Throw e, s')
       end.

Definition lift {S A} (r : Result A) : Eff S A := λ s, (r, s).

Notation "'let*' x ':=' m 'in' k" := (bind m (λ x, k))
  (at level 10, x name, m at level 100, k at level 200).

(** The random source: [rand n] is the value of the [n]-th call of
    [Math.random()], [cursor] counts the calls made so far. *)
Record Rng := mkRng {
  rand : nat → Q;
  cursor : nat
}.

(** A computation that may draw random numbers and may throw. *)
Definition M (A : Type) : Type := Eff Rng A.

Definition Math_random : M Q :=
  λ g, (Ok (rand g (cursor g)), mkRng (rand g) (S (cursor g))).

(** [Math.floor(r * n)] for an array length [n]. *)
Definition Math_floor_scaled (r : Q) (n : nat) : Z :=
  Qfloor (r * inject_Z (Z.of_nat n)).

(** [arr[i]] for an integer [i]: [undefined] out of range. *)
Definition at_index {A} (arr : list A) (i : Z) : option A :=
  if i <? 0 then None else arr !! Z.to_nat i.

(** [a < b] on numbers. *)
Definition Qltb (a b : Q) : bool := negb (Qle_bool b a).

(** [Number.isInteger(x)] *)
Definition Number_isInteger (x : Q) : bool := Qeq_bool (inject_Z (Qfloor x)) x.

(** [Array.from({ length: n }, f)]: [f] is called [n] times, in index
    order; an exception in a call ends the construction. *)
Fixpoint Array_from {A} (n : nat) (f : M A) : M (list A) :=
  match n with
  | O => ret []
  | S n' => let* x := f in let* xs := Array_from n' f in ret (x :: xs)
  end.

(** ** intervals.js *)

Module Intervals.

Record Interval := mkInterval {
  id : string;
  name : string;
  semitones : Z;
  phase : Z;
  displayName : string
}.

Definition INTERVALS : list Interval := [
  mkInterval "root"           "Root"           0  1  "Root (Unison)";
  mkInterval "perfect_fourth" "Perfect Fourth" 5  1  "Perfect 4th";
  mkInterval "perfect_fifth"  "Perfect Fifth"  7  1  "Perfect 5th";
  mkInterval "tritone"        "Tritone"        6  2  "Tritone";
  mkInterval "major_third"    "Major Third"    4  3  "Major 3rd";
  mkInterval "minor_third"    "Minor Third"    3  4  "Minor 3rd";
  mkInterval "major_sixth"    "Major Sixth"    9  5  "Major 6th";
  mkInterval "minor_sixth"    "Minor Sixth"    8  6  "Minor 6th";
  mkInterval "major_second"   "Major Second"   2  7  "Major 2nd";
  mkInterval "minor_second"   "Minor Second"   1  8  "Minor 2nd";
  mkInterval "major_seventh"  "Major Seventh"  11 9  "Major 7th";
  mkInterval "minor_seventh"  "Minor Seventh"  10 10 "Minor 7th"
].

Definition KEYS : list string := ["C"; "G"; "D"; "A"; "E"].

(** [INTERVALS.find(interval => interval.id === id)]; the argument may be
    [undefined], which equals no id. *)
Definition getIntervalById (i : option string) : option Interval :=
  match i with
  | None => None
  | Some s => List.find (λ interval, String.eqb (id interval) s) INTERVALS
  end.

(** [INTERVALS.filter(interval => interval.phase <= phase)] *)
Definition getIntervalsForPhase (p : Z) : list Interval :=
  List.filter (λ interval, phase interval <=? p) INTERVALS.

End Intervals.

(** ** noteUtils.js *)

Module NoteUtils.

(** Semitone offsets from A4. *)
Definition SEMITONES_FROM_A4 : list (string * Z) := [
  ("C3", -21); ("C#3", -20); ("D3", -19); ("D#3", -18); ("E3", -17); ("F3", -16);
  ("F#3", -15); ("G3", -14); ("G#3", -13); ("A3", -12); ("A#3", -11); ("B3", -10);
  ("C4", -9); ("C#4", -8); ("D4", -7); ("D#4", -6); ("E4", -5); ("F4", -4);
  ("F#4", -3); ("G4", -2); ("G#4", -1); ("A4", 0); ("A#4", 1); ("B4", 2)
].

(** [440 * Math.pow(2, offset / 12)] *)
Definition hzOfOffset (offset : Z) : R :=
  (440 * Rpower 2 (IZR offset / 12))%R.

(** [Object.fromEntries(Object.entries(SEMITONES_FROM_A4).map(...))]: a
    later entry with the same key would overwrite an earlier one. *)
Definition NOTE_FREQUENCIES : gmap string R :=
  foldl (λ acc e, <[e.1 := hzOfOffset e.2]> acc) ∅ SEMITONES_FROM_A4.

(** The template string [`${keyName}4`]; an [undefined] key name prints
    as the word undefined. *)
Definition keyWithOctave (keyName : option string) : string :=
  match keyName with
  | Some k => k ++ "4"
  | None => "undefined4"
  end.

(** Frequency of a key name played in octave 4. *)
Definition getRootFrequency (keyName : option string) : Result R :=
  match NOTE_FREQUENCIES !! keyWithOctave keyName with
  | Some freq => Ok freq
  | None => Throw (UnknownKey keyName)
  end.

(** Frequency of the note [semitones] above [rootHz]. *)
Definition getIntervalFrequency (rootHz : R) (semitones : Z) : Result R :=
  if semitones <? 0 then Throw (InvalidSemitones semitones)
  else Ok (rootHz * Rpower 2 (IZR semitones / 12))%R.

End NoteUtils.

(** ** adaptiveWeighting.js *)

Module AdaptiveWeighting.

Definition WEIGHT_NO_DATA : nat := 3.
Definition WEIGHT_STRUGGLING : nat := 5.
Definition WEIGHT_NEEDS_WORK : nat := 3.
Definition WEIGHT_STRONG : nat := 1.

(** Sampling weight of an interval given its accuracy ([None] for
    [null] / [undefined]). *)
Definition getWeight (accuracy : option Q) : nat :=
  match accuracy with
  | None => WEIGHT_NO_DATA
  | Some a =>
      if Qltb a 0.5 then WEIGHT_STRUGGLING
      else if Qltb a 0.8 then WEIGHT_NEEDS_WORK
      else WEIGHT_STRONG
  end.

(** A stat record as the pool builder reads it. *)
Record IntervalStat := mkStat {
  intervalId : string;
  accuracy : option Q
}.

(** [new Map(intervalStats.map(s => [s.intervalId, s.accuracy ?? null]))]:
    entries are set in order, so the last record of an id wins. *)
Definition statMap (intervalStats : list IntervalStat) : gmap string (option Q) :=
  foldl (λ acc s, <[intervalId s := accuracy s]> acc) ∅ intervalStats.

(** The body of the outer loop: push [id], [weight] times. *)
Definition pushWeighted (m : gmap string (option Q)) (pool : list string) (id : string)
    : list string :=
  let accuracy := match m !! id with Some a => a | None => None end in
  let weight := getWeight accuracy in
  Nat.iter weight (λ pool, (pool ++ [id])%list) pool.

Definition buildWeightedPool (activeIntervalIds : list string)
    (intervalStats : option (list IntervalStat)) : list string :=
  let m := statMap (default [] intervalStats) in
  foldl (pushWeighted m) [] activeIntervalIds.

Definition pickFromWeightedPool (pool : list string) : M (option string) :=
  if (length pool =? 0)%nat then throw EmptyPool
  else let* r := Math_random in
       ret (at_index pool (Math_floor_scaled r (length pool))).

End AdaptiveWeighting.

(** ** questionGenerator.js *)

Module QuestionGenerator.

(** A generated question.  [key] and [intervalId] hold whatever the pick
    returned, so they are string-or-[undefined] like the pick itself. *)
Record Question := mkQuestion {
  key : option string;
  intervalId : option string;
  rootHz : R;
  intervalHz : R
}.

(** Picks a random element of an array (a [null] array takes the branch
    of the empty one). *)
Definition randomPick {A} (arr : list A) : M (option A) :=
  if (length arr =? 0)%nat then throw EmptyArray
  else let* r := Math_random in
       ret (at_index arr (Math_floor_scaled r (length arr))).

(** The part shared by both generators once key and id are chosen:
    resolve the interval, then the two frequencies. *)
Definition resolveQuestion (key intervalId : option string) : M Question :=
  match Intervals.getIntervalById intervalId with
  | None => throw (UnknownIntervalId intervalId)
  | Some interval =>
      let* rootHz := lift (NoteUtils.getRootFrequency key) in
      let* intervalHz :=
        lift (NoteUtils.getIntervalFrequency rootHz (Intervals.semitones interval)) in
      ret (mkQuestion key intervalId rootHz intervalHz)
  end.

Definition generateQuestion (activeIntervalIds availableKeys : list string) : M Question :=
  let* key := randomPick availableKeys in
  let* intervalId := randomPick activeIntervalIds in
  resolveQuestion key intervalId.

(** [!Number.isInteger(count) || count < 1] *)
Definition invalidCount (count : Q) : bool :=
  negb (Number_isInteger count) || Qltb count 1.

Definition generateSession (activeIntervalIds availableKeys : list string) (count : Q)
    : M (list Question) :=
  if invalidCount count then throw (InvalidCount count)
  else Array_from (Z.to_nat (Qfloor count))
         (generateQuestion activeIntervalIds availableKeys).

Definition generateAdaptiveSession (activeIntervalIds availableKeys : list string)
    (count : Q) (intervalStats : option (list AdaptiveWeighting.IntervalStat))
    : M (list Question) :=
  if invalidCount count then throw (InvalidCount count)
  else
    let pool := AdaptiveWeighting.buildWeightedPool activeIntervalIds
                  (Some (default [] intervalStats)) in
    Array_from (Z.to_nat (Qfloor count))
      (let* intervalId := AdaptiveWeighting.pickFromWeightedPool pool in
       let* r := Math_random in
       let key := at_index availableKeys (Math_floor_scaled r (length availableKeys)) in
       resolveQuestion key intervalId).

End QuestionGenerator.

(** ** phaseProgression.js *)

Module PhaseProgression.

Definition PHASE_MASTERY_THRESHOLD : Q := 0.8.
Definition PHASE_MASTERY_SESSIONS : nat := 3.
Definition MAX_PHASE : Z := 10.

(** The fields of a stored session the rule reads. *)
Record Session := mkSession {
  score : Z;
  total : Z
}.

(** Accuracy of a session as a 0..1 fraction; 0 for a missing session or
    a zero total. *)
Definition sessionAccuracy (session : option Session) : Q :=
  match session with
  | None => 0
  | Some s =>
      if total s =? 0 then 0%Q
      else (inject_Z (score s) / inject_Z (total s))%Q
  end.

Definition checkPhaseUnlock (recentSessions : option (list (option Session)))
    (currentPhase : Z) : option Z :=
  if MAX_PHASE <=? currentPhase then None
  else
    match recentSessions with
    | None => None
    | Some sessions =>
        if (length sessions <? PHASE_MASTERY_SESSIONS)%nat then None
        else
          let window := take PHASE_MASTERY_SESSIONS sessions in
          let allMastered :=
            forallb (λ s, Qle_bool PHASE_MASTERY_THRESHOLD (sessionAccuracy s)) window in
          if negb allMastered then None
          else Some (currentPhase + 1)
    end.

(** [customActiveIds] is [None] for anything that is not an array. *)
Definition getActiveIntervalsForPhase (phase : Z) (customActiveIds : option (list string))
    : list Intervals.Interval :=
  let phaseIntervals := Intervals.getIntervalsForPhase phase in
  let fallback := phaseIntervals in
  match customActiveIds with
  | Some ids =>
      if (0 <? length ids)%nat then
        let validIds : gset string := list_to_set (Intervals.id <$> phaseIntervals) in
        let filtered :=
          omap (λ i, i)
            ((λ id, Intervals.getIntervalById (Some id)) <$>
               List.filter (λ id, bool_decide (id ∈ validIds)) ids) in
        if (0 <? length filtered)%nat then filtered else fallback
      else fallback
  | None => fallback
  end.

End PhaseProgression.

(** ** streakUtils.js *)

Module StreakUtils.

Definition ONE_DAY_MS : Z := 24 * 60 * 60 * 1000.

(** Midnight UTC of the day of an instant, in ms since the epoch.  An
    instant is the time value of the parsed date; the calendar fields
    [getUTCFullYear], [getUTCMonth], [getUTCDate] put back through
    [Date.UTC] give the start of the day the instant falls in.  (For the
    years 0 to 99 [Date.UTC] reads the year as 1900 + year; instants
    that early are outside the model, as are unparsable dates.) *)
Definition toDay (d : Z) : Z := d `div` ONE_DAY_MS * ONE_DAY_MS.

(** [[...new Set(xs)]]: the distinct values in order of first occurrence. *)
Definition setToArray (xs : list Z) : list Z :=
  foldl (λ acc x, if bool_decide (x ∈ acc) then acc else (acc ++ [x])%list) [] xs.

(** [arr.sort((a, b) => b - a)] *)
Definition sortDescending (xs : list Z) : list Z :=
  merge_sort (flip Z.le) xs.

(** The counting loop over [uniqueDays[1..]]. *)
Fixpoint streakLoop (days : list Z) (prevDay : Z) (streak : nat) : nat :=
  match days with
  | [] => streak
  | d :: days' =>
      let gap := prevDay - d in
      if gap =? ONE_DAY_MS then streakLoop days' d (S streak)
      else streak
  end.

(** [now] is the time value of [new Date()] at the call (a [null] list
    of dates takes the branch of the empty one). *)
Definition calculateStreak (now : Z) (sessionDates : list Z) : nat :=
  if (length sessionDates =? 0)%nat then 0%nat
  else
    let uniqueDays := sortDescending (setToArray (toDay <$> sessionDates)) in
    let today := toDay now in
    let yesterday := today - ONE_DAY_MS in
    match uniqueDays with
    | [] => 0%nat (* uniqueDays[0] is undefined and differs from both days *)
    | first :: rest =>
        if negb (first =? today) && negb (first =? yesterday) then 0%nat
        else streakLoop rest first 1
    end.

End StreakUtils.

(** ** useQuizSession.js *)

Module QuizSession.

Import QuestionGenerator.

Module AnswerResult.
Record t := mk {
  intervalId : option string;
  correct : bool;
  usedRetry : bool
}.
End AnswerResult.

Module Tally.
Record t := mk {
  correct : nat;
  total : nat
}.
End Tally.

Module Payload.
Record t := mk {
  questions : list Question;
  results : list AnswerResult.t;
  score : nat;
  total : nat;
  intervalBreakdown : gmap string Tally.t
}.
End Payload.

(** The property key an id is stored under in the breakdown object. *)
Definition propertyKey (id : option string) : string := default "undefined" id.

(** [results.reduce(..., {})]; the ids are catalog ids, none of which
    names a property a fresh object inherits. *)
Definition buildBreakdown (results : list AnswerResult.t) : gmap string Tally.t :=
  foldl
    (λ acc r,
       let k := propertyKey (AnswerResult.intervalId r) in
       let acc1 :=
         match acc !! k with
         | None => <[k := Tally.mk 0 0]> acc
         | Some _ => acc
         end in
       let acc2 := alter (λ t, Tally.mk (Tally.correct t) (Tally.total t + 1)) k acc1 in
       if AnswerResult.correct r
       then alter (λ t, Tally.mk (Tally.correct t + 1) (Tally.total t)) k acc2
       else acc2)
    ∅ results.

Inductive Phase := idle | answering | feedback | complete.

Record State := mkState {
  questions : list Question;
  currentIndex : nat;
  phase : Phase;
  selectedAnswer : option string;
  isCorrect : option bool;
  retryUsed : bool;
  sessionResults : list AnswerResult.t
}.

Definition INITIAL_STATE : State := mkState [] 0 idle None None false [].

(** What the hook asks of its injected capabilities: a call of
    [audioEngine.playInterval] or of [onSessionComplete].  The guards
    [audioRef.current &&] and [?.] only drop a call when no handler is
    installed. *)
Inductive Effect :=
| playInterval (rootHz intervalHz : R)
| onSessionComplete (payload : Payload.t).

(** The props of the hook. *)
Record Config := mkConfig {
  intervalIds : list string;
  keys : list string;
  sessionLength : Q;
  intervalStats : option (list AdaptiveWeighting.IntervalStat)
}.

(** The hook at run time: the random source, the React state and the
    calls made so far, oldest first.  A call deferred to a microtask is
    logged where it is scheduled. *)
Record Hook := mkHook {
  rng : Rng;
  state : State;
  log : list Effect
}.

Definition H (A : Type) : Type := Eff Hook A.

(** Runs a generator computation on the hook's random source. *)
Definition withRng {A} (m : M A) : H A :=
  λ h, let (r, g) := m (rng h) in (r, mkHook g (state h) (log h)).

(** [setState(updater)]; the effects are those the updater schedules. *)
Definition setState (updater : State → State * list Effect) : H unit :=
  λ h, let (s, es) := updater (state h) in
       (Ok tt, mkHook (rng h) s (log h ++ es)%list).

Definition emit (es : list Effect) : H unit :=
  λ h, (Ok tt, mkHook (rng h) (state h) (log h ++ es)%list).

(** [play(question)]: nothing for an [undefined] question. *)
Definition play (question : option Question) : list Effect :=
  match question with
  | Some q => [playInterval (rootHz q) (intervalHz q)]
  | None => []
  end.

(** The next state after recording [newResults] and moving on. *)
Definition computeAdvance (prev : State) (newResults : list AnswerResult.t)
    : State * list Effect :=
  let questions := questions prev in
  let nextIndex := (currentIndex prev + 1)%nat in
  if (length questions <=? nextIndex)%nat then
    let score := length (List.filter AnswerResult.correct newResults) in
    (mkState questions nextIndex complete None None false newResults,
     [onSessionComplete
        (Payload.mk questions newResults score (length newResults)
           (buildBreakdown newResults))])
  else
    let nextQuestion := questions !! nextIndex in
    (mkState questions nextIndex answering None None false newResults,
     play nextQuestion).

Definition startSession (cfg : Config) : H unit :=
  let hasStats :=
    match intervalStats cfg with
    | Some stats => (0 <? length stats)%nat
    | None => false
    end in
  let* questions :=
    withRng
      (if hasStats
       then generateAdaptiveSession (intervalIds cfg) (keys cfg) (sessionLength cfg)
              (intervalStats cfg)
       else generateSession (intervalIds cfg) (keys cfg) (sessionLength cfg)) in
  let* _ := setState (λ _, (mkState questions 0 answering None None false [], [])) in
  emit (play (questions !! 0%nat)).

Definition playCurrentQuestion : H unit :=
  setState (λ prev, (prev, play (questions prev !! currentIndex prev))).

(** The updater [submitAnswer] passes to [setState]. *)
Definition submitAnswerUpdater (answeredIntervalId : option string) (prev : State)
    : State * list Effect :=
  match questions prev !! currentIndex prev with
  | None => (prev, [])
  | Some currentQuestion =>
      let correct := bool_decide (answeredIntervalId = intervalId currentQuestion) in
      if correct then
        computeAdvance prev
          (sessionResults prev ++
             [AnswerResult.mk (intervalId currentQuestion) true (retryUsed prev)])%list
      else if negb (retryUsed prev) then
        (mkState (questions prev) (currentIndex prev) feedback answeredIntervalId
           (Some false) true (sessionResults prev),
         play (Some currentQuestion))
      else
        computeAdvance prev
          (sessionResults prev ++
             [AnswerResult.mk (intervalId currentQuestion) false true])%list
  end.

Definition submitAnswer (answeredIntervalId : option string) : H unit :=
  setState (submitAnswerUpdater answeredIntervalId).

Definition advanceToNext : H unit :=
  setState (λ prev, computeAdvance prev (sessionResults prev)).

Definition getCurrentQuestion (s : State) : option Question :=
  questions s !! currentIndex s.

(** A call made on the hook after [startSession]. *)
Inductive Call :=
| SubmitAnswer (answeredIntervalId : option string)
| AdvanceToNext.

Definition call (c : Call) : H unit :=
  match c with
  | SubmitAnswer a => submitAnswer a
  | AdvanceToNext => advanceToNext
  end.

Fixpoint calls (cs : list Call) : H unit :=
  match cs with
  | [] => ret tt
  | c :: cs' => let* _ := call c in calls cs'
  end.

(** The comparator of [getAnswerChoices], [a.semitones - b.semitones],
    is not positive: [a] may stand before [b]. *)
Definition bySemitones (a b : Intervals.Interval) : Prop :=
  Intervals.semitones a ≤ Intervals.semitones b.

#[global] Instance bySemitones_dec : RelDecision bySemitones :=
  λ a b, decide (Intervals.semitones a ≤ Intervals.semitones b).

(** [intervalIds.map(getIntervalById).filter(Boolean).sort(...)]. *)
Definition getAnswerChoices (cfg : Config) : list Intervals.Interval :=
  merge_sort bySemitones
    (omap (λ id, Intervals.getIntervalById (Some id)) (intervalIds cfg)).

End QuizSession.

(** ** audioUtils.js *)

Module AudioUtils.

Record Entry := mkEntry {
  note : string;
  freq : R;
  midi : Z
}.

Definition NAMES : list string :=
  ["C"; "C#"; "D"; "D#"; "E"; "F"; "F#"; "G"; "G#"; "A"; "A#"; "B"].

(** One turn of the loop that fills [NOTE_TABLE]. *)
Definition entryOf (midi : Z) : Entry :=
  let octave := midi / 12 - 1 in
  let name := default "undefined" (NAMES !! Z.to_nat (midi mod 12)) in
  let freq := (440 * Rpower 2 (IZR (midi - 69) / 12))%R in
  mkEntry (name ++ pretty octave) freq midi.

(** The entries for MIDI 24 to 95, in that order. *)
Definition NOTE_TABLE : list Entry := entryOf <$> seqZ 24 72.

(** What [frequencyToSamplerNote] does: it returns a note name, or
    throws for the value it was called with. *)
Inductive Outcome :=
| Note (name : string)
| InvalidFrequency (hz : option R).

(** The body of the search loop, on the closest entry so far and its
    distance. *)
Definition closer (hz : R) (acc : Entry * R) (entry : Entry) : Entry * R :=
  let dist := Rabs (hz - freq entry) in
  if Rlt_dec dist acc.2 then (entry, dist) else acc.

(** [hz] is [None] for a value that is not a number; the table is not
    empty, so [NOTE_TABLE[0]] is its first entry. *)
Definition frequencyToSamplerNote (hz : option R) : Outcome :=
  match hz with
  | None => InvalidFrequency hz
  | Some x =>
      if Rle_dec x 0 then InvalidFrequency hz
      else
        let closest := default (entryOf 24) (NOTE_TABLE !! 0%nat) in
        let minDist := Rabs (x - freq closest) in
        Note (note (foldl (closer x) (closest, minDist) NOTE_TABLE).1)
  end.

End AudioUtils.

(** ** SessionScreen.jsx *)

Module SessionScreen.

Import QuizSession.

Definition DEFAULT_INTERVAL_IDS : list string :=
  ["root"; "perfect_fifth"; "perfect_fourth"].

Definition DEFAULT_KEYS : list string := ["C"; "D"; "E"; "F"; "G"; "A"; "B"].

(** [Math.max(5, Math.min(8, Number(sessionLength) || 5))]; the setting
    is [None] when [Number] makes [NaN] of it. *)
Definition clampLength (sessionLength : option Q) : Q :=
  let n :=
    match sessionLength with
    | Some v => if Qeq_bool v 0 then 5%Q else v
    | None => 5%Q
    end in
  let least := if Qltb n 8 then n else 8%Q in
  if Qltb least 5 then 5%Q else least.

(** The props [bootstrap] resolves from the stored settings and the
    screen hands to the hook. *)
Definition sessionConfig (currentPhase : Z) (activeIntervalIds : option (list string))
    (sessionLength : option Q) (stats : list AdaptiveWeighting.IntervalStat) : Config :=
  mkConfig
    (Intervals.id <$>
       PhaseProgression.getActiveIntervalsForPhase currentPhase activeIntervalIds)
    DEFAULT_KEYS (clampLength sessionLength) (Some stats).

(** While the hook is idle the screen shows the loading view, without
    answer buttons. *)
Definition loading (s : State) : bool :=
  match phase s with
  | idle => true
  | _ => false
  end.

Definition buttonsDisabled (s : State) : bool :=
  match phase s with
  | feedback | complete => true
  | _ => false
  end.

(** [quiz.isCorrect || quiz.retryUsed] *)
Definition shouldAdvance (s : State) : bool :=
  match isCorrect s with
  | Some true => true
  | _ => retryUsed s
  end.

(** The auto-advance effect sets its timer when the phase is feedback
    and [shouldAdvance] holds, and clears it when one of the three
    fields changes. *)
Definition timerSet (s : State) : bool :=
  match phase s with
  | feedback => shouldAdvance s
  | _ => false
  end.

(** What happens on the screen: a click on the answer button of an
    interval, or the auto-advance timer running out. *)
Inductive Event :=
| Click (intervalId : string)
| Timer.

(** A click reaches [submitAnswer] unless there is no button or the
    button is disabled; the timer runs only while its effect has set
    it, and then calls [advanceToNext]. *)
Definition handle (e : Event) : H unit :=
  λ h,
    match e with
    | Click id =>
        if loading (state h) || buttonsDisabled (state h) then ret tt h
        else submitAnswer (Some id) h
    | Timer =>
        if timerSet (state h) then advanceToNext h else ret tt h
    end.

Fixpoint events (es : list Event) : H unit :=
  match es with
  | [] => ret tt
  | e :: es' => let* _ := handle e in events es'
  end.

End SessionScreen.

(** * Vocabulary of the specification *)

(** The accuracy the stats hold for an id, in the spec's words: that of
    the id's record, [None] when the id is absent.  Should several
    records carry the id, the last one counts. *)
Definition accuracyInStats (stats : option (list AdaptiveWeighting.IntervalStat)) (id : string)
    : option Q :=
  match last (filter (λ s, AdaptiveWeighting.intervalId s = id) (default [] stats)) with
  | Some s => AdaptiveWeighting.accuracy s
  | None => None
  end.

(** A session counts toward mastery, in the spec's words: it has
    [score / total >= 0.80], a zero total counting as accuracy 0 and so
    failing. *)
Definition mastered (e : option PhaseProgression.Session) : Prop :=
  ∃ s, e = Some s
       ∧ PhaseProgression.total s ≠ 0
       ∧ (0.8 <= inject_Z (PhaseProgression.score s)
                  / inject_Z (PhaseProgression.total s))%Q.

(** The catalog entry of an id when that entry is valid for the phase. *)
Definition validForPhase (phase : Z) (id : string) : option Intervals.Interval :=
  match Intervals.getIntervalById (Some id) with
  | Some i => if bool_decide (Intervals.phase i ≤ phase) then Some i else None
  | None => None
  end.

(** The custom ids filtered to those valid for the phase, as entries. *)
Definition customFiltered (phase : Z) (ids : list string) : list Intervals.Interval :=
  omap (validForPhase phase) ids.

(** The calendar days of a list of instants. *)
Definition days (sessionDates : list Z) : list Z := StreakUtils.toDay <$> sessionDates.

(** [m] is the most recent of the days [ds]. *)
Definition mostRecent (ds : list Z) (m : Z) : Prop := m ∈ ds ∧ ∀ d, d ∈ ds → d ≤ m.

(** The random source behaves like [Math.random]: every value it gives
    lies in the interval from 0 (included) to 1 (excluded). *)
Definition unitInterval (g : Rng) : Prop := ∀ n, (0 <= rand g n)%Q ∧ (rand g n < 1)%Q.

(** A draw moves the cursor and keeps the sequence. *)
Definition sameSource (g g' : Rng) : Prop := rand g' = rand g.

(** [count] is a positive integer. *)
Definition positiveInteger (count : Q) : Prop := ∃ n : Z, 0 < n ∧ (count == inject_Z n)%Q.

(** An id of the interval catalog. *)
Definition inCatalog (id : string) : Prop := id ∈ Intervals.id <$> Intervals.INTERVALS.

(** A key name the frequency table knows in octave 4. *)
Definition knownKey (keyName : string) : Prop :=
  (keyName ++ "4")%string ∈ NoteUtils.SEMITONES_FROM_A4.*1.

(** What the spec asks of a generated question. *)
Definition questionWithin (ids keys : list string) (q : QuestionGenerator.Question) : Prop :=
  (∃ id, QuestionGenerator.intervalId q = Some id ∧ id ∈ ids)
  ∧ (∃ k, QuestionGenerator.key q = Some k ∧ k ∈ keys)
  ∧ (QuestionGenerator.rootHz q <= QuestionGenerator.intervalHz q)%R.

(** The updater a call hands to [setState]. *)
Definition updater (c : QuizSession.Call) : QuizSession.State → QuizSession.State * list QuizSession.Effect :=
  match c with
  | QuizSession.SubmitAnswer a => QuizSession.submitAnswerUpdater a
  | QuizSession.AdvanceToNext =>
      λ prev, QuizSession.computeAdvance prev (QuizSession.sessionResults prev)
  end.

(** The Completion Payloads among logged effects. *)
Definition payloads (es : list QuizSession.Effect) : list QuizSession.Payload.t :=
  omap (λ e, match e with
             | QuizSession.onSessionComplete p => Some p
             | QuizSession.playInterval _ _ => None
             end) es.

(** The number of [advanceToNext] calls in a run. *)
Definition advances (cs : list QuizSession.Call) : nat :=
  length (List.filter (λ c, match c with
                            | QuizSession.AdvanceToNext => true
                            | QuizSession.SubmitAnswer _ => false
                            end) cs).

(** No [advanceToNext] call of the run is made once the run is complete. *)
Fixpoint noAdvanceOnceComplete (cs : list QuizSession.Call) (s : QuizSession.State) : Prop :=
  match cs with
  | [] => True
  | c :: cs' =>
      (c = QuizSession.AdvanceToNext → QuizSession.phase s ≠ QuizSession.complete)
      ∧ noAdvanceOnceComplete cs' (updater c s).1
  end.

(** The generator [startSession] runs: the adaptive one when there are
    stats, the uniform one otherwise. *)
Definition sessionGenerator (cfg : QuizSession.Config)
    : M (list QuestionGenerator.Question) :=
  if match QuizSession.intervalStats cfg with
     | Some stats => (0 <? length stats)%nat
     | None => false
     end
  then QuestionGenerator.generateAdaptiveSession (QuizSession.intervalIds cfg)
         (QuizSession.keys cfg) (QuizSession.sessionLength cfg)
         (QuizSession.intervalStats cfg)
  else QuestionGenerator.generateSession (QuizSession.intervalIds cfg)
         (QuizSession.keys cfg) (QuizSession.sessionLength cfg).

(** A hook before its first session, with a random source that always
    gives 0, and a one-question configuration, for the examples. *)
Definition sampleHook : QuizSession.Hook :=
  QuizSession.mkHook (mkRng (λ _, 0%Q) 0) QuizSession.INITIAL_STATE [].

Definition sampleConfig : QuizSession.Config :=
  QuizSession.mkConfig ["root"] ["C"] 1 None.

(** Where a run over the questions [qs] stands after [k] calls of
    [advanceToNext] and the effects [new]: before completion every
    question before the current one was either resolved into a result
    or passed over by an advance, and no payload has gone out; at
    completion all questions were, and exactly one payload has gone
    out, holding the results. *)
Definition runInvariant (qs : list QuestionGenerator.Question) (k : nat)
    (new : list QuizSession.Effect) (s : QuizSession.State) : Prop :=
  QuizSession.questions s = qs
  ∧ ((QuizSession.phase s ≠ QuizSession.complete
      ∧ (QuizSession.currentIndex s < length qs)%nat
      ∧ (length (QuizSession.sessionResults s) + k = QuizSession.currentIndex s)%nat
      ∧ payloads new = [])
     ∨ (QuizSession.phase s = QuizSession.complete
        ∧ (length qs ≤ QuizSession.currentIndex s)%nat
        ∧ (length (QuizSession.sessionResults s) + k = length qs)%nat
        ∧ (∃ p, payloads new = [p]
                ∧ QuizSession.Payload.questions p = qs
                ∧ QuizSession.Payload.results p = QuizSession.sessionResults s
                ∧ QuizSession.Payload.total p = length (QuizSession.sessionResults s)))).

(** The twelve note names of an octave, as the frequency table spells
    them. *)
Definition NOTE_NAMES : list string :=
  ["C"; "C#"; "D"; "D#"; "E"; "F"; "F#"; "G"; "G#"; "A"; "A#"; "B"].

(** What is left of a string that ends in the digit 4 when the digit is
    taken off. *)
Fixpoint stripOctave4 (t : string) : option string :=
  match t with
  | EmptyString => None
  | String a EmptyString => if Ascii.eqb a "4"%char then Some EmptyString else None
  | String a rest => String a <$> stripOctave4 rest
  end.

(** How often an id occurs in a list of ids. *)
Definition occurrences (id : string) (ids : list string) : nat :=
  length (filter (λ x, x = id) ids).

(** The callback [generateAdaptiveSession] hands to [Array.from]: one
    question with its id drawn from the pool and its key drawn
    uniformly. *)
Definition adaptiveQuestion (pool availableKeys : list string)
    : M QuestionGenerator.Question :=
  let* intervalId := AdaptiveWeighting.pickFromWeightedPool pool in
  let* r := Math_random in
  let key := at_index availableKeys (Math_floor_scaled r (length availableKeys)) in
  QuestionGenerator.resolveQuestion key intervalId.

(** A question that agrees with the catalog and the frequency table:
    its key and id are defined, its root frequency is that of its key,
    and its interval frequency is that of its catalog interval above the
    root. *)
Definition consistentQuestion (q : QuestionGenerator.Question) : Prop :=
  ∃ interval,
    Intervals.getIntervalById (QuestionGenerator.intervalId q) = Some interval
    ∧ NoteUtils.getRootFrequency (QuestionGenerator.key q)
      = Ok (QuestionGenerator.rootHz q)
    ∧ NoteUtils.getIntervalFrequency (QuestionGenerator.rootHz q)
        (Intervals.semitones interval)
      = Ok (QuestionGenerator.intervalHz q).

(** The intervals played among logged effects, each as its root and
    interval frequency. *)
Definition plays (es : list QuizSession.Effect) : list (R * R) :=
  omap (λ e, match e with
             | QuizSession.playInterval rootHz intervalHz => Some (rootHz, intervalHz)
             | QuizSession.onSessionComplete _ => None
             end) es.

(** The ids of results and of questions, in order. *)
Definition resultIds (rs : list QuizSession.AnswerResult.t) : list (option string) :=
  QuizSession.AnswerResult.intervalId <$> rs.

Definition questionIds (qs : list QuestionGenerator.Question) : list (option string) :=
  QuestionGenerator.intervalId <$> qs.

(** The payload [computeAdvance] sends for the questions [qs] and the
    results [rs]. *)
Definition payloadOf (qs : list QuestionGenerator.Question)
    (rs : list QuizSession.AnswerResult.t) : QuizSession.Payload.t :=
  QuizSession.Payload.mk qs rs
    (length (List.filter QuizSession.AnswerResult.correct rs)) (length rs)
    (QuizSession.buildBreakdown rs).

(** The tally of the results stored under the property key [k]: none
    when there is no such result, else how many of them are correct and
    how many there are. *)
Definition tallyOf (k : string) (rs : list QuizSession.AnswerResult.t)
    : option QuizSession.Tally.t :=
  let mine :=
    List.filter
      (λ r, bool_decide (QuizSession.propertyKey (QuizSession.AnswerResult.intervalId r) = k))
      rs in
  match mine with
  | [] => None
  | _ :: _ =>
      Some (QuizSession.Tally.mk
              (length (List.filter QuizSession.AnswerResult.correct mine))
              (length mine))
  end.

(** What the phase says about the other fields of the state. *)
Definition phaseInvariant (s : QuizSession.State) : Prop :=
  QuizSession.phase s ≠ QuizSession.idle
  ∧ (QuizSession.phase s = QuizSession.complete
     ↔ (length (QuizSession.questions s) ≤ QuizSession.currentIndex s)%nat)
  ∧ (QuizSession.phase s = QuizSession.feedback →
       QuizSession.retryUsed s = true ∧ QuizSession.isCorrect s = Some false
       ∧ ∃ q, QuizSession.getCurrentQuestion s = Some q
              ∧ QuizSession.selectedAnswer s ≠ QuestionGenerator.intervalId q)
  ∧ (QuizSession.phase s ≠ QuizSession.feedback →
       QuizSession.retryUsed s = false ∧ QuizSession.isCorrect s = None
       ∧ QuizSession.selectedAnswer s = None).

(** The payloads among the effects [new] of a run that stands at [s]:
    none while a question is left, and afterwards only the payload of
    the questions and results of [s]. *)
Definition payloadsAgree (new : list QuizSession.Effect) (s : QuizSession.State) : Prop :=
  ((QuizSession.currentIndex s < length (QuizSession.questions s))%nat →
     payloads new = [])
  ∧ ((length (QuizSession.questions s) ≤ QuizSession.currentIndex s)%nat →
       ∀ p, p ∈ payloads new →
         p = payloadOf (QuizSession.questions s) (QuizSession.sessionResults s)).

(** The sound of a question. *)
Definition soundOf (q : QuestionGenerator.Question) : QuizSession.Effect :=
  QuizSession.playInterval (QuestionGenerator.rootHz q) (QuestionGenerator.intervalHz q).

(** The result of a question answered correctly at the first attempt. *)
Definition firstTry (q : QuestionGenerator.Question) : QuizSession.AnswerResult.t :=
  QuizSession.AnswerResult.mk (QuestionGenerator.intervalId q) true false.

(** How far the frequency of a table entry is from [hz]. *)
Definition distanceTo (hz : R) (e : AudioUtils.Entry) : R :=
  Rabs (hz - AudioUtils.freq e).

(** [e] is the first of the entries of [table] nearest to [hz]: every
    entry before it is farther away, no entry after it is nearer. *)
Definition firstNearest (hz : R) (table : list AudioUtils.Entry) (e : AudioUtils.Entry)
    : Prop :=
  ∃ before after,
    table = (before ++ e :: after)%list
    ∧ (∀ e', e' ∈ before → (distanceTo hz e < distanceTo hz e')%R)
    ∧ (∀ e', e' ∈ after → (distanceTo hz e <= distanceTo hz e')%R).

(** A result recorded for a correct first answer. *)
Definition firstAttempt (r : QuizSession.AnswerResult.t) : Prop :=
  QuizSession.AnswerResult.correct r = true
  ∧ QuizSession.AnswerResult.usedRetry r = false.

(** A stored setting that [Number] turns into a whole number, or into
    [NaN]. *)
Definition wholeSetting (sessionLength : option Q) : Prop :=
  ∀ v, sessionLength = Some v → ∃ n : Z, (v == inject_Z n)%Q.

(** Answering every question with its own id, in order. *)
Definition answerAll (qs : list QuestionGenerator.Question) : list QuizSession.Call :=
  (λ q, QuizSession.SubmitAnswer (QuestionGenerator.intervalId q)) <$> qs.

(** * Properties *)

(** ** Numbers *)

Lemma Qltb_lt (a b : Q) : Qltb a b = true ↔ (a < b)%Q.
Proof.
  unfold Qltb. rewrite negb_true_iff, <- not_true_iff_false, Qle_bool_iff.
  split; [apply Qnot_le_lt | apply Qlt_not_le].
Qed.

Lemma Qltb_ge (a b : Q) : Qltb a b = false ↔ (b <= a)%Q.
Proof.
  unfold Qltb. rewrite negb_false_iff. apply Qle_bool_iff.
Qed.

(** ** Adaptive weighting *)

Section Weighting.

Import AdaptiveWeighting.

Lemma statMap_snoc (stats : list IntervalStat) (s : IntervalStat) :
  statMap (stats ++ [s]) = <[intervalId s := accuracy s]> (statMap stats).
Proof. unfold statMap. by rewrite foldl_app. Qed.

Lemma statMap_lookup (stats : list IntervalStat) (id : string) :
  match statMap stats !! id with Some a => a | None => None end
  = accuracyInStats (Some stats) id.
Proof.
  unfold accuracyInStats. simpl.
  induction stats as [|s stats IH] using rev_ind.
  - done.
  - rewrite statMap_snoc, filter_app, lookup_insert.
    rewrite filter_cons, filter_nil.
    destruct (decide (intervalId s = id)) as [Heq|Hne].
    + by rewrite last_snoc.
    + by rewrite app_nil_r.
Qed.

Lemma iter_push_replicate (n : nat) (id : string) (pool : list string) :
  Nat.iter n (λ p, (p ++ [id])%list) pool = (pool ++ replicate n id)%list.
Proof.
  induction n as [|n IH]; simpl.
  - by rewrite app_nil_r.
  - rewrite IH, <- app_assoc. f_equal.
    clear IH. induction n as [|n IH]; simpl; [done|]. by rewrite IH.
Qed.

(** The pool is the ids in order, each repeated by its weight. *)
Lemma buildWeightedPool_flat (ids : list string) (stats : option (list IntervalStat)) :
  buildWeightedPool ids stats
  = ids ≫= (λ id, replicate (getWeight (accuracyInStats stats id)) id).
Proof.
  unfold buildWeightedPool.
  set (m := statMap (default [] stats)).
  assert (Hm : ∀ id, match m !! id with Some a => a | None => None end
                     = accuracyInStats stats id).
  { intros id. unfold m. rewrite statMap_lookup. by destruct stats. }
  enough (H : ∀ acc, foldl (pushWeighted m) acc ids
            = (acc ++ (ids ≫= λ id, replicate (getWeight (accuracyInStats stats id)) id))%list)
    by apply (H []).
  induction ids as [|id ids IH]; intros acc; simpl.
  - by rewrite app_nil_r.
  - rewrite IH. unfold pushWeighted. rewrite iter_push_replicate, Hm.
    by rewrite <- app_assoc.
Qed.

(** C5: the pool holds, for each active id, as many copies as the weight
    of the accuracy the stats record for it (no record: the no-data
    weight), so its length is the sum of these weights; it holds nothing
    but active ids; no active id, no pool. *)
Theorem buildWeightedPool_length_members
    (activeIds : list string) (stats : option (list IntervalStat)) :
  length (buildWeightedPool activeIds stats)
    = sum_list ((λ id, getWeight (accuracyInStats stats id)) <$> activeIds)
  ∧ Forall (λ id, id ∈ activeIds) (buildWeightedPool activeIds stats)
  ∧ buildWeightedPool [] stats = [].
Proof.
  rewrite buildWeightedPool_flat. split; [|split].
  - induction activeIds as [|id ids IH]; [done|].
    rewrite bind_cons, fmap_cons, length_app, length_replicate, IH. done.
  - apply Forall_forall. intros x Hx.
    apply list_elem_of_bind in Hx as (id & Hx & Hid).
    apply elem_of_replicate in Hx as [-> _]. done.
  - done.
Qed.

(** C4: the weight is 1, 3 or 5; 3 without data, 5 below one half, 3 from
    one half up to but excluding four fifths, 1 from four fifths on; the
    two boundaries fall in the bracket of the lower weight. *)
Theorem getWeight_brackets (a : option Q) :
  (getWeight a = 1 ∨ getWeight a = 3 ∨ getWeight a = 5)%nat
  ∧ (a = None → getWeight a = 3%nat)
  ∧ (∀ q, a = Some q → (q < 0.5)%Q → getWeight a = 5%nat)
  ∧ (∀ q, a = Some q → (0.5 <= q)%Q → (q < 0.8)%Q → getWeight a = 3%nat)
  ∧ (∀ q, a = Some q → (0.8 <= q)%Q → getWeight a = 1%nat)
  ∧ getWeight (Some 0.5%Q) = 3%nat
  ∧ getWeight (Some 0.8%Q) = 1%nat.
Proof.
  assert (Hcases : ∀ q,
    ((q < 0.5)%Q ∧ getWeight (Some q) = 5%nat)
    ∨ ((0.5 <= q)%Q ∧ (q < 0.8)%Q ∧ getWeight (Some q) = 3%nat)
    ∨ ((0.8 <= q)%Q ∧ getWeight (Some q) = 1%nat)).
  { intros q. unfold getWeight.
    destruct (Qltb q 0.5) eqn:H5.
    - left. split; [by apply Qltb_lt | done].
    - apply Qltb_ge in H5. destruct (Qltb q 0.8) eqn:H8.
      + right; left. split; [done|]. split; [by apply Qltb_lt | done].
      + right; right. split; [by apply Qltb_ge | done]. }
  split; [|split; [|split; [|split; [|split; [|split]]]]].
  - destruct a as [q|]; [|by right; left].
    destruct (Hcases q) as [[_ ->]|[(_ & _ & ->)|[_ ->]]]; auto.
  - by intros ->.
  - intros q -> Hlt.
    destruct (Hcases q) as [[_ ?]|[(Hge & _ & _)|[Hge _]]]; [done| |].
    + by apply Qlt_not_le in Hlt.
    + exfalso. apply (Qlt_not_le _ _ Hlt). by apply Qle_trans with 0.8%Q.
  - intros q -> Hge Hlt.
    destruct (Hcases q) as [[Hlt' _]|[(_ & _ & ?)|[Hge' _]]]; [|done|].
    + by apply Qlt_not_le in Hlt'.
    + by apply Qlt_not_le in Hlt.
  - intros q -> Hge.
    destruct (Hcases q) as [[Hlt' _]|[(_ & Hlt' & _)|[_ ?]]]; [| |done].
    + exfalso. apply (Qlt_not_le _ _ Hlt'). by apply Qle_trans with 0.8%Q.
    + by apply Qlt_not_le in Hlt'.
  - reflexivity.
  - reflexivity.
Qed.

Lemma getWeight_brackets_witness :
  (0.5 <= 0.65)%Q ∧ (0.65 < 0.8)%Q ∧ getWeight (Some 0.65%Q) = 3%nat.
Proof.
  assert (H1 : (0.5 <= 0.65)%Q) by (unfold Qle; simpl; lia).
  assert (H2 : (0.65 < 0.8)%Q) by (unfold Qlt; simpl; lia).
  split; [exact H1|]. split; [exact H2|].
  exact (proj1 (proj2 (proj2 (proj2 (getWeight_brackets (Some 0.65%Q)))))
           0.65%Q eq_refl H1 H2).
Defined.

End Weighting.

(** ** Phase progression *)

Section Progression.

Import PhaseProgression.

Lemma meets_threshold_mastered (e : option Session) :
  Qle_bool PHASE_MASTERY_THRESHOLD (sessionAccuracy e) = true ↔ mastered e.
Proof.
  rewrite Qle_bool_iff. unfold mastered, sessionAccuracy, PHASE_MASTERY_THRESHOLD.
  split.
  - destruct e as [s|]; [|by intros H; compute in H].
    destruct (Z.eqb_spec (total s) 0) as [H0|H0]; [by intros H; compute in H|].
    intros H. by exists s.
  - intros (s & -> & H0 & H).
    by destruct (Z.eqb_spec (total s) 0).
Qed.

Lemma allMastered_Forall (window : list (option Session)) :
  forallb (λ s, Qle_bool PHASE_MASTERY_THRESHOLD (sessionAccuracy s)) window = true
  ↔ Forall mastered window.
Proof.
  rewrite forallb_forall, Forall_forall.
  split; intros H e He.
  - apply meets_threshold_mastered, H. by apply list_elem_of_In.
  - apply meets_threshold_mastered, H. by apply list_elem_of_In.
Qed.

(** C3: no unlock at the maximum phase 10 (or beyond); none with fewer than three
    sessions; below the maximum and with at least three sessions, the
    next phase exactly when each of the first three sessions is
    mastered, and nothing otherwise; sessions after the third never
    change the answer. *)
Theorem checkPhaseUnlock_rule (sessions : list (option Session)) (currentPhase : Z) :
  (10 ≤ currentPhase → checkPhaseUnlock (Some sessions) currentPhase = None)
  ∧ ((length sessions < 3)%nat → checkPhaseUnlock (Some sessions) currentPhase = None)
  ∧ (currentPhase < 10 → (3 ≤ length sessions)%nat →
       (Forall mastered (take 3 sessions) →
          checkPhaseUnlock (Some sessions) currentPhase = Some (currentPhase + 1))
       ∧ (¬ Forall mastered (take 3 sessions) →
          checkPhaseUnlock (Some sessions) currentPhase = None)
       ∧ (checkPhaseUnlock (Some sessions) currentPhase = Some (currentPhase + 1)
          ↔ Forall mastered (take 3 sessions)))
  ∧ ((3 ≤ length sessions)%nat →
       checkPhaseUnlock (Some sessions) currentPhase
       = checkPhaseUnlock (Some (take 3 sessions)) currentPhase).
Proof.
  unfold checkPhaseUnlock, MAX_PHASE, PHASE_MASTERY_SESSIONS.
  split; [|split; [|split]].
  - intros Hmax. by apply Z.leb_le in Hmax as ->.
  - intros Hlen. destruct (10 <=? currentPhase); [done|].
    by apply Nat.ltb_lt in Hlen as ->.
  - intros Hp Hlen.
    apply Z.leb_gt in Hp as ->.
    apply Nat.ltb_ge in Hlen as ->.
    pose proof (allMastered_Forall (take 3 sessions)) as Hall.
    destruct (forallb _ (take 3 sessions)); simpl.
    + split; [done|]. split; [|by intuition].
      intros Hn. exfalso. apply Hn. by apply Hall.
    + assert (Hn : ¬ Forall mastered (take 3 sessions))
        by (intros HF; by apply Hall in HF).
      split; [done|]. split; [done|]. split; [done|]. intros HF. done.
  - intros Hlen.
    destruct (10 <=? currentPhase); [done|].
    rewrite length_take, take_take, Nat.min_id.
    replace (3 `min` length sessions)%nat with 3%nat by lia.
    by apply Nat.ltb_ge in Hlen as ->.
Qed.

Lemma checkPhaseUnlock_rule_witness :
  checkPhaseUnlock (Some [Some (mkSession 4 5); Some (mkSession 5 5);
                          Some (mkSession 9 10); Some (mkSession 0 5)]) 2
  = Some 3.
Proof.
  refine (proj1 (proj1 (proj2 (proj2 (checkPhaseUnlock_rule _ 2))) _ _) _).
  - lia.
  - simpl. lia.
  - simpl. repeat constructor;
      (eexists; split; [reflexivity|]; split; [simpl; lia|]);
      unfold Qle; simpl; lia.
Defined.

#[local] Arguments Intervals.getIntervalById : simpl never.
#[local] Arguments Intervals.getIntervalsForPhase : simpl never.

Lemma getIntervalById_catalog (i : Intervals.Interval) :
  i ∈ Intervals.INTERVALS → Intervals.getIntervalById (Some (Intervals.id i)) = Some i.
Proof.
  revert i. apply Forall_forall. unfold Intervals.INTERVALS.
  repeat (constructor; [reflexivity|]). constructor.
Qed.

Lemma getIntervalById_Some (id : string) (i : Intervals.Interval) :
  Intervals.getIntervalById (Some id) = Some i →
  i ∈ Intervals.INTERVALS ∧ Intervals.id i = id.
Proof.
  unfold Intervals.getIntervalById. intros H.
  apply find_some in H as [Hin Heq].
  split; [by apply list_elem_of_In | by apply String.eqb_eq].
Qed.

Lemma getIntervalsForPhase_members (phase : Z) (i : Intervals.Interval) :
  i ∈ Intervals.getIntervalsForPhase phase
  ↔ i ∈ Intervals.INTERVALS ∧ Intervals.phase i ≤ phase.
Proof.
  unfold Intervals.getIntervalsForPhase.
  rewrite list_elem_of_In, filter_In, <- list_elem_of_In, Z.leb_le. done.
Qed.

(** The id set built for the lookup holds exactly the ids whose entry is
    valid for the phase. *)
Lemma validIds_validForPhase (phase : Z) (id : string) :
  id ∈ (list_to_set (Intervals.id <$> Intervals.getIntervalsForPhase phase) : gset string)
  ↔ is_Some (validForPhase phase id).
Proof.
  rewrite elem_of_list_to_set, list_elem_of_fmap. unfold validForPhase. split.
  - intros (i & -> & Hi). apply getIntervalsForPhase_members in Hi as [Hin Hle].
    rewrite (getIntervalById_catalog i Hin).
    by rewrite bool_decide_eq_true_2.
  - destruct (Intervals.getIntervalById (Some id)) as [i|] eqn:Hget;
      [|by intros [? ?]].
    apply getIntervalById_Some in Hget as [Hin <-].
    case_bool_decide as Hle; [|by intros [? ?]].
    intros _. exists i. split; [done|]. by apply getIntervalsForPhase_members.
Qed.

Lemma custom_pipeline_filtered (phase : Z) (ids : list string) :
  omap (λ i, i)
    ((λ id, Intervals.getIntervalById (Some id)) <$>
       List.filter
         (λ id, bool_decide
            (id ∈ (list_to_set (Intervals.id <$> Intervals.getIntervalsForPhase phase)
                   : gset string)))
         ids)
  = customFiltered phase ids.
Proof.
  unfold customFiltered.
  induction ids as [|id ids IH]; [done|].
  pose proof (validIds_validForPhase phase id) as Hv.
  change (omap (validForPhase phase) (id :: ids))
    with (match validForPhase phase id with
          | Some i => i :: omap (validForPhase phase) ids
          | None => omap (validForPhase phase) ids
          end).
  cbn [List.filter]. case_bool_decide as Hin.
  - apply Hv in Hin as [i Hi]. rewrite Hi, fmap_cons, <- IH.
    unfold validForPhase in Hi.
    change (omap ?f (?x :: ?l))
      with (match f x with Some y => y :: omap f l | None => omap f l end).
    destruct (Intervals.getIntervalById (Some id)) as [j|]; [|done].
    case_bool_decide; [|done]. by inversion Hi.
  - rewrite IH. destruct (validForPhase phase id) as [i|] eqn:Hi; [|done].
    exfalso. apply Hin, Hv. by exists i.
Qed.

(** C9: a non-empty custom list whose filtering to the entries valid for
    the phase leaves something yields that filtered list; no custom
    list, an empty one, or one that filters to nothing yields the
    catalog's intervals unlocked at or below the phase. *)
Theorem getActiveIntervalsForPhase_cases (phase : Z) (customIds : option (list string)) :
  getActiveIntervalsForPhase phase customIds
  = match customIds with
    | Some (id :: ids) =>
        match customFiltered phase (id :: ids) with
        | [] => Intervals.getIntervalsForPhase phase
        | filtered => filtered
        end
    | Some [] | None => Intervals.getIntervalsForPhase phase
    end
  ∧ ∀ i, i ∈ Intervals.getIntervalsForPhase phase
         ↔ i ∈ Intervals.INTERVALS ∧ Intervals.phase i ≤ phase.
Proof.
  split; [|apply getIntervalsForPhase_members].
  unfold getActiveIntervalsForPhase.
  destruct customIds as [[|id ids]|]; [done| |done].
  change (0 <? length (id :: ids))%nat with true. cbv iota.
  rewrite custom_pipeline_filtered.
  by destruct (customFiltered phase (id :: ids)).
Qed.

End Progression.

(** ** Streak *)

Section Streak.

Import StreakUtils.

Lemma ONE_DAY_MS_pos : 0 < ONE_DAY_MS.
Proof. reflexivity. Qed.

Lemma toDay_calendar_day (t : Z) :
  toDay t ≤ t < toDay t + ONE_DAY_MS ∧ ∃ n, toDay t = n * ONE_DAY_MS.
Proof.
  unfold toDay. pose proof ONE_DAY_MS_pos as Hpos.
  pose proof (Z.mul_div_le t ONE_DAY_MS Hpos) as H1.
  pose proof (Z.mul_succ_div_gt t ONE_DAY_MS Hpos) as H2.
  split; [lia|]. by exists (t `div` ONE_DAY_MS).
Qed.

Lemma setToArray_fold (xs acc : list Z) :
  NoDup acc →
  let out := foldl (λ acc x, if bool_decide (x ∈ acc) then acc else (acc ++ [x])%list)
               acc xs in
  NoDup out ∧ ∀ x, x ∈ out ↔ x ∈ acc ∨ x ∈ xs.
Proof.
  revert acc. induction xs as [|y xs IH]; intros acc Hnd; simpl.
  - split; [done|]. intros x. rewrite elem_of_nil. tauto.
  - case_bool_decide as Hy.
    + destruct (IH acc Hnd) as [H1 H2]. split; [done|].
      intros x. rewrite H2, elem_of_cons. split; [tauto|].
      intros [?|[->|?]]; tauto.
    + assert (Hnd' : NoDup (acc ++ [y])).
      { apply NoDup_app. split; [done|]. split; [|apply NoDup_singleton].
        intros x Hx ->%list_elem_of_singleton. done. }
      destruct (IH _ Hnd') as [H1 H2]. split; [done|].
      intros x. rewrite H2, elem_of_app, list_elem_of_singleton, elem_of_cons. tauto.
Qed.

Lemma setToArray_NoDup (xs : list Z) : NoDup (setToArray xs).
Proof. apply (setToArray_fold xs []), NoDup_nil_2. Qed.

Lemma setToArray_elem (xs : list Z) (x : Z) : x ∈ setToArray xs ↔ x ∈ xs.
Proof.
  destruct (setToArray_fold xs [] (NoDup_nil_2)) as [_ H].
  unfold setToArray. rewrite H, elem_of_nil. tauto.
Qed.

#[local] Instance flip_le_total : Total (flip Z.le).
Proof. intros x y. unfold flip. lia. Qed.

#[local] Instance flip_le_trans : Transitive (flip Z.le).
Proof. intros x y z. unfold flip. lia. Qed.

(** The deduplicated, sorted days strictly descend. *)
Lemma uniqueDays_descending (xs : list Z) :
  StronglySorted (λ a b, b < a) (sortDescending (setToArray xs)).
Proof.
  unfold sortDescending.
  pose proof (StronglySorted_merge_sort (flip Z.le) (setToArray xs)) as Hs.
  assert (Hnd : NoDup (merge_sort (flip Z.le) (setToArray xs))).
  { rewrite merge_sort_Permutation. apply setToArray_NoDup. }
  induction Hs as [|a l Hs IH Hall]; [constructor|].
  apply NoDup_cons in Hnd as [Hnotin Hnd].
  constructor; [by apply IH|].
  apply Forall_forall. intros b Hb.
  rewrite Forall_forall in Hall. specialize (Hall b Hb). unfold flip in Hall.
  assert (b ≠ a) by (intros ->; done). lia.
Qed.

Lemma uniqueDays_elem (xs : list Z) (x : Z) :
  x ∈ sortDescending (setToArray xs) ↔ x ∈ xs.
Proof.
  unfold sortDescending. by rewrite merge_sort_Permutation, setToArray_elem.
Qed.

(** Two distinct whole days that are not one day apart are more than
    one day apart. *)
Lemma whole_days_gap (day n n' : Z) :
  0 < day → n' * day < n * day → n * day - n' * day ≠ day →
  n' * day < n * day - day.
Proof.
  intros Hday Hlt Hgap.
  assert (n' < n) by nia.
  assert (n' ≠ n - 1) by (intros ->; lia).
  assert (n' ≤ n - 2) by lia. nia.
Qed.

(** The loop counts the run of consecutive days that starts at
    [prevDay]: it adds [j] to the streak, where the [j] days before
    [prevDay] are all present and the next one is missing. *)
Lemma streakLoop_run (rest : list Z) (prevDay : Z) (streak : nat) :
  StronglySorted (λ a b, b < a) (prevDay :: rest) →
  (∀ d, d ∈ prevDay :: rest → ∃ n, d = n * ONE_DAY_MS) →
  ∃ j : nat,
    streakLoop rest prevDay streak = (streak + j)%nat
    ∧ (∀ i : nat, (i ≤ j)%nat → prevDay - Z.of_nat i * ONE_DAY_MS ∈ prevDay :: rest)
    ∧ prevDay - Z.of_nat (S j) * ONE_DAY_MS ∉ prevDay :: rest.
Proof.
  pose proof ONE_DAY_MS_pos as Hpos.
  revert prevDay streak.
  induction rest as [|d rest IH]; intros prevDay streak Hs Hmul.
  - exists 0%nat. simpl. split; [lia|]. split.
    + intros i Hi. replace i with 0%nat by lia. simpl.
      rewrite Z.sub_0_r. apply list_elem_of_here.
    + rewrite list_elem_of_singleton. lia.
  - apply StronglySorted_cons in Hs as [Hlt Hs].
    apply Forall_cons in Hlt as [Hd Hlt].
    simpl. destruct (Z.eqb_spec (prevDay - d) ONE_DAY_MS) as [Hgap|Hgap].
    + destruct (IH d (S streak) Hs) as (j & Hj & Hin & Hout).
      { intros x Hx. apply Hmul. by right. }
      exists (S j). split; [lia|]. split.
      * intros [|i] Hi.
        -- simpl. rewrite Z.sub_0_r. apply list_elem_of_here.
        -- right. replace (prevDay - Z.of_nat (S i) * ONE_DAY_MS)
             with (d - Z.of_nat i * ONE_DAY_MS) by lia.
           apply Hin. lia.
      * replace (prevDay - Z.of_nat (S (S j)) * ONE_DAY_MS)
          with (d - Z.of_nat (S j) * ONE_DAY_MS) by lia.
        intros [Heq|Hx]%elem_of_cons; [lia|done].
    + exists 0%nat. split; [lia|]. split.
      * intros i Hi. replace i with 0%nat by lia. simpl.
        rewrite Z.sub_0_r. apply list_elem_of_here.
      * change (Z.of_nat 1 * ONE_DAY_MS) with ONE_DAY_MS.
        destruct (Hmul prevDay) as [n Hn]; [apply list_elem_of_here|].
        destruct (Hmul d) as [n' Hn']; [right; apply list_elem_of_here|].
        assert (Hd' : d < prevDay - ONE_DAY_MS)
          by (subst d prevDay; by apply whole_days_gap).
        intros [Heq|[Heq|Hx]%elem_of_cons]%elem_of_cons; [lia|lia|].
        apply StronglySorted_cons in Hs as [Hlt' _].
        rewrite Forall_forall in Hlt'. specialize (Hlt' _ Hx). lia.
Qed.

(** The head of the sorted days is the most recent day. *)
Lemma uniqueDays_head (sessionDates : list Z) (m : Z) :
  mostRecent (days sessionDates) m →
  ∃ rest, sortDescending (setToArray (toDay <$> sessionDates)) = m :: rest.
Proof.
  intros [Hm Hmax]. unfold days in *.
  pose proof (uniqueDays_descending (toDay <$> sessionDates)) as Hs.
  pose proof (uniqueDays_elem (toDay <$> sessionDates)) as Hel.
  destruct (sortDescending (setToArray (toDay <$> sessionDates))) as [|first rest].
  - apply Hel in Hm. by apply elem_of_nil in Hm.
  - exists rest. f_equal.
    assert (Hf : first ≤ m) by (apply Hmax, Hel, list_elem_of_here).
    apply Hel, elem_of_cons in Hm as [->|Hm]; [done|].
    apply StronglySorted_cons in Hs as [Hlt _].
    rewrite Forall_forall in Hlt. specialize (Hlt _ Hm). lia.
Qed.

Lemma mostRecent_exists (ds : list Z) : ds ≠ [] → ∃ m, mostRecent ds m.
Proof.
  induction ds as [|d ds IH]; [done|]. intros _.
  destruct ds as [|d' ds].
  - exists d. split; [apply list_elem_of_here|].
    intros x ->%list_elem_of_singleton. lia.
  - destruct IH as (m & Hm & Hmax); [done|].
    exists (Z.max d m). split.
    + destruct (Z.max_spec d m) as [[_ ->]|[_ ->]];
        [by right | apply list_elem_of_here].
    + intros x [->|Hx]%elem_of_cons; [lia|]. specialize (Hmax x Hx). lia.
Qed.

(** The streak of a most recent day that counts, told by the days alone. *)
Lemma calculateStreak_run (now : Z) (sessionDates : list Z) (m : Z) :
  mostRecent (days sessionDates) m →
  m = toDay now ∨ m = toDay now - ONE_DAY_MS →
  (1 ≤ calculateStreak now sessionDates)%nat
  ∧ (∀ i : nat, (i < calculateStreak now sessionDates)%nat →
       m - Z.of_nat i * ONE_DAY_MS ∈ days sessionDates)
  ∧ m - Z.of_nat (calculateStreak now sessionDates) * ONE_DAY_MS ∉ days sessionDates.
Proof.
  intros Hmost Hrecent.
  destruct (uniqueDays_head _ _ Hmost) as [rest Huniq].
  assert (Hlen : (length sessionDates =? 0)%nat = false).
  { destruct sessionDates; [|done].
    destruct Hmost as [Hm _]. by apply elem_of_nil in Hm. }
  unfold calculateStreak. rewrite Hlen, Huniq.
  assert (Hcond : negb (m =? toDay now) && negb (m =? toDay now - ONE_DAY_MS) = false).
  { destruct Hrecent as [->| ->]; rewrite Z.eqb_refl; simpl;
      [done | by rewrite andb_false_r]. }
  rewrite Hcond.
  pose proof (uniqueDays_descending (toDay <$> sessionDates)) as Hs.
  pose proof (uniqueDays_elem (toDay <$> sessionDates)) as Hel.
  rewrite Huniq in Hs, Hel.
  destruct (streakLoop_run rest m 1 Hs) as (j & -> & Hin & Hout).
  { intros d Hd. apply Hel, list_elem_of_fmap in Hd as (t & -> & _).
    apply toDay_calendar_day. }
  split; [lia|]. split.
  - intros i Hi. apply Hel, Hin. lia.
  - intros Hx. apply Hout. apply Hel. exact Hx.
Qed.

Lemma calculateStreak_stale (now : Z) (sessionDates : list Z) (m : Z) :
  mostRecent (days sessionDates) m →
  m ≠ toDay now → m ≠ toDay now - ONE_DAY_MS →
  calculateStreak now sessionDates = 0%nat.
Proof.
  intros Hmost H1 H2.
  destruct (uniqueDays_head _ _ Hmost) as [rest Huniq].
  unfold calculateStreak. rewrite Huniq.
  destruct (length sessionDates =? 0)%nat; [done|].
  apply Z.eqb_neq in H1 as ->. by apply Z.eqb_neq in H2 as ->.
Qed.

(** Two lists of dates that cover the same days have the same streak:
    repeats of a day and the order of the dates do not count. *)
Lemma calculateStreak_days_only (now : Z) (dates dates' : list Z) :
  (∀ d, d ∈ days dates ↔ d ∈ days dates') →
  calculateStreak now dates = calculateStreak now dates'.
Proof.
  intros Hsame.
  destruct (decide (dates = [])) as [->|Hne].
  { destruct dates' as [|t ts]; [done|].
    exfalso. apply (elem_of_nil (toDay t)). apply Hsame. apply list_elem_of_here. }
  destruct (decide (dates' = [])) as [->|Hne'].
  { destruct dates as [|t ts]; [done|].
    exfalso. apply (elem_of_nil (toDay t)). apply Hsame. apply list_elem_of_here. }
  destruct (mostRecent_exists (days dates)) as [m Hm];
    [by destruct dates|].
  assert (Hm' : mostRecent (days dates') m).
  { destruct Hm as [Hin Hmax]. split; [by apply Hsame|].
    intros d Hd. by apply Hmax, Hsame. }
  destruct (decide (m = toDay now ∨ m = toDay now - ONE_DAY_MS)) as [Hrec|Hstale].
  - destruct (calculateStreak_run now dates m Hm Hrec) as (_ & Hin & Hout).
    destruct (calculateStreak_run now dates' m Hm' Hrec) as (_ & Hin' & Hout').
    destruct (Nat.lt_trichotomy (calculateStreak now dates) (calculateStreak now dates'))
      as [Hlt|[Heq|Hgt]]; [|done|].
    + exfalso. apply Hout, Hsame, Hin', Hlt.
    + exfalso. apply Hout', Hsame, Hin, Hgt.
  - rewrite (calculateStreak_stale now dates m Hm) by tauto.
    by rewrite (calculateStreak_stale now dates' m Hm') by tauto.
Qed.

(** C6: each instant is normalised to the start of its UTC day and days
    are counted once; the streak is 0 for no dates and 0 when the most
    recent day is neither today nor yesterday; otherwise it is the
    number [k] of consecutive days found going back from the most recent
    day [m]: the days [m], [m - 1 day], ..., [m - (k-1) days] are all
    present and [m - k days] is not, whatever older days there are.
    Only the set of days matters, so repeated dates of a day count once. *)
Theorem calculateStreak_consecutive_days (now : Z) (sessionDates : list Z) :
  calculateStreak now [] = 0%nat
  ∧ (∀ t, toDay t ≤ t < toDay t + ONE_DAY_MS ∧ ∃ n, toDay t = n * ONE_DAY_MS)
  ∧ (∀ m, mostRecent (days sessionDates) m →
      (m ≠ toDay now → m ≠ toDay now - ONE_DAY_MS →
         calculateStreak now sessionDates = 0%nat)
      ∧ (m = toDay now ∨ m = toDay now - ONE_DAY_MS →
         (1 ≤ calculateStreak now sessionDates)%nat
         ∧ (∀ i : nat, (i < calculateStreak now sessionDates)%nat →
              m - Z.of_nat i * ONE_DAY_MS ∈ days sessionDates)
         ∧ m - Z.of_nat (calculateStreak now sessionDates) * ONE_DAY_MS
             ∉ days sessionDates))
  ∧ (∀ dates', (∀ d, d ∈ days sessionDates ↔ d ∈ days dates') →
       calculateStreak now sessionDates = calculateStreak now dates').
Proof.
  split; [done|]. split; [apply toDay_calendar_day|]. split.
  - intros m Hmost. split.
    + by apply calculateStreak_stale.
    + by apply calculateStreak_run.
  - intros dates'. apply calculateStreak_days_only.
Qed.

Lemma calculateStreak_consecutive_days_witness :
  let now := 1700000000000 in
  let dates :=
    [1700000000000; 1699990000000; 1699913600000; 1699700000000; 1699613600000] in
  mostRecent (days dates) 1699920000000
  ∧ (1 ≤ calculateStreak now dates)%nat
  ∧ 1699920000000 - Z.of_nat (calculateStreak now dates) * ONE_DAY_MS ∉ days dates.
Proof.
  intros now dates.
  assert (Hm : mostRecent (days dates) 1699920000000).
  { split; [unfold days; compute_done|].
    intros d Hd. vm_compute in Hd.
    repeat (apply elem_of_cons in Hd as [->|Hd]; [lia|]).
    by apply elem_of_nil in Hd. }
  split; [exact Hm|].
  destruct (calculateStreak_consecutive_days now dates) as (_ & _ & H & _).
  destruct (H _ Hm) as [_ H2].
  destruct H2 as (H3 & _ & H5); [left; reflexivity|].
  split; assumption.
Defined.

End Streak.

(** ** Random picks *)

Lemma Math_floor_scaled_range (r : Q) (n : nat) :
  (0 <= r)%Q → (r < 1)%Q → (0 < n)%nat →
  0 ≤ Math_floor_scaled r n < Z.of_nat n.
Proof.
  intros H0 H1 Hn. unfold Math_floor_scaled.
  set (N := inject_Z (Z.of_nat n)).
  assert (HN : (0 < N)%Q) by (unfold N, Qlt; simpl; lia).
  split.
  - change 0 with (Qfloor 0). apply Qfloor_resp_le.
    apply Qmult_le_0_compat; [done | by apply Qlt_le_weak].
  - rewrite Zlt_Qlt. fold N.
    apply Qle_lt_trans with (r * N)%Q; [apply Qfloor_le|].
    rewrite <- (Qmult_1_l N) at 2.
    by apply Qmult_lt_compat_r.
Qed.

Lemma at_index_in_range {A} (arr : list A) (i : Z) :
  0 ≤ i < Z.of_nat (length arr) → ∃ x, at_index arr i = Some x ∧ x ∈ arr.
Proof.
  intros [H0 H1]. unfold at_index.
  rewrite (proj2 (Z.ltb_ge i 0) H0).
  destruct (lookup_lt_is_Some_2 arr (Z.to_nat i)) as [x Hx]; [lia|].
  exists x. split; [done|]. by eapply list_elem_of_lookup_2.
Qed.

Lemma at_index_Some {A} (arr : list A) (i : Z) (x : A) :
  at_index arr i = Some x → x ∈ arr.
Proof.
  unfold at_index. destruct (i <? 0); [done|]. apply list_elem_of_lookup_2.
Qed.

Lemma unitInterval_same (g g' : Rng) : sameSource g g' → unitInterval g → unitInterval g'.
Proof. unfold sameSource, unitInterval. by intros ->. Qed.

(** ** Frequencies *)

Section Frequencies.

Import NoteUtils.

Lemma hzOfOffset_pos (offset : Z) : (0 < hzOfOffset offset)%R.
Proof.
  unfold hzOfOffset, Rpower.
  apply Rmult_lt_0_compat; [lra | apply exp_pos].
Qed.

Lemma Rpower_two_ge_one (s : Z) : 0 ≤ s → (1 <= Rpower 2 (IZR s / 12))%R.
Proof.
  intros Hs. rewrite <- (Rpower_O 2) by lra.
  apply Rle_Rpower; [lra|].
  apply IZR_le in Hs. lra.
Qed.

(** A table built by setting entries in order gives each key the value
    of its last entry. *)
Lemma table_lookup {V} (f : Z → V) (entries : list (string * Z)) (k : string) :
  foldl (λ acc e, <[e.1 := f e.2]> acc) (∅ : gmap string V) entries !! k
  = (λ e, f e.2) <$> last (filter (λ e, e.1 = k) entries).
Proof.
  induction entries as [|e entries IH] using rev_ind; [done|].
  rewrite foldl_app, filter_app, filter_cons, filter_nil. simpl.
  rewrite lookup_insert.
  destruct (decide (e.1 = k)) as [Heq|Hne].
  - by rewrite last_snoc.
  - by rewrite app_nil_r.
Qed.

Lemma getRootFrequency_pos (keyName : option string) (freq : R) :
  getRootFrequency keyName = Ok freq → (0 < freq)%R.
Proof.
  unfold getRootFrequency, NOTE_FREQUENCIES. rewrite table_lookup.
  destruct (last _) as [e|]; simpl; [|done].
  intros [= <-]. apply hzOfOffset_pos.
Qed.

Lemma getRootFrequency_known (keyName : string) :
  knownKey keyName → ∃ freq, getRootFrequency (Some keyName) = Ok freq.
Proof.
  unfold knownKey, getRootFrequency, NOTE_FREQUENCIES. rewrite table_lookup.
  intros Hk. apply list_elem_of_fmap in Hk as (e & He & Hin).
  assert (Hf : e ∈ filter (λ e, e.1 = keyWithOctave (Some keyName)) SEMITONES_FROM_A4).
  { apply list_elem_of_filter. by split. }
  destruct (last _) as [e'|] eqn:Hlast; simpl; [by eexists|].
  apply last_None in Hlast. rewrite Hlast in Hf. by apply elem_of_nil in Hf.
Qed.

Lemma getRootFrequency_undefined :
  getRootFrequency None = Throw (UnknownKey None).
Proof. reflexivity. Qed.

Lemma catalog_semitones_nonneg (i : Intervals.Interval) :
  i ∈ Intervals.INTERVALS → 0 ≤ Intervals.semitones i.
Proof.
  revert i. apply Forall_forall. unfold Intervals.INTERVALS.
  repeat (constructor; [simpl; lia|]). constructor.
Qed.

Lemma getIntervalFrequency_ge (rootHz : R) (semitones : Z) (hz : R) :
  (0 < rootHz)%R →
  getIntervalFrequency rootHz semitones = Ok hz → (rootHz <= hz)%R.
Proof.
  intros Hpos. unfold getIntervalFrequency.
  destruct (Z.ltb_spec semitones 0) as [|Hs]; [done|].
  intros [= <-]. pose proof (Rpower_two_ge_one semitones Hs). nra.
Qed.

End Frequencies.

(** ** Question generator *)

Section Generator.

Import QuestionGenerator.

Lemma randomPick_empty {A} (g : Rng) : randomPick (@nil A) g = (Throw EmptyArray, g).
Proof. reflexivity. Qed.

Lemma randomPick_draw {A} (arr : list A) (g : Rng) :
  arr ≠ [] →
  randomPick arr g
  = (Ok (at_index arr (Math_floor_scaled (rand g (cursor g)) (length arr))),
     mkRng (rand g) (S (cursor g))).
Proof. by destruct arr. Qed.

Lemma pickFromWeightedPool_empty (g : Rng) :
  AdaptiveWeighting.pickFromWeightedPool [] g = (Throw EmptyPool, g).
Proof. reflexivity. Qed.

Lemma pickFromWeightedPool_draw (pool : list string) (g : Rng) :
  pool ≠ [] →
  AdaptiveWeighting.pickFromWeightedPool pool g
  = (Ok (at_index pool (Math_floor_scaled (rand g (cursor g)) (length pool))),
     mkRng (rand g) (S (cursor g))).
Proof. by destruct pool. Qed.

(** In a well-behaved source the drawn index is inside the array. *)
Lemma drawn_index_defined {A} (arr : list A) (g : Rng) :
  arr ≠ [] → unitInterval g →
  ∃ x, at_index arr (Math_floor_scaled (rand g (cursor g)) (length arr)) = Some x
       ∧ x ∈ arr.
Proof.
  intros Hne Hg. apply at_index_in_range.
  destruct (Hg (cursor g)) as [H0 H1].
  apply Math_floor_scaled_range; [done|done|].
  destruct arr; [done | simpl; lia].
Qed.

(** A resolved question carries the key and id it was given, both
    defined, and its interval is not below its root. *)
Lemma resolveQuestion_ok (key id : option string) (g g' : Rng) (q : Question) :
  resolveQuestion key id g = (Ok q, g') →
  g' = g
  ∧ QuestionGenerator.key q = key ∧ intervalId q = id
  ∧ is_Some key ∧ is_Some id
  ∧ (rootHz q <= intervalHz q)%R.
Proof.
  unfold resolveQuestion.
  destruct (Intervals.getIntervalById id) as [interval|] eqn:Hentry; [|done].
  unfold bind, lift, ret.
  destruct (NoteUtils.getRootFrequency key) as [freq|] eqn:Hroot; [|done].
  destruct (NoteUtils.getIntervalFrequency freq _) as [hz|] eqn:Hhz; [|done].
  intros [= <- <-]. simpl.
  split; [done|]. split; [done|]. split; [done|]. split; [|split].
  - destruct key; [done|]. by rewrite getRootFrequency_undefined in Hroot.
  - by destruct id.
  - eapply getIntervalFrequency_ge; [|done]. by eapply getRootFrequency_pos.
Qed.

Lemma inCatalog_lookup (id : string) :
  inCatalog id ↔ ∃ i, Intervals.getIntervalById (Some id) = Some i.
Proof.
  unfold inCatalog. rewrite list_elem_of_fmap. split.
  - intros (i & -> & Hin). exists i. by apply getIntervalById_catalog.
  - intros (i & Hi). apply getIntervalById_Some in Hi as [Hin <-]. by exists i.
Qed.

Lemma resolveQuestion_succeeds (key id : string) (g : Rng) :
  knownKey key → inCatalog id →
  ∃ q, resolveQuestion (Some key) (Some id) g = (Ok q, g).
Proof.
  intros Hk Hi. unfold resolveQuestion.
  apply inCatalog_lookup in Hi as [interval Hentry]. rewrite Hentry.
  apply getIntervalById_Some in Hentry as [Hin _].
  destruct (getRootFrequency_known key Hk) as [freq Hroot].
  unfold bind, lift, ret. rewrite Hroot.
  unfold NoteUtils.getIntervalFrequency.
  pose proof (catalog_semitones_nonneg interval Hin) as Hs.
  rewrite (proj2 (Z.ltb_ge _ 0) Hs). by eexists.
Qed.

Lemma resolveQuestion_unknown_key (key : option string) (id : option string) (g : Rng) :
  (∀ k, key = Some k → ¬ knownKey k) →
  ∃ e, resolveQuestion key id g = (Throw e, g).
Proof.
  intros Hk. unfold resolveQuestion.
  destruct (Intervals.getIntervalById id) as [interval|]; [|by eexists].
  unfold bind, lift.
  destruct (NoteUtils.getRootFrequency key) as [freq|] eqn:Hroot; [|by eexists].
  exfalso. destruct key as [k|]; [|by rewrite getRootFrequency_undefined in Hroot].
  apply (Hk k eq_refl).
  unfold NoteUtils.getRootFrequency, NoteUtils.NOTE_FREQUENCIES in Hroot.
  rewrite table_lookup in Hroot.
  destruct (last _) as [e|] eqn:Hlast; [|done].
  apply last_Some_elem_of, list_elem_of_filter in Hlast as [He Hin].
  unfold knownKey. apply list_elem_of_fmap. by exists e.
Qed.

Lemma resolveQuestion_unknown_id (key : option string) (id : option string) (g : Rng) :
  (∀ i, id = Some i → ¬ inCatalog i) →
  resolveQuestion key id g = (Throw (UnknownIntervalId id), g).
Proof.
  intros Hi. unfold resolveQuestion.
  destruct (Intervals.getIntervalById id) as [interval|] eqn:Hentry; [|done].
  exfalso. destruct id as [i|]; [|done].
  apply (Hi i eq_refl). apply inCatalog_lookup. by exists interval.
Qed.

Lemma generateQuestion_ok (ids keys : list string) (g g' : Rng) (q : Question) :
  generateQuestion ids keys g = (Ok q, g') →
  questionWithin ids keys q ∧ sameSource g g'.
Proof.
  unfold generateQuestion.
  destruct (decide (keys = [])) as [->|Hk]; [done|].
  unfold bind at 1. rewrite (randomPick_draw keys g Hk).
  destruct (decide (ids = [])) as [->|Hi]; [done|].
  unfold bind at 1. rewrite (randomPick_draw ids _ Hi).
  intros Hres. apply resolveQuestion_ok in Hres
    as (-> & Hkey & Hid & [k Hk'] & [i Hi'] & Hhz).
  split; [|done].
  rewrite Hk' in Hkey. rewrite Hi' in Hid. simpl in Hi'.
  split; [|split; [|done]].
  - exists i. split; [done|]. by eapply at_index_Some.
  - exists k. split; [done|]. by eapply at_index_Some.
Qed.

Lemma generateQuestion_succeeds (ids keys : list string) (g : Rng) :
  ids ≠ [] → keys ≠ [] → Forall inCatalog ids → Forall knownKey keys →
  unitInterval g →
  ∃ q g', generateQuestion ids keys g = (Ok q, g').
Proof.
  intros Hi Hk Hcat Hknown Hg. unfold generateQuestion.
  unfold bind at 1. rewrite (randomPick_draw keys g Hk).
  unfold bind at 1. rewrite (randomPick_draw ids _ Hi).
  destruct (drawn_index_defined keys g Hk Hg) as (k & -> & Hkin).
  simpl.
  destruct (drawn_index_defined ids (mkRng (rand g) (S (cursor g))) Hi)
    as (i & Hidx & Hiin); [done|].
  simpl in Hidx. rewrite Hidx.
  rewrite Forall_forall in Hcat, Hknown.
  destruct (resolveQuestion_succeeds k i (mkRng (rand g) (S (S (cursor g))))
              (Hknown k Hkin) (Hcat i Hiin)) as [q Hq].
  by exists q, (mkRng (rand g) (S (S (cursor g)))).
Qed.

(** [Array.from] gives as many elements as asked, each as the callback
    makes them. *)
Lemma Array_from_ok {A} (P : A → Prop) (f : M A) (n : nat) :
  (∀ g x g', f g = (Ok x, g') → P x ∧ sameSource g g') →
  ∀ g xs g', Array_from n f g = (Ok xs, g') →
    length xs = n ∧ Forall P xs ∧ sameSource g g'.
Proof.
  intros Hf. induction n as [|n IH]; intros g xs g'; simpl.
  - intros [= <- <-]. done.
  - unfold bind at 1. destruct (f g) as [[x|e] g1] eqn:Hfg; [|done].
    unfold bind at 1. destruct (Array_from n f g1) as [[xs'|e] g2] eqn:Hrest; [|done].
    intros [= <- <-].
    destruct (Hf _ _ _ Hfg) as [HP Hs1].
    destruct (IH _ _ _ Hrest) as (Hlen & HF & Hs2).
    split; [simpl; lia|]. split; [by constructor|].
    unfold sameSource in *. congruence.
Qed.

Lemma Array_from_succeeds {A} (f : M A) (n : nat) :
  (∀ g, unitInterval g → ∃ x g', f g = (Ok x, g') ∧ sameSource g g') →
  ∀ g, unitInterval g → ∃ xs g', Array_from n f g = (Ok xs, g').
Proof.
  intros Hf. induction n as [|n IH]; intros g Hg; simpl.
  - by exists [], g.
  - destruct (Hf g Hg) as (x & g1 & Hfg & Hs1).
    unfold bind at 1. rewrite Hfg.
    destruct (IH g1 (unitInterval_same _ _ Hs1 Hg)) as (xs & g2 & Hrest).
    unfold bind at 1. rewrite Hrest. by exists (x :: xs), g2.
Qed.

Lemma Array_from_first_throws {A} (f : M A) (n : nat) (g g' : Rng) (e : Error) :
  f g = (Throw e, g') → Array_from (S n) f g = (Throw e, g').
Proof. intros Hfg. simpl. unfold bind at 1. by rewrite Hfg. Qed.

Lemma invalidCount_positiveInteger (count : Q) :
  invalidCount count = false ↔ positiveInteger count.
Proof.
  unfold invalidCount, positiveInteger, Number_isInteger.
  rewrite orb_false_iff, negb_false_iff, Qeq_bool_iff, Qltb_ge. split.
  - intros [Hentry Hge]. exists (Qfloor count). split; [|by symmetry].
    rewrite <- Hentry in Hge. change 1%Q with (inject_Z 1) in Hge.
    rewrite <- Zle_Qle in Hge. lia.
  - intros (n & Hn & Hc).
    assert (Hfloor : Qfloor count = n)
      by (rewrite (Qfloor_comp _ _ Hc); apply Qfloor_Z).
    rewrite Hfloor. split; [by symmetry|].
    apply Qle_trans with (inject_Z n); [|by apply Qle_lteq; right; symmetry].
    change 1%Q with (inject_Z 1). rewrite <- Zle_Qle. lia.
Qed.

Lemma positiveInteger_iterations (count : Q) :
  positiveInteger count →
  (0 < Z.to_nat (Qfloor count))%nat
  ∧ (inject_Z (Z.of_nat (Z.to_nat (Qfloor count))) == count)%Q.
Proof.
  intros (n & Hn & Hc).
  assert (Hfloor : Qfloor count = n)
    by (rewrite (Qfloor_comp _ _ Hc); apply Qfloor_Z).
  rewrite Hfloor. split; [lia|].
  rewrite Z2Nat.id by lia. by symmetry.
Qed.

(** C7, as the code has it: for lists of catalog ids and of known key
    names, both non-empty, and a positive integer count, the session has
    exactly [count] questions, each with its id among the ids, its key
    among the keys and its interval frequency not below its root
    frequency; whatever the lists, a session that is returned has these
    properties; a count that is not a positive integer fails with the
    count error before anything is drawn. *)
Theorem generateSession_count_and_members
    (ids keys : list string) (count : Q) (g : Rng) :
  (positiveInteger count → ids ≠ [] → keys ≠ [] →
   Forall inCatalog ids → Forall knownKey keys → unitInterval g →
     ∃ qs g', generateSession ids keys count g = (Ok qs, g')
              ∧ (inject_Z (Z.of_nat (length qs)) == count)%Q
              ∧ Forall (questionWithin ids keys) qs)
  ∧ (∀ qs g', generateSession ids keys count g = (Ok qs, g') →
       (inject_Z (Z.of_nat (length qs)) == count)%Q
       ∧ Forall (questionWithin ids keys) qs)
  ∧ (¬ positiveInteger count →
       generateSession ids keys count g = (Throw (InvalidCount count), g)).
Proof.
  assert (Hpost : ∀ qs g', generateSession ids keys count g = (Ok qs, g') →
            (inject_Z (Z.of_nat (length qs)) == count)%Q
            ∧ Forall (questionWithin ids keys) qs).
  { intros qs g'. unfold generateSession.
    destruct (invalidCount count) eqn:Hc; [done|].
    apply invalidCount_positiveInteger, positiveInteger_iterations in Hc as [_ Hn].
    intros Hrun.
    apply (Array_from_ok (questionWithin ids keys)) in Hrun as (Hlen & HF & _).
    - by rewrite Hlen.
    - intros g0 q g1. apply generateQuestion_ok. }
  split; [|split; [exact Hpost|]].
  - intros Hc Hi Hk Hcat Hknown Hg.
    assert (Hrun : ∃ qs g', generateSession ids keys count g = (Ok qs, g')).
    { unfold generateSession.
      apply invalidCount_positiveInteger in Hc as ->.
      apply Array_from_succeeds; [|done].
      intros g0 Hg0.
      destruct (generateQuestion_succeeds ids keys g0 Hi Hk Hcat Hknown Hg0)
        as (q & g1 & Hq).
      exists q, g1. split; [done|]. by apply generateQuestion_ok in Hq as [_ ?]. }
    destruct Hrun as (qs & g' & Hrun).
    exists qs, g'. split; [done|]. by apply Hpost in Hrun.
  - intros Hc. unfold generateSession.
    destruct (invalidCount count) eqn:Hinv; [done|].
    by apply invalidCount_positiveInteger in Hinv.
Qed.

Lemma generateSession_count_and_members_witness :
  let g := mkRng (λ _, 0.5%Q) 0 in
  let ids := ["root"; "perfect_fifth"] in
  let keys := ["C"; "G"] in
  ∃ qs g', generateSession ids keys 2 g = (Ok qs, g')
           ∧ (inject_Z (Z.of_nat (length qs)) == 2)%Q
           ∧ Forall (questionWithin ids keys) qs.
Proof.
  intros g ids keys.
  apply (proj1 (generateSession_count_and_members ids keys 2 g)).
  - exists 2. split; [lia | reflexivity].
  - discriminate.
  - discriminate.
  - repeat constructor; unfold inCatalog; compute_done.
  - repeat constructor; unfold knownKey; compute_done.
  - intros n. simpl. split; [unfold Qle | unfold Qlt]; simpl; lia.
Defined.

(** C7 as stated fails: one unknown id in a non-empty list makes the
    call throw although the lists are non-empty and the count is 1. *)
Lemma generateSession_unknown_id_counterexample :
  let g := mkRng (λ _, 0%Q) 0 in
  ["bogus"] ≠ ([] : list string) ∧ ["C"] ≠ ([] : list string)
  ∧ positiveInteger 1 ∧ unitInterval g
  ∧ generateSession ["bogus"] ["C"] 1 g
    = (Throw (UnknownIntervalId (Some "bogus")), mkRng (λ _, 0%Q) 2).
Proof.
  intros g. split; [discriminate|]. split; [discriminate|].
  split; [exists 1; split; [lia | reflexivity]|].
  split; [|reflexivity].
  intros n. simpl. split; [unfold Qle | unfold Qlt]; simpl; lia.
Qed.

End Generator.

(** ** Quiz session *)

Section Session.

Import QuestionGenerator QuizSession.

Lemma hook_eta (h : Hook) : mkHook (rng h) (state h) (log h) = h.
Proof. by destruct h. Qed.

Lemma call_setState (c : Call) : call c = setState (updater c).
Proof. by destruct c. Qed.

Lemma call_step (c : Call) (h : Hook) :
  call c h
  = (Ok tt, mkHook (rng h) (updater c (state h)).1 (log h ++ (updater c (state h)).2)).
Proof.
  rewrite call_setState. unfold setState. by destruct (updater c (state h)).
Qed.

Lemma calls_cons (c : Call) (cs : list Call) (h : Hook) :
  calls (c :: cs) h
  = calls cs (mkHook (rng h) (updater c (state h)).1 (log h ++ (updater c (state h)).2)).
Proof. simpl. unfold bind. by rewrite call_step. Qed.

Lemma Array_from_length {A} (f : M A) (n : nat) (g g' : Rng) (xs : list A) :
  Array_from n f g = (Ok xs, g') → length xs = n.
Proof.
  revert g g' xs. induction n as [|n IH]; intros g g' xs; simpl.
  - by intros [= <- _].
  - unfold bind at 1. destruct (f g) as [[x|e] g1]; [|done].
    unfold bind at 1. destruct (Array_from n f g1) as [[xs'|e] g2] eqn:Hrest; [|done].
    unfold ret. intros [= <- _]. simpl. f_equal. by eapply IH.
Qed.

Lemma startSession_unfold (cfg : Config) (h : Hook) :
  startSession cfg h
  = match sessionGenerator cfg (rng h) with
    | (Ok questions, g) =>
        (Ok tt, mkHook g (mkState questions 0 answering None None false [])
                  (log h ++ play (questions !! 0%nat)))
    | (Throw e, g) => (Throw e, mkHook g (state h) (log h))
    end.
Proof.
  unfold startSession, sessionGenerator, bind, withRng, setState, emit.
  destruct (match intervalStats cfg with Some _ => _ | None => _ end);
    match goal with |- context [?gen (rng h)] => destruct (gen (rng h)) as [[qs|e] g] end;
    simpl; by rewrite ?app_nil_r.
Qed.

Lemma sessionGenerator_length (cfg : Config) (g g' : Rng) (qs : list Question) :
  sessionGenerator cfg g = (Ok qs, g') →
  (0 < length qs)%nat ∧ (inject_Z (Z.of_nat (length qs)) == sessionLength cfg)%Q.
Proof.
  unfold sessionGenerator, generateSession, generateAdaptiveSession.
  destruct (invalidCount (sessionLength cfg)) eqn:Hc;
    [by destruct (match intervalStats cfg with Some _ => _ | None => _ end)|].
  apply invalidCount_positiveInteger, positiveInteger_iterations in Hc as [Hpos Hn].
  destruct (match intervalStats cfg with Some _ => _ | None => _ end);
    intros Hrun; apply Array_from_length in Hrun; by rewrite Hrun.
Qed.

(** Advancing: the index moves on by one, the per-question fields are
    reset, the results are those given; past the last question the run
    is complete and the payload goes out, otherwise the next question
    is played. *)
Lemma computeAdvance_spec (prev : State) (newResults : list AnswerResult.t) :
  let next := (computeAdvance prev newResults).1 in
  questions next = questions prev
  ∧ currentIndex next = S (currentIndex prev)
  ∧ sessionResults next = newResults
  ∧ selectedAnswer next = None ∧ isCorrect next = None ∧ retryUsed next = false
  ∧ (((length (questions prev) ≤ S (currentIndex prev))%nat
      ∧ phase next = complete
      ∧ (∃ p, (computeAdvance prev newResults).2 = [onSessionComplete p]
              ∧ Payload.questions p = questions prev
              ∧ Payload.results p = newResults
              ∧ Payload.total p = length newResults))
     ∨ ((S (currentIndex prev) < length (questions prev))%nat
        ∧ phase next = answering
        ∧ payloads (computeAdvance prev newResults).2 = [])).
Proof.
  unfold computeAdvance. rewrite Nat.add_1_r.
  destruct (Nat.leb_spec (length (questions prev)) (S (currentIndex prev))) as [Hle|Hlt];
    simpl; repeat (split; [done|]).
  - left. repeat (split; [done|]). by eexists.
  - right. repeat (split; [done|]).
    by destruct (questions prev !! S (currentIndex prev)).
Qed.

Lemma getCurrentQuestion_None (s : State) :
  questions s = [] ∨ (length (questions s) ≤ currentIndex s)%nat →
  getCurrentQuestion s = None.
Proof.
  unfold getCurrentQuestion. intros [->|Hle]; [done|]. by apply lookup_ge_None.
Qed.

(** Once the run is complete there is no question at the index. *)
Lemma complete_past_last (c : Call) (s : State) :
  (phase s = complete → (length (questions s) ≤ currentIndex s)%nat) →
  let s' := (updater c s).1 in
  phase s' = complete → (length (questions s') ≤ currentIndex s')%nat.
Proof.
  intros Hinv.
  assert (Hadv : ∀ rs, phase (computeAdvance s rs).1 = complete →
            (length (questions (computeAdvance s rs).1)
             ≤ currentIndex (computeAdvance s rs).1)%nat).
  { intros rs Hc.
    destruct (computeAdvance_spec s rs) as (-> & -> & _ & _ & _ & _ & [H|H]).
    - by destruct H.
    - destruct H as (_ & Hp & _). by rewrite Hp in Hc. }
  destruct c as [a|]; simpl; [|apply Hadv].
  unfold submitAnswerUpdater.
  destruct (questions s !! currentIndex s) as [q|]; [|done].
  case_bool_decide; [apply Hadv|].
  destruct (retryUsed s); simpl; [apply Hadv | done].
Qed.

Lemma calls_total (cs : list Call) (h : Hook) :
  ∃ h', calls cs h = (Ok tt, h').
Proof.
  revert h. induction cs as [|c cs IH]; intros h; [by eexists|].
  rewrite calls_cons. apply IH.
Qed.

Lemma calls_complete_past_last (cs : list Call) (h h' : Hook) :
  (phase (state h) = complete →
     (length (questions (state h)) ≤ currentIndex (state h))%nat) →
  calls cs h = (Ok tt, h') →
  phase (state h') = complete →
  (length (questions (state h')) ≤ currentIndex (state h'))%nat.
Proof.
  revert h. induction cs as [|c cs IH]; intros h Hinv.
  - by intros [= <-].
  - rewrite calls_cons. apply IH. simpl. by apply complete_past_last.
Qed.

(** C10: with no question at the current index, [submitAnswer] changes
    nothing: the state keeps every field, no result is appended and
    nothing is played.  There is no such question before a session has
    started, and none once a run has reached the complete state. *)
Theorem submitAnswer_without_question :
  (∀ (h : Hook) (answered : option string),
     questions (state h) = [] ∨ (length (questions (state h)) ≤ currentIndex (state h))%nat →
     submitAnswer answered h = (Ok tt, h))
  ∧ questions INITIAL_STATE = [] ∧ phase INITIAL_STATE = idle
  ∧ (∀ (cfg : Config) (h0 h1 h2 : Hook) (cs : list Call),
       startSession cfg h0 = (Ok tt, h1) →
       calls cs h1 = (Ok tt, h2) →
       phase (state h2) = complete →
       (length (questions (state h2)) ≤ currentIndex (state h2))%nat).
Proof.
  split; [|split; [done|split; [done|]]].
  - intros h answered Hno. apply getCurrentQuestion_None in Hno.
    unfold submitAnswer, setState, submitAnswerUpdater.
    unfold getCurrentQuestion in Hno. rewrite Hno, app_nil_r.
    by rewrite hook_eta.
  - intros cfg h0 h1 h2 cs Hstart Hcalls.
    apply (calls_complete_past_last cs h1); [|done].
    rewrite startSession_unfold in Hstart.
    destruct (sessionGenerator cfg (rng h0)) as [[qs|e] g]; [|done].
    by injection Hstart as <-.
Qed.

Lemma submitAnswer_without_question_witness :
  let h1 := (startSession sampleConfig sampleHook).2 in
  let h2 := (calls [SubmitAnswer (Some "root")] h1).2 in
  phase (state h2) = complete
  ∧ submitAnswer (Some "perfect_fifth") h2 = (Ok tt, h2).
Proof.
  intros h1 h2. split; [reflexivity|].
  apply (proj1 submitAnswer_without_question). right.
  apply (proj2 (proj2 (proj2 submitAnswer_without_question))
           sampleConfig sampleHook h1 h2 [SubmitAnswer (Some "root")]);
    reflexivity.
Defined.

(** What a resolving answer does: one result appended, the run advanced. *)
Lemma computeAdvance_state (prev : State) (newResults : list AnswerResult.t) :
  (computeAdvance prev newResults).1
  = mkState (questions prev) (S (currentIndex prev))
      (if (S (currentIndex prev) <? length (questions prev))%nat
       then answering else complete)
      None None false newResults.
Proof.
  unfold computeAdvance. rewrite Nat.add_1_r.
  destruct (Nat.leb_spec (length (questions prev)) (S (currentIndex prev))) as [Hle|Hlt].
  - by rewrite (proj2 (Nat.ltb_ge _ _) Hle).
  - by rewrite (proj2 (Nat.ltb_lt _ _) Hlt).
Qed.

(** Names the state an advance leads to and rewrites it to its fields. *)
Ltac advance_state :=
  match goal with
  | |- context [computeAdvance ?s ?rs] =>
      let s' := fresh "s'" in
      let es := fresh "es" in
      let Hadv := fresh "Hadv" in
      destruct (computeAdvance s rs) as [s' es] eqn:Hadv;
      eexists; split; [reflexivity|]; simpl;
      change s' with (s', es).1; rewrite <- Hadv;
      by rewrite computeAdvance_state
  end.

(** What the answers on one question do, from any state that has a
    question at the index and the retry unused. *)
Lemma retry_at_question (h : Hook) (q : Question) :
  getCurrentQuestion (state h) = Some q →
  retryUsed (state h) = false →
  (∀ wrong, wrong ≠ intervalId q →
     ∃ h1, submitAnswer wrong h = (Ok tt, h1)
       ∧ state h1 = mkState (questions (state h)) (currentIndex (state h)) feedback
                      wrong (Some false) true (sessionResults (state h))
       ∧ log h1 = (log h ++ [playInterval (rootHz q) (intervalHz q)])%list
       ∧ ∀ second, ∃ h2, submitAnswer second h1 = (Ok tt, h2)
           ∧ state h2
             = mkState (questions (state h)) (S (currentIndex (state h)))
                 (if (S (currentIndex (state h)) <? length (questions (state h)))%nat
                  then answering else complete)
                 None None false
                 (sessionResults (state h) ++
                    [AnswerResult.mk (intervalId q)
                       (bool_decide (second = intervalId q)) true])%list)
  ∧ (∃ h1, submitAnswer (intervalId q) h = (Ok tt, h1)
       ∧ state h1
         = mkState (questions (state h)) (S (currentIndex (state h)))
             (if (S (currentIndex (state h)) <? length (questions (state h)))%nat
              then answering else complete)
             None None false
             (sessionResults (state h) ++ [AnswerResult.mk (intervalId q) true false])%list).
Proof.
  unfold getCurrentQuestion. intros Hq Hretry. split.
  - intros wrong Hwrong.
    unfold submitAnswer, setState at 1, submitAnswerUpdater at 1.
    rewrite Hq, Hretry, bool_decide_eq_false_2 by done. simpl.
    eexists. split; [reflexivity|]. split; [reflexivity|]. split; [reflexivity|].
    intros second. unfold setState, submitAnswerUpdater. simpl. rewrite Hq.
    case_bool_decide; simpl; advance_state.
  - unfold submitAnswer, setState, submitAnswerUpdater.
    rewrite Hq, Hretry, bool_decide_eq_true_2 by done.
    advance_state.
Qed.

(** A question being answered is fresh: it is there and its retry is
    unused. *)
Lemma updater_answering_fresh (c : Call) (s : State) :
  (phase s = answering →
     retryUsed s = false ∧ (currentIndex s < length (questions s))%nat) →
  let s' := (updater c s).1 in
  phase s' = answering →
  retryUsed s' = false ∧ (currentIndex s' < length (questions s'))%nat.
Proof.
  intros Hinv.
  assert (Hadv : ∀ rs, phase (computeAdvance s rs).1 = answering →
            retryUsed (computeAdvance s rs).1 = false
            ∧ (currentIndex (computeAdvance s rs).1
               < length (questions (computeAdvance s rs).1))%nat).
  { intros rs Ha.
    destruct (computeAdvance_spec s rs) as (-> & -> & _ & _ & _ & -> & [H|H]).
    - destruct H as (_ & Hp & _). by rewrite Hp in Ha.
    - by destruct H. }
  destruct c as [a|]; simpl; [|apply Hadv].
  unfold submitAnswerUpdater.
  destruct (questions s !! currentIndex s) as [q|]; [|done].
  case_bool_decide; [apply Hadv|].
  destruct (retryUsed s); simpl; [apply Hadv | done].
Qed.

Lemma calls_answering_fresh (cs : list Call) (h h' : Hook) :
  (phase (state h) = answering →
     retryUsed (state h) = false
     ∧ (currentIndex (state h) < length (questions (state h)))%nat) →
  calls cs h = (Ok tt, h') →
  phase (state h') = answering →
  retryUsed (state h') = false
  ∧ (currentIndex (state h') < length (questions (state h')))%nat.
Proof.
  revert h. induction cs as [|c cs IH]; intros h Hinv.
  - by intros [= <-].
  - rewrite calls_cons. apply IH. simpl. by apply updater_answering_fresh.
Qed.

(** C2: in a started session, whatever calls came before, a question
    being answered is there with its retry unused.  A wrong answer on it
    records the answer, marks it incorrect, uses the retry, shows
    feedback, replays the question and appends no result; the next
    answer on that question appends exactly one result, correct or not
    as the answer is, with the retry flagged, and advances.  A first
    answer that is correct appends its one result at once.  So a
    question answered to resolution contributes exactly one result. *)
Theorem retry_law (cfg : Config) (h0 h1 h : Hook) (cs : list Call) :
  startSession cfg h0 = (Ok tt, h1) →
  calls cs h1 = (Ok tt, h) →
  phase (state h) = answering →
  ∃ q, getCurrentQuestion (state h) = Some q
    ∧ retryUsed (state h) = false
    ∧ (∀ wrong, wrong ≠ intervalId q →
         ∃ h1, submitAnswer wrong h = (Ok tt, h1)
           ∧ state h1 = mkState (questions (state h)) (currentIndex (state h)) feedback
                          wrong (Some false) true (sessionResults (state h))
           ∧ log h1 = (log h ++ [playInterval (rootHz q) (intervalHz q)])%list
           ∧ ∀ second, ∃ h2, submitAnswer second h1 = (Ok tt, h2)
               ∧ state h2
                 = mkState (questions (state h)) (S (currentIndex (state h)))
                     (if (S (currentIndex (state h)) <? length (questions (state h)))%nat
                      then answering else complete)
                     None None false
                     (sessionResults (state h) ++
                        [AnswerResult.mk (intervalId q)
                           (bool_decide (second = intervalId q)) true])%list)
    ∧ (∃ h1, submitAnswer (intervalId q) h = (Ok tt, h1)
         ∧ state h1
           = mkState (questions (state h)) (S (currentIndex (state h)))
               (if (S (currentIndex (state h)) <? length (questions (state h)))%nat
                then answering else complete)
               None None false
               (sessionResults (state h) ++
                  [AnswerResult.mk (intervalId q) true false])%list).
Proof.
  intros Hstart Hcalls Hphase.
  destruct (calls_answering_fresh cs h1 h) as [Hretry Hidx]; [|done|done|].
  { rewrite startSession_unfold in Hstart.
    destruct (sessionGenerator cfg (rng h0)) as [[qs|e] g] eqn:Hgen; [|done].
    injection Hstart as <-. simpl. intros _.
    by apply sessionGenerator_length in Hgen as [Hpos _]. }
  destruct (lookup_lt_is_Some_2 _ _ Hidx) as [q Hq].
  exists q. split; [done|]. split; [done|].
  by apply retry_at_question.
Qed.

Lemma retry_law_witness :
  let h1 := (startSession sampleConfig sampleHook).2 in
  ∃ q, getCurrentQuestion (state h1) = Some q
       ∧ ∃ h2, submitAnswer (Some "perfect_fifth") h1 = (Ok tt, h2)
               ∧ phase (state h2) = feedback
               ∧ retryUsed (state h2) = true
               ∧ sessionResults (state h2) = [].
Proof.
  intros h1.
  destruct (retry_law sampleConfig sampleHook h1 h1 [])
    as (q & Hq & _ & Hwrong & _); [reflexivity | reflexivity | reflexivity |].
  exists q. split; [exact Hq|].
  assert (Hne : Some "perfect_fifth" ≠ intervalId q).
  { assert (Hq' : getCurrentQuestion (state h1)
                  = Some (mkQuestion (Some "C") (Some "root") (NoteUtils.hzOfOffset (-9))
                            (NoteUtils.hzOfOffset (-9) * Rpower 2 (IZR 0 / 12))%R))
      by reflexivity.
    rewrite Hq in Hq'. injection Hq' as ->. discriminate. }
  destruct (Hwrong (Some "perfect_fifth") Hne) as (h2 & H1 & H2 & _).
  exists h2. split; [exact H1|]. rewrite H2. repeat split.
Defined.

(** The first question cannot be made when no key is known or no id is
    in the catalog (in particular when either list is empty). *)
Lemma generateQuestion_throws (ids keys : list string) (g : Rng) :
  Forall (λ k, ¬ knownKey k) keys ∨ Forall (λ i, ¬ inCatalog i) ids →
  ∃ e g', generateQuestion ids keys g = (Throw e, g').
Proof.
  intros Hbad. unfold generateQuestion.
  destruct (decide (keys = [])) as [->|Hk]; [by eexists _, _|].
  unfold bind at 1. rewrite (randomPick_draw keys g Hk).
  destruct (decide (ids = [])) as [->|Hi]; [by eexists _, _|].
  unfold bind at 1. rewrite (randomPick_draw ids _ Hi).
  destruct Hbad as [Hbad|Hbad]; rewrite Forall_forall in Hbad.
  - edestruct resolveQuestion_unknown_key as [e He]; [|by eexists _, _].
    intros k Hkey. apply Hbad. by eapply at_index_Some.
  - eexists _, _. apply resolveQuestion_unknown_id.
    intros i Hid. apply Hbad. by eapply at_index_Some.
Qed.

Lemma adaptiveQuestion_throws (ids keys : list string)
    (stats : option (list AdaptiveWeighting.IntervalStat)) (g : Rng) :
  Forall (λ k, ¬ knownKey k) keys ∨ Forall (λ i, ¬ inCatalog i) ids →
  ∃ e g',
    (let* intervalId := AdaptiveWeighting.pickFromWeightedPool
                          (AdaptiveWeighting.buildWeightedPool ids stats) in
     let* r := Math_random in
     let key := at_index keys (Math_floor_scaled r (length keys)) in
     resolveQuestion key intervalId) g = (Throw e, g').
Proof.
  intros Hbad.
  set (pool := AdaptiveWeighting.buildWeightedPool ids stats).
  assert (Hpool : ∀ i, i ∈ pool → i ∈ ids).
  { intros i Hi. unfold pool in Hi. rewrite buildWeightedPool_flat in Hi.
    apply list_elem_of_bind in Hi as (id & Hi & Hid).
    by apply elem_of_replicate in Hi as [-> _]. }
  destruct (decide (pool = [])) as [->|Hne]; [by eexists _, _|].
  unfold bind at 1. rewrite (pickFromWeightedPool_draw pool g Hne).
  unfold bind at 1, Math_random at 1.
  destruct Hbad as [Hbad|Hbad]; rewrite Forall_forall in Hbad.
  - edestruct resolveQuestion_unknown_key as [e He]; [|by eexists _, _].
    intros k Hkey. apply Hbad. by eapply at_index_Some.
  - eexists _, _. apply resolveQuestion_unknown_id.
    intros i Hid. apply Hbad, Hpool. by eapply at_index_Some.
Qed.

Lemma sessionGenerator_throws (cfg : Config) (g : Rng) :
  Forall (λ k, ¬ knownKey k) (keys cfg) ∨ Forall (λ i, ¬ inCatalog i) (intervalIds cfg) →
  ∃ e g', sessionGenerator cfg g = (Throw e, g').
Proof.
  intros Hbad. unfold sessionGenerator, generateSession, generateAdaptiveSession.
  destruct (invalidCount (sessionLength cfg)) eqn:Hc;
    [destruct (match intervalStats cfg with Some _ => _ | None => _ end);
       by eexists _, _|].
  apply invalidCount_positiveInteger, positiveInteger_iterations in Hc as [Hpos _].
  destruct (Z.to_nat (Qfloor (sessionLength cfg))) as [|n]; [lia|].
  destruct (match intervalStats cfg with Some _ => _ | None => _ end).
  - destruct (adaptiveQuestion_throws (intervalIds cfg) (keys cfg)
                (Some (default [] (intervalStats cfg))) g Hbad) as (e & g' & He).
    exists e, g'. by apply Array_from_first_throws.
  - destruct (generateQuestion_throws (intervalIds cfg) (keys cfg) g Hbad)
      as (e & g' & He).
    exists e, g'. by apply Array_from_first_throws.
Qed.

(** C8, as the code has it: a [startSession] call that fails leaves the
    state as it was, every field of it, and plays nothing.  The call
    does fail when the session length is not a positive integer, and
    when none of the keys is known or none of the ids is in the catalog,
    so in particular when either list is empty. *)
Theorem startSession_failure_keeps_state (cfg : Config) (h : Hook) :
  (∀ e h', startSession cfg h = (Throw e, h') → state h' = state h ∧ log h' = log h)
  ∧ (¬ positiveInteger (sessionLength cfg) →
       startSession cfg h = (Throw (InvalidCount (sessionLength cfg)), h))
  ∧ (Forall (λ k, ¬ knownKey k) (keys cfg) ∨ Forall (λ i, ¬ inCatalog i) (intervalIds cfg) →
       ∃ e h', startSession cfg h = (Throw e, h')).
Proof.
  rewrite startSession_unfold. split; [|split].
  - intros e h'. destruct (sessionGenerator cfg (rng h)) as [[qs|e'] g]; [done|].
    by intros [= _ <-].
  - intros Hc. unfold sessionGenerator, generateSession, generateAdaptiveSession.
    destruct (invalidCount (sessionLength cfg)) eqn:Hinv;
      [|by apply invalidCount_positiveInteger in Hinv].
    destruct (match intervalStats cfg with Some _ => _ | None => _ end);
      unfold throw; by rewrite hook_eta.
  - intros Hbad.
    destruct (sessionGenerator_throws cfg (rng h) Hbad) as (e & g' & ->).
    by eexists _, _.
Qed.

Lemma startSession_failure_keeps_state_witness :
  let cfg := mkConfig ["root"; "perfect_fifth"] [] 5 None in
  let h := (startSession sampleConfig sampleHook).2 in
  ∃ e h', startSession cfg h = (Throw e, h') ∧ state h' = state h ∧ log h' = log h.
Proof.
  intros cfg h.
  destruct (proj2 (proj2 (startSession_failure_keeps_state cfg h))) as (e & h' & He).
  { left. constructor. }
  exists e, h'. split; [exact He|].
  exact (proj1 (startSession_failure_keeps_state cfg h) e h' He).
Defined.

(** C8 as stated fails: a list with an id outside the catalog does not
    make the call fail when no question draws that id; the session
    starts and the state changes. *)
Lemma startSession_unknown_id_counterexample :
  let cfg := mkConfig ["root"; "bogus"] ["C"] 1 None in
  ¬ inCatalog "bogus"
  ∧ ∃ h', startSession cfg sampleHook = (Ok tt, h')
          ∧ phase (state h') = answering
          ∧ state h' ≠ state sampleHook.
Proof.
  intros cfg. split.
  - unfold inCatalog. compute_done.
  - eexists. split; [reflexivity|]. split; [reflexivity|]. discriminate.
Qed.

Lemma payloads_app (es1 es2 : list Effect) :
  payloads (es1 ++ es2) = (payloads es1 ++ payloads es2)%list.
Proof. unfold payloads. apply omap_app. Qed.

Lemma payloads_play (q : option Question) : payloads (play q) = [].
Proof. by destruct q. Qed.

(** An advance from a question of the run, with results [rs] of which
    [k'] questions are not accounted for by a result. *)
Lemma computeAdvance_invariant (qs : list Question) (k' : nat) (new : list Effect)
    (s : State) (rs : list AnswerResult.t) :
  questions s = qs → (currentIndex s < length qs)%nat →
  (length rs + k' = S (currentIndex s))%nat →
  payloads new = [] →
  runInvariant qs k' (new ++ (computeAdvance s rs).2) (computeAdvance s rs).1.
Proof.
  intros Hqs Hidx Hlen Hnew.
  destruct (computeAdvance_spec s rs)
    as (Hq & Hi & Hr & _ & _ & _ & [(Hle & Hp & p & Hes & Hpq & Hpr & Hpt)
                                   |(Hlt & Hp & Hes)]).
  - split; [congruence|]. right. rewrite Hi, Hr, Hqs in *.
    split; [done|]. split; [lia|]. split; [lia|].
    exists p. rewrite payloads_app, Hnew, Hes. repeat split; congruence.
  - split; [congruence|]. left. rewrite Hi, Hr, Hp, Hqs in *.
    split; [done|]. split; [lia|]. split; [lia|].
    by rewrite payloads_app, Hnew, Hes.
Qed.

Lemma step_invariant (qs : list Question) (k : nat) (new : list Effect)
    (s : State) (c : Call) :
  runInvariant qs k new s →
  (c = AdvanceToNext → phase s ≠ complete) →
  runInvariant qs (k + advances [c]) (new ++ (updater c s).2) (updater c s).1.
Proof.
  intros [Hqs [(Hph & Hidx & Hlen & Hnew)|(Hph & Hidx & Hlen & Hp)]] Hadm.
  - destruct c as [a|]; simpl.
    + rewrite Nat.add_0_r. unfold submitAnswerUpdater.
      destruct (lookup_lt_is_Some_2 (questions s) (currentIndex s)) as [q Hq];
        [by rewrite Hqs|].
      rewrite Hq. case_bool_decide.
      * apply computeAdvance_invariant; try done. rewrite length_app. simpl. lia.
      * destruct (retryUsed s); simpl.
        -- apply computeAdvance_invariant; try done. rewrite length_app. simpl. lia.
        -- split; [done|]. left. simpl.
           split; [done|]. split; [done|]. split; [done|].
           by rewrite payloads_app, Hnew.
    + apply computeAdvance_invariant; try done. unfold advances. simpl. lia.
  - destruct c as [a|]; [|by destruct Hadm].
    simpl. rewrite Nat.add_0_r. unfold submitAnswerUpdater.
    rewrite (lookup_ge_None_2 (questions s) (currentIndex s)) by (by rewrite Hqs).
    rewrite app_nil_r. split; [done|]. right. done.
Qed.

Lemma advances_cons (c : Call) (cs : list Call) :
  advances (c :: cs) = (advances [c] + advances cs)%nat.
Proof. unfold advances. simpl. by destruct c. Qed.

Lemma calls_invariant (qs : list Question) (cs : list Call) :
  ∀ (h : Hook) (k : nat) (new0 : list Effect),
    runInvariant qs k new0 (state h) →
    noAdvanceOnceComplete cs (state h) →
    ∃ h' new, calls cs h = (Ok tt, h')
              ∧ log h' = (log h ++ new)%list
              ∧ runInvariant qs (k + advances cs) (new0 ++ new) (state h').
Proof.
  induction cs as [|c cs IH]; intros h k new0 Hinv Hadm.
  - exists h, []. rewrite !app_nil_r, Nat.add_0_r. done.
  - destruct Hadm as [Hc Hadm].
    rewrite calls_cons.
    pose proof (step_invariant qs k new0 (state h) c Hinv Hc) as Hstep.
    destruct (IH (mkHook (rng h) (updater c (state h)).1
                    (log h ++ (updater c (state h)).2)) _ _ Hstep Hadm)
      as (h' & new & Hrun & Hlog & Hinv').
    exists h', ((updater c (state h)).2 ++ new)%list.
    split; [done|]. simpl in Hlog. rewrite Hlog, advances_cons.
    rewrite !app_assoc, Nat.add_assoc. done.
Qed.

(** C1, as the code has it: in a run in which [advanceToNext] is not
    called once the run is complete, no payload goes out before the run
    is complete and exactly one has gone out when it is; that payload
    holds the results, [total] is their number, and [total] plus the
    number of [advanceToNext] calls of the run is the session length.
    So in a run of [submitAnswer] calls alone [total] and the number of
    results both equal the session length. *)
Theorem completion_payload_once (cfg : Config) (h0 h1 : Hook) (cs : list Call) :
  startSession cfg h0 = (Ok tt, h1) →
  noAdvanceOnceComplete cs (state h1) →
  ∃ h2 new,
    calls cs h1 = (Ok tt, h2)
    ∧ log h2 = (log h1 ++ new)%list
    ∧ (phase (state h2) ≠ complete → payloads new = [])
    ∧ (phase (state h2) = complete →
         ∃ p, payloads new = [p]
              ∧ Payload.results p = sessionResults (state h2)
              ∧ Payload.total p = length (Payload.results p)
              ∧ (inject_Z (Z.of_nat (Payload.total p + advances cs))
                 == sessionLength cfg)%Q).
Proof.
  intros Hstart Hadm. rewrite startSession_unfold in Hstart.
  destruct (sessionGenerator cfg (rng h0)) as [[qs|e] g] eqn:Hgen; [|done].
  injection Hstart as <-.
  apply sessionGenerator_length in Hgen as [Hpos Hlen].
  set (h1 := mkHook g (mkState qs 0 answering None None false [])
                (log h0 ++ play (qs !! 0%nat))) in *.
  assert (Hinit : runInvariant qs 0 [] (state h1)).
  { split; [done|]. left. simpl. done. }
  destruct (calls_invariant qs cs h1 0%nat [] Hinit Hadm)
    as (h2 & new & Hrun & Hlog & Hqs & Hinv).
  exists h2, new. split; [done|]. split; [done|].
  simpl in Hinv.
  destruct Hinv as [(Hph & _ & _ & Hnew)|(Hph & _ & Htot & p & Hp & _ & Hres & Hpt)].
  - split; [done|]. intros Hc. done.
  - split; [intros Hn; done|]. intros _.
    exists p. split; [done|]. split; [done|]. split; [congruence|].
    rewrite Hpt, Htot. done.
Qed.

Lemma completion_payload_once_witness :
  let h1 := (startSession sampleConfig sampleHook).2 in
  let cs := [SubmitAnswer (Some "perfect_fifth"); SubmitAnswer (Some "root");
             SubmitAnswer (Some "root")] in
  ∃ h2 new,
    calls cs h1 = (Ok tt, h2)
    ∧ log h2 = (log h1 ++ new)%list
    ∧ phase (state h2) = complete
    ∧ ∃ p, payloads new = [p]
           ∧ Payload.total p = length (Payload.results p)
           ∧ (inject_Z (Z.of_nat (Payload.total p + advances cs))
              == sessionLength sampleConfig)%Q.
Proof.
  intros h1 cs.
  destruct (completion_payload_once sampleConfig sampleHook h1 cs)
    as (h2 & new & Hrun & Hlog & _ & Hdone).
  - reflexivity.
  - repeat (split; [discriminate|]). exact I.
  - assert (Hph : phase (state h2) = complete).
    { assert (Hh2 : h2 = (calls cs h1).2) by (by rewrite Hrun).
      rewrite Hh2. reflexivity. }
    destruct (Hdone Hph) as (p & Hp & _ & Htot & Hlen).
    exists h2, new. split; [exact Hrun|]. split; [exact Hlog|]. split; [exact Hph|].
    exists p. split; [exact Hp|]. split; [exact Htot | exact Hlen].
Defined.

(** C1 as stated fails: a run can end without a payload, an advance can
    pass over the only question and complete the run with a payload
    whose total is 0 for a session of length 1, and a further advance
    sends a second payload. *)
Lemma completion_payload_counterexample :
  let h1 := (startSession sampleConfig sampleHook).2 in
  startSession sampleConfig sampleHook = (Ok tt, h1)
  ∧ (sessionLength sampleConfig == 1)%Q
  ∧ payloads (log (calls [] h1).2) = []
  ∧ (∃ p, payloads (log (calls [AdvanceToNext] h1).2) = [p]
          ∧ Payload.total p = 0%nat ∧ Payload.results p = [])
  ∧ length (payloads (log (calls [AdvanceToNext; AdvanceToNext] h1).2)) = 2%nat.
Proof.
  intros h1. split; [reflexivity|]. split; [reflexivity|]. split; [reflexivity|].
  split; [|reflexivity].
  eexists. split; [reflexivity|]. split; reflexivity.
Qed.

End Session.

(** * Further properties of the code *)

(** ** Frequencies of intervals and keys *)

Section MoreFrequencies.

Import NoteUtils.

Lemma Rpower_two_lt (x y : R) : (x < y)%R → (Rpower 2 x < Rpower 2 y)%R.
Proof. intros Hxy. apply Rpower_lt; [lra | done]. Qed.

Lemma Rpower_two_pos (x : R) : (0 < Rpower 2 x)%R.
Proof. unfold Rpower. apply exp_pos. Qed.





End MoreFrequencies.

Section KeyNames.

Import NoteUtils.

Lemma stripOctave4_append (k : string) : stripOctave4 (k ++ "4") = Some k.
Proof.
  induction k as [|a k IH]; [reflexivity|].
  change (String a k ++ "4")%string with (String a (k ++ "4")).
  assert (Hne : ∃ b rest, (k ++ "4")%string = String b rest)
    by (destruct k; simpl; eauto).
  destruct Hne as (b & rest & Hk). rewrite Hk in *.
  change (stripOctave4 (String a (String b rest)))
    with (String a <$> stripOctave4 (String b rest)).
  by rewrite IH.
Qed.

(** The keys the table knows in octave 4 are the twelve note names. *)
Lemma knownKey_names (k : string) : knownKey k ↔ k ∈ NOTE_NAMES.
Proof.
  unfold knownKey. split.
  - intros Hk.
    apply (list_elem_of_fmap_2 stripOctave4) in Hk.
    rewrite stripOctave4_append in Hk. vm_compute in Hk.
    unfold NOTE_NAMES.
    repeat (apply elem_of_cons in Hk as [Hk|Hk];
            [first [discriminate | injection Hk as ->; compute_done]|]).
    by apply elem_of_nil in Hk.
  - unfold NOTE_NAMES. intros Hk.
    repeat (apply elem_of_cons in Hk as [->|Hk]; [compute_done|]).
    by apply elem_of_nil in Hk.
Qed.

Lemma hzOfOffset_A4 : hzOfOffset 0 = 440%R.
Proof.
  unfold hzOfOffset. replace (0 / 12)%R with 0%R by lra.
  rewrite Rpower_O by lra. lra.
Qed.

(** X3: The root frequency exists exactly for the twelve note names, as the
    pitch of that name in octave 4, between C4 (nine semitones below
    A4) and B4 (two above); any other name, an undefined one included,
    is refused with that name; A is 440 Hz. *)
Theorem getRootFrequency_domain (keyName : option string) :
  (∀ k, keyName = Some k → k ∈ NOTE_NAMES →
     ∃ n, -9 ≤ n ≤ 2 ∧ getRootFrequency keyName = Ok (hzOfOffset n))
  ∧ ((∀ k, keyName = Some k → k ∉ NOTE_NAMES) →
       getRootFrequency keyName = Throw (UnknownKey keyName))
  ∧ getRootFrequency (Some "A") = Ok 440%R.
Proof.
  split; [|split].
  - intros k -> Hk. unfold NOTE_NAMES in Hk.
    repeat (apply elem_of_cons in Hk as [->|Hk];
            [eexists; split; [|reflexivity]; simpl; lia|]).
    by apply elem_of_nil in Hk.
  - intros Hno.
    destruct (getRootFrequency keyName) as [freq|e] eqn:Hroot.
    + exfalso. destruct keyName as [k|];
        [|by rewrite getRootFrequency_undefined in Hroot].
      apply (Hno k eq_refl), knownKey_names.
      unfold getRootFrequency, NOTE_FREQUENCIES in Hroot.
      rewrite table_lookup in Hroot.
      destruct (last _) as [e|] eqn:Hlast; [|done].
      apply last_Some_elem_of, list_elem_of_filter in Hlast as [He Hin].
      unfold knownKey. apply list_elem_of_fmap. by exists e.
    + unfold getRootFrequency in Hroot |- *.
      by destruct (NOTE_FREQUENCIES !! keyWithOctave keyName).
  - change (getRootFrequency (Some "A")) with (Ok (hzOfOffset 0)).
    by rewrite hzOfOffset_A4.
Qed.

Lemma getRootFrequency_domain_witness :
  (∃ n, -9 ≤ n ≤ 2 ∧ getRootFrequency (Some "F#") = Ok (hzOfOffset n))
  ∧ getRootFrequency (Some "H") = Throw (UnknownKey (Some "H")).
Proof.
  split.
  - apply (proj1 (getRootFrequency_domain (Some "F#")) "F#" eq_refl).
    compute_done.
  - apply (proj1 (proj2 (getRootFrequency_domain (Some "H")))).
    intros k [= <-]. compute_done.
Defined.

End KeyNames.

(** ** The interval catalog *)

Section Catalog.

Import Intervals.

Lemma filter_sublist_mono {A} (P Q : A → bool) (l : list A) :
  (∀ x, x ∈ l → P x = true → Q x = true) →
  List.filter P l `sublist_of` List.filter Q l.
Proof.
  induction l as [|x l IH]; intros HPQ; simpl; [constructor|].
  assert (IH' : List.filter P l `sublist_of` List.filter Q l).
  { apply IH. intros y Hy. apply HPQ. by right. }
  destruct (P x) eqn:HP.
  - rewrite (HPQ x (list_elem_of_here _ _) HP). by constructor.
  - destruct (Q x); [by constructor | done].
Qed.

Lemma filter_all {A} (P : A → bool) (l : list A) :
  (∀ x, x ∈ l → P x = true) → List.filter P l = l.
Proof.
  induction l as [|x l IH]; intros HP; simpl; [done|].
  rewrite (HP x (list_elem_of_here _ _)), IH; [done|].
  intros y Hy. apply HP. by right.
Qed.

Lemma filter_none {A} (P : A → bool) (l : list A) :
  (∀ x, x ∈ l → P x = false) → List.filter P l = [].
Proof.
  induction l as [|x l IH]; intros HP; simpl; [done|].
  rewrite (HP x (list_elem_of_here _ _)), IH; [done|].
  intros y Hy. apply HP. by right.
Qed.

Lemma catalog_phase_range (i : Interval) : i ∈ INTERVALS → 1 ≤ phase i ≤ 10.
Proof.
  revert i. apply Forall_forall. unfold INTERVALS.
  repeat (constructor; [simpl; lia|]). constructor.
Qed.

Lemma fmap_NoDup_inj {A B} (f : A → B) (l : list A) (x y : A) :
  NoDup (f <$> l) → x ∈ l → y ∈ l → f x = f y → x = y.
Proof.
  intros Hnd Hx Hy Hf.
  apply list_elem_of_lookup in Hx as [i Hi].
  apply list_elem_of_lookup in Hy as [j Hj].
  assert (Hij : i = j).
  { apply (NoDup_lookup (f <$> l) i j (f x)); [done| |].
    - by rewrite list_lookup_fmap, Hi.
    - by rewrite list_lookup_fmap, Hj, Hf. }
  subst j. congruence.
Qed.

(** X4: Unlocking only adds: the intervals of a phase are, in catalog order,
    among those of every later phase; below phase 1 there is none, from
    phase 10 on there are all twelve. *)
Theorem getIntervalsForPhase_grows (p p' : Z) :
  (p ≤ p' → getIntervalsForPhase p `sublist_of` getIntervalsForPhase p')
  ∧ getIntervalsForPhase p `sublist_of` INTERVALS
  ∧ (p < 1 → getIntervalsForPhase p = [])
  ∧ (10 ≤ p → getIntervalsForPhase p = INTERVALS ∧ length (getIntervalsForPhase p) = 12%nat).
Proof.
  unfold getIntervalsForPhase. split; [|split; [|split]].
  - intros Hle. apply filter_sublist_mono.
    intros i _ Hi. apply Z.leb_le in Hi. apply Z.leb_le. lia.
  - induction INTERVALS as [|i l IH]; simpl; [constructor|].
    destruct (phase i <=? p); by constructor.
  - intros Hp. apply filter_none. intros i Hi.
    apply catalog_phase_range in Hi. apply Z.leb_gt. lia.
  - intros Hp.
    assert (Hall : List.filter (λ interval, phase interval <=? p) INTERVALS = INTERVALS).
    { apply filter_all. intros i Hi.
      apply catalog_phase_range in Hi. apply Z.leb_le. lia. }
    by rewrite Hall.
Qed.

Lemma getIntervalsForPhase_grows_witness :
  getIntervalsForPhase 2 `sublist_of` getIntervalsForPhase 5
  ∧ getIntervalsForPhase 0 = [].
Proof.
  split.
  - apply (proj1 (getIntervalsForPhase_grows 2 5)). lia.
  - apply (proj1 (proj2 (proj2 (getIntervalsForPhase_grows 0 0)))). lia.
Defined.

(** X5: Looking an id up is exact and unambiguous: what is found carries
    the id asked for, every catalog entry is found under its own id,
    nothing is found exactly for an id outside the catalog (or an
    undefined one), and no two entries share a semitone offset. *)
Theorem getIntervalById_exact :
  (∀ id i, getIntervalById (Some id) = Some i → i ∈ INTERVALS ∧ Intervals.id i = id)
  ∧ (∀ i, i ∈ INTERVALS → getIntervalById (Some (Intervals.id i)) = Some i)
  ∧ (∀ id, getIntervalById (Some id) = None ↔ ¬ inCatalog id)
  ∧ getIntervalById None = None
  ∧ (∀ i j, i ∈ INTERVALS → j ∈ INTERVALS → semitones i = semitones j → i = j).
Proof.
  split; [|split; [|split; [|split]]].
  - apply getIntervalById_Some.
  - apply getIntervalById_catalog.
  - intros id. rewrite inCatalog_lookup. split.
    + intros Hnone [i Hi]. congruence.
    + intros Hno. destruct (getIntervalById (Some id)) as [i|] eqn:Hi; [|done].
      exfalso. apply Hno. by exists i.
  - done.
  - intros i j Hi Hj. apply (fmap_NoDup_inj semitones INTERVALS); [|done|done].
    compute_done.
Qed.

Lemma getIntervalById_exact_witness :
  ∃ i, getIntervalById (Some "tritone") = Some i
       ∧ i ∈ INTERVALS ∧ Intervals.id i = "tritone".
Proof.
  eexists. split; [reflexivity|].
  apply (proj1 getIntervalById_exact "tritone"). reflexivity.
Defined.

End Catalog.

(** ** Weights, pool and draw *)

Section MoreWeighting.

Import AdaptiveWeighting.

Lemma getWeight_bounds (accuracy : option Q) :
  (getWeight accuracy = 1 ∨ getWeight accuracy = 3 ∨ getWeight accuracy = 5)%nat
  ∧ (1 ≤ getWeight accuracy)%nat.
Proof.
  destruct accuracy as [q|]; unfold getWeight; [|compute; auto with lia].
  destruct (Qltb q 0.5), (Qltb q 0.8); compute; auto with lia.
Qed.

(** X6: Better accuracy never weighs more, and every weight is at least 1
    and at most 5: a mastered interval is drawn less often but is never
    left out. *)
Theorem getWeight_antitone (a b : Q) (accuracy : option Q) :
  ((a <= b)%Q → (getWeight (Some b) ≤ getWeight (Some a))%nat)
  ∧ (1 ≤ getWeight accuracy ≤ 5)%nat.
Proof.
  split.
  - intros Hab. unfold getWeight.
    destruct (Qltb a 0.5) eqn:Ha5, (Qltb b 0.5) eqn:Hb5,
             (Qltb a 0.8) eqn:Ha8, (Qltb b 0.8) eqn:Hb8;
      unfold WEIGHT_STRUGGLING, WEIGHT_NEEDS_WORK, WEIGHT_STRONG; try lia;
      exfalso;
      repeat match goal with
             | H : Qltb _ _ = true |- _ => apply Qltb_lt in H
             | H : Qltb _ _ = false |- _ => apply Qltb_ge in H
             end;
      Lqa.lra.
  - destruct accuracy as [q|]; unfold getWeight; [|compute; lia].
    destruct (Qltb q 0.5), (Qltb q 0.8); compute; lia.
Qed.

Lemma getWeight_antitone_witness :
  (getWeight (Some 0.9%Q) ≤ getWeight (Some 0.6%Q))%nat.
Proof.
  apply (proj1 (getWeight_antitone 0.6 0.9 None)).
  unfold Qle. simpl. lia.
Defined.

Lemma occurrences_app (id : string) (l1 l2 : list string) :
  occurrences id (l1 ++ l2) = (occurrences id l1 + occurrences id l2)%nat.
Proof. unfold occurrences. by rewrite filter_app, length_app. Qed.

Lemma occurrences_replicate (id x : string) (n : nat) :
  occurrences id (replicate n x) = if decide (x = id) then n else 0%nat.
Proof.
  unfold occurrences. induction n as [|n IH]; simpl.
  - by destruct (decide (x = id)).
  - rewrite filter_cons. destruct (decide (x = id)); simpl; by rewrite IH.
Qed.

(** X7: Each active id is in the pool as often as its weight says, once
    for each time it is listed, so a draw that is uniform over the pool
    favours ids by their weights; the pool is empty only when there is
    no active id. *)
Theorem buildWeightedPool_multiplicity
    (activeIds : list string) (stats : option (list IntervalStat)) (id : string) :
  occurrences id (buildWeightedPool activeIds stats)
    = (getWeight (accuracyInStats stats id) * occurrences id activeIds)%nat
  ∧ (buildWeightedPool activeIds stats = [] ↔ activeIds = []).
Proof.
  rewrite buildWeightedPool_flat. split.
  - induction activeIds as [|x ids IH]; [unfold occurrences; simpl; lia|].
    rewrite bind_cons, occurrences_app, IH, occurrences_replicate.
    change (x :: ids) with ([x] ++ ids)%list. rewrite occurrences_app.
    change [x] with (replicate 1 x). rewrite occurrences_replicate.
    destruct (decide (x = id)) as [->|Hne]; simpl; lia.
  - split; [|by intros ->].
    destruct activeIds as [|x ids]; [done|]. rewrite bind_cons.
    pose proof (proj2 (getWeight_bounds (accuracyInStats stats x))) as Hw.
    destruct (getWeight (accuracyInStats stats x)); [lia | done].
Qed.




End MoreWeighting.

(** ** Active intervals and unlocking *)

Section MoreProgression.

Import PhaseProgression.

Lemma customFiltered_valid (phase : Z) (ids : list string) (i : Intervals.Interval) :
  i ∈ customFiltered phase ids →
  i ∈ Intervals.INTERVALS ∧ Intervals.phase i ≤ phase ∧ Intervals.id i ∈ ids.
Proof.
  unfold customFiltered. intros Hi.
  apply list_elem_of_omap in Hi as (id & Hid & Hv).
  unfold validForPhase in Hv.
  destruct (Intervals.getIntervalById (Some id)) as [j|] eqn:Hget; [|done].
  case_bool_decide as Hle; [|done]. injection Hv as ->.
  apply getIntervalById_Some in Hget as [Hin <-]. done.
Qed.

Lemma getActiveIntervalsForPhase_unfold (phase : Z) (customIds : option (list string)) :
  getActiveIntervalsForPhase phase customIds
  = match customIds with
    | Some ids =>
        match customFiltered phase ids with
        | [] => Intervals.getIntervalsForPhase phase
        | filtered => filtered
        end
    | None => Intervals.getIntervalsForPhase phase
    end.
Proof.
  unfold getActiveIntervalsForPhase.
  destruct customIds as [[|id ids]|]; [done| |done].
  change (0 <? length (id :: ids))%nat with true. cbv iota.
  rewrite custom_pipeline_filtered.
  by destruct (customFiltered phase (id :: ids)).
Qed.

(** X9: Whatever ids the user selected, a session is only ever offered
    intervals of the catalog that are unlocked at the phase; there is
    something to offer exactly from phase 1 on; and when at least one
    selected id is valid, only selected ids are offered. *)
Theorem getActiveIntervalsForPhase_unlocked (phase : Z) (customIds : option (list string)) :
  Forall (λ i, i ∈ Intervals.INTERVALS ∧ Intervals.phase i ≤ phase)
    (getActiveIntervalsForPhase phase customIds)
  ∧ (getActiveIntervalsForPhase phase customIds = [] ↔ phase < 1)
  ∧ (∀ ids, customIds = Some ids → customFiltered phase ids ≠ [] →
       Forall (λ i, Intervals.id i ∈ ids) (getActiveIntervalsForPhase phase customIds)).
Proof.
  rewrite getActiveIntervalsForPhase_unfold.
  assert (Hphase : Forall (λ i, i ∈ Intervals.INTERVALS ∧ Intervals.phase i ≤ phase)
                     (Intervals.getIntervalsForPhase phase)).
  { apply Forall_forall. intros i Hi. by apply getIntervalsForPhase_members. }
  assert (Hempty : Intervals.getIntervalsForPhase phase = [] ↔ phase < 1).
  { split.
    - intros Hnil. destruct (Z.lt_ge_cases phase 1) as [|Hge]; [done|].
      exfalso. apply (elem_of_nil (Intervals.mkInterval "root" "Root" 0 1 "Root (Unison)")).
      rewrite <- Hnil. apply getIntervalsForPhase_members.
      split; [apply list_elem_of_here | simpl; lia].
    - intros Hlt. unfold Intervals.getIntervalsForPhase.
      apply filter_none. intros i Hi.
      apply catalog_phase_range in Hi. apply Z.leb_gt. lia. }
  destruct customIds as [ids|]; [|split; [done|split; [done|done]]].
  destruct (customFiltered phase ids) as [|i filtered] eqn:Hf.
  - split; [done|]. split; [done|]. intros ids' [= <-] Hne. done.
  - assert (Hall : ∀ j, j ∈ i :: filtered →
              j ∈ Intervals.INTERVALS ∧ Intervals.phase j ≤ phase ∧ Intervals.id j ∈ ids).
    { intros j Hj. apply customFiltered_valid. by rewrite Hf. }
    split; [|split].
    + apply Forall_forall. intros j Hj. by destruct (Hall j Hj) as (? & ? & _).
    + split; [done|]. intros Hlt.
      destruct (Hall i (list_elem_of_here _ _)) as (Hin & Hle & _).
      apply catalog_phase_range in Hin. lia.
    + intros ids' [= <-] _. apply Forall_forall.
      intros j Hj. by destruct (Hall j Hj) as (_ & _ & ?).
Qed.

Lemma getActiveIntervalsForPhase_unlocked_witness :
  Forall (λ i, Intervals.id i ∈ ["tritone"; "minor_seventh"])
    (getActiveIntervalsForPhase 2 (Some ["tritone"; "minor_seventh"])).
Proof.
  apply (proj2 (proj2 (getActiveIntervalsForPhase_unlocked 2
                         (Some ["tritone"; "minor_seventh"])))); [reflexivity|].
  discriminate.
Defined.

Lemma forallb_Permutation {A} (f : A → bool) (l l' : list A) :
  l ≡ₚ l' → forallb f l = forallb f l'.
Proof.
  intros Hp. induction Hp as [|x l l' Hp IH|x y l|l l' l'' _ IH1 _ IH2]; simpl.
  - done.
  - by rewrite IH.
  - destruct (f x), (f y); done.
  - congruence.
Qed.

(** X10: An unlock is always the step to the next phase and never leads
    past phase 10; it needs a list of at least three sessions (a
    missing list unlocks nothing); and the order of the three most
    recent sessions among themselves makes no difference. *)
Theorem checkPhaseUnlock_bounded
    (recentSessions : option (list (option Session))) (currentPhase : Z) :
  checkPhaseUnlock None currentPhase = None
  ∧ (∀ next, checkPhaseUnlock recentSessions currentPhase = Some next →
       next = currentPhase + 1 ∧ next ≤ 10
       ∧ ∃ sessions, recentSessions = Some sessions ∧ (3 ≤ length sessions)%nat)
  ∧ (∀ l l', take 3 l ≡ₚ take 3 l' →
       (3 ≤ length l)%nat → (3 ≤ length l')%nat →
       checkPhaseUnlock (Some l) currentPhase = checkPhaseUnlock (Some l') currentPhase).
Proof.
  unfold checkPhaseUnlock, MAX_PHASE, PHASE_MASTERY_SESSIONS.
  split; [by destruct (10 <=? currentPhase)|]. split.
  - intros next.
    destruct (Z.leb_spec 10 currentPhase) as [|Hlt]; [done|].
    destruct recentSessions as [sessions|]; [|done].
    destruct (Nat.ltb_spec (length sessions) 3) as [|Hlen]; [done|].
    destruct (forallb _ _); simpl; [|done].
    intros [= <-]. split; [done|]. split; [lia|]. by exists sessions.
  - intros l l' Hperm Hl Hl'.
    destruct (10 <=? currentPhase); [done|].
    rewrite (proj2 (Nat.ltb_ge _ _) Hl), (proj2 (Nat.ltb_ge _ _) Hl').
    by rewrite (forallb_Permutation _ _ _ Hperm).
Qed.

Lemma checkPhaseUnlock_bounded_witness :
  let sessions := Some [Some (mkSession 9 10); Some (mkSession 4 5);
                        Some (mkSession 8 8)] in
  checkPhaseUnlock sessions 9 = Some 10 ∧ 10 ≤ 10.
Proof.
  intros sessions.
  destruct (proj1 (proj2 (checkPhaseUnlock_bounded sessions 9)) 10) as (_ & Hle & _);
    [reflexivity|].
  split; [reflexivity | exact Hle].
Defined.

(** X11: The accuracy of a session is its score over its total, 0 when the
    session is missing or its total is 0, and lies between 0 and 1 when
    the score does not exceed the total; for a positive total the
    mastery test is the integer comparison 5 * score >= 4 * total. *)
Theorem sessionAccuracy_fraction (s : Session) :
  sessionAccuracy None = 0%Q
  ∧ (total s = 0 → sessionAccuracy (Some s) = 0%Q)
  ∧ (0 < total s →
       (sessionAccuracy (Some s) == inject_Z (score s) / inject_Z (total s))%Q
       ∧ (0 ≤ score s ≤ total s →
            (0 <= sessionAccuracy (Some s))%Q ∧ (sessionAccuracy (Some s) <= 1)%Q)
       ∧ (Qle_bool PHASE_MASTERY_THRESHOLD (sessionAccuracy (Some s)) = true
          ↔ 4 * total s ≤ 5 * score s)).
Proof.
  split; [done|]. split.
  - intros H0. unfold sessionAccuracy. by rewrite H0.
  - intros Hpos. unfold sessionAccuracy.
    rewrite (proj2 (Z.eqb_neq _ _)) by lia.
    assert (HposQ : (0 < inject_Z (total s))%Q)
      by (unfold Qlt; simpl; lia).
    split; [reflexivity|]. split.
    + intros [Hs0 Hst]. split.
      * apply Qle_shift_div_l; [done|]. unfold Qle. simpl. lia.
      * apply Qle_shift_div_r; [done|]. unfold Qle. simpl. lia.
    + rewrite Qle_bool_iff. unfold PHASE_MASTERY_THRESHOLD. split.
      * intros Hle.
        assert (H : (0.8 * inject_Z (total s) <= inject_Z (score s))%Q).
        { apply (Qmult_le_compat_r _ _ (inject_Z (total s))) in Hle;
            [|by apply Qlt_le_weak].
          eapply Qle_trans; [exact Hle|].
          unfold Qdiv. rewrite <- Qmult_assoc, (Qmult_comm (/ _)), Qmult_inv_r.
          - rewrite Qmult_1_r. apply Qle_refl.
          - intros Heq. rewrite Heq in HposQ. by apply Qlt_irrefl in HposQ. }
        unfold Qle in H. simpl in H. lia.
      * intros Hle. apply Qle_shift_div_l; [done|]. unfold Qle. simpl. lia.
Qed.

Lemma sessionAccuracy_fraction_witness :
  Qle_bool PHASE_MASTERY_THRESHOLD (sessionAccuracy (Some (mkSession 4 5))) = true.
Proof.
  apply (proj2 (proj2 (sessionAccuracy_fraction (mkSession 4 5)))); simpl; lia.
Defined.

End MoreProgression.

(** ** Streaks over time *)

Section MoreStreak.

Import StreakUtils.

(** The run of days the streak counts is told by its ends alone. *)
Lemma calculateStreak_unique (now : Z) (dates : list Z) (m : Z) (k : nat) :
  mostRecent (days dates) m →
  m = toDay now ∨ m = toDay now - ONE_DAY_MS →
  (∀ i : nat, (i < k)%nat → m - Z.of_nat i * ONE_DAY_MS ∈ days dates) →
  m - Z.of_nat k * ONE_DAY_MS ∉ days dates →
  calculateStreak now dates = k.
Proof.
  intros Hm Hrec Hin Hout.
  destruct (calculateStreak_run now dates m Hm Hrec) as (_ & Hin' & Hout').
  destruct (Nat.lt_trichotomy (calculateStreak now dates) k) as [Hlt|[Heq|Hgt]];
    [|done|].
  - exfalso. apply Hout', Hin, Hlt.
  - exfalso. apply Hout, Hin', Hgt.
Qed.

Lemma toDay_next_day (t : Z) : toDay (t + ONE_DAY_MS) = toDay t + ONE_DAY_MS.
Proof.
  unfold toDay. replace (t + ONE_DAY_MS) with (t + 1 * ONE_DAY_MS) by lia.
  rewrite Z.div_add by (pose proof ONE_DAY_MS_pos; lia). lia.
Qed.

Lemma mostRecent_unique (ds : list Z) (m m' : Z) :
  mostRecent ds m → mostRecent ds m' → m = m'.
Proof.
  intros [Hin Hmax] [Hin' Hmax'].
  specialize (Hmax m' Hin'). specialize (Hmax' m Hin). lia.
Qed.

(** X12: Practising today carries a streak on: after a streak that ran up to
    yesterday, a session today makes it one day longer; a further
    session on a day that already counts changes nothing; a first
    session ever gives a streak of 1. *)
Theorem calculateStreak_extends (now t : Z) (dates : list Z) :
  toDay t = toDay now →
  (mostRecent (days dates) (toDay now - ONE_DAY_MS) →
     calculateStreak now (t :: dates) = S (calculateStreak now dates))
  ∧ (toDay t ∈ days dates →
     calculateStreak now (t :: dates) = calculateStreak now dates)
  ∧ calculateStreak now [t] = 1%nat.
Proof.
  intros Ht. pose proof ONE_DAY_MS_pos as Hpos.
  assert (Hdays : ∀ d, d ∈ days (t :: dates) ↔ d = toDay now ∨ d ∈ days dates).
  { intros d. unfold days. rewrite fmap_cons, elem_of_cons, Ht. done. }
  split; [|split].
  - intros Hyest.
    destruct (calculateStreak_run now dates _ Hyest (or_intror eq_refl))
      as (Hpos' & Hin & Hout).
    apply (calculateStreak_unique now (t :: dates) (toDay now)).
    + split; [apply Hdays; by left|].
      intros d [->|Hd]%Hdays; [lia|].
      destruct Hyest as [_ Hmax]. specialize (Hmax d Hd). lia.
    + by left.
    + intros [|i] Hi.
      * apply Hdays. left. simpl. lia.
      * apply Hdays. right.
        replace (toDay now - Z.of_nat (S i) * ONE_DAY_MS)
          with (toDay now - ONE_DAY_MS - Z.of_nat i * ONE_DAY_MS) by lia.
        apply Hin. lia.
    + replace (toDay now - Z.of_nat (S (calculateStreak now dates)) * ONE_DAY_MS)
        with (toDay now - ONE_DAY_MS
              - Z.of_nat (calculateStreak now dates) * ONE_DAY_MS) by lia.
      intros [Heq|Hd]%Hdays; [nia | done].
  - intros Hin. apply calculateStreak_days_only.
    intros d. rewrite Hdays. split; [|by right].
    intros [->|Hd]; [by rewrite <- Ht | done].
  - apply (calculateStreak_unique now [t] (toDay now)).
    + unfold days. simpl. rewrite Ht. split; [apply list_elem_of_here|].
      intros d ->%list_elem_of_singleton. lia.
    + by left.
    + intros i Hi. replace i with 0%nat by lia.
      unfold days. simpl. rewrite Ht, Z.sub_0_r. apply list_elem_of_here.
    + unfold days. simpl. rewrite Ht. intros Hd%list_elem_of_singleton. lia.
Qed.

Lemma calculateStreak_extends_witness :
  calculateStreak 1700000000000 [1699999000000; 1699913600000; 1699830000000]
  = S (calculateStreak 1700000000000 [1699913600000; 1699830000000]).
Proof.
  apply (proj1 (calculateStreak_extends 1700000000000 1699999000000
                  [1699913600000; 1699830000000] eq_refl)).
  split; [unfold days; compute_done|].
  intros d Hd. vm_compute in Hd.
  repeat (apply elem_of_cons in Hd as [->|Hd]; [by vm_compute|]).
  by apply elem_of_nil in Hd.
Defined.

(** X13: A streak that runs up to today still stands tomorrow and is gone
    the day after; a session dated after today (a clock set ahead)
    leaves no streak; and a streak is never longer than the list of
    dates. *)
Theorem calculateStreak_over_time (now : Z) (dates : list Z) :
  (mostRecent (days dates) (toDay now) →
     calculateStreak (now + ONE_DAY_MS) dates = calculateStreak now dates
     ∧ calculateStreak (now + 2 * ONE_DAY_MS) dates = 0%nat)
  ∧ ((∃ d, d ∈ days dates ∧ toDay now < d) → calculateStreak now dates = 0%nat)
  ∧ (calculateStreak now dates ≤ length dates)%nat.
Proof.
  pose proof ONE_DAY_MS_pos as Hpos. split; [|split].
  - intros Hm. split.
    + destruct (calculateStreak_run now dates _ Hm (or_introl eq_refl))
        as (_ & Hin & Hout).
      apply (calculateStreak_unique (now + ONE_DAY_MS) dates (toDay now)); try done.
      right. rewrite toDay_next_day. lia.
    + apply (calculateStreak_stale _ dates (toDay now) Hm).
      * replace (now + 2 * ONE_DAY_MS) with (now + ONE_DAY_MS + ONE_DAY_MS) by lia.
        rewrite !toDay_next_day. lia.
      * replace (now + 2 * ONE_DAY_MS) with (now + ONE_DAY_MS + ONE_DAY_MS) by lia.
        rewrite !toDay_next_day. lia.
  - intros (d & Hd & Hlt).
    destruct (mostRecent_exists (days dates)) as [m Hm];
      [by intros Hnil; rewrite Hnil in Hd; apply elem_of_nil in Hd|].
    assert (d ≤ m) by (by apply Hm).
    apply (calculateStreak_stale now dates m Hm); lia.
  - destruct (decide (dates = [])) as [->|Hne]; [done|].
    destruct (mostRecent_exists (days dates)) as [m Hm]; [by destruct dates|].
    destruct (decide (m = toDay now ∨ m = toDay now - ONE_DAY_MS)) as [Hrec|Hstale].
    + destruct (calculateStreak_run now dates m Hm Hrec) as (_ & Hin & _).
      set (k := calculateStreak now dates) in *.
      set (run := (λ i : nat, m - Z.of_nat i * ONE_DAY_MS) <$> seq 0 k).
      assert (Hnd : NoDup run).
      { apply NoDup_fmap_2_strong; [|apply NoDup_seq].
        intros i j _ _ Hij. nia. }
      assert (Hsub : run ⊆+ days dates).
      { apply NoDup_submseteq; [done|]. intros d Hd.
        apply list_elem_of_fmap in Hd as (i & -> & Hi).
        apply elem_of_seq in Hi. apply Hin. lia. }
      apply submseteq_length in Hsub.
      unfold run, days in Hsub. rewrite !length_fmap, length_seq in Hsub. done.
    + rewrite (calculateStreak_stale now dates m Hm) by tauto. lia.
Qed.

Lemma calculateStreak_over_time_witness :
  let dates := [1699999000000; 1699913600000] in
  calculateStreak (1700000000000 + ONE_DAY_MS) dates = calculateStreak 1700000000000 dates
  ∧ calculateStreak (1700000000000 + 2 * ONE_DAY_MS) dates = 0%nat.
Proof.
  intros dates.
  apply (proj1 (calculateStreak_over_time 1700000000000 dates)).
  split; [unfold days; compute_done|].
  intros d Hd. vm_compute in Hd.
  repeat (apply elem_of_cons in Hd as [->|Hd]; [by vm_compute|]).
  by apply elem_of_nil in Hd.
Defined.

End MoreStreak.

(** ** Both generators *)

Section MoreGenerator.

Import QuestionGenerator.

Lemma generateAdaptiveSession_unfold (ids keys : list string) (count : Q)
    (stats : option (list AdaptiveWeighting.IntervalStat)) :
  generateAdaptiveSession ids keys count stats
  = if invalidCount count then throw (InvalidCount count)
    else Array_from (Z.to_nat (Qfloor count))
           (adaptiveQuestion
              (AdaptiveWeighting.buildWeightedPool ids (Some (default [] stats))) keys).
Proof. reflexivity. Qed.

Lemma pool_members (ids : list string)
    (stats : option (list AdaptiveWeighting.IntervalStat)) (i : string) :
  i ∈ AdaptiveWeighting.buildWeightedPool ids stats → i ∈ ids.
Proof.
  rewrite buildWeightedPool_flat. intros Hi.
  apply list_elem_of_bind in Hi as (id & Hi & Hid).
  by apply elem_of_replicate in Hi as [-> _].
Qed.

Lemma pool_nonempty (ids : list string)
    (stats : option (list AdaptiveWeighting.IntervalStat)) :
  ids ≠ [] → AdaptiveWeighting.buildWeightedPool ids stats ≠ [].
Proof.
  rewrite buildWeightedPool_flat. destruct ids as [|x ids]; [done|]. intros _.
  rewrite bind_cons.
  pose proof (proj2 (getWeight_bounds (accuracyInStats stats x))) as Hw.
  destruct (AdaptiveWeighting.getWeight (accuracyInStats stats x)); [lia | done].
Qed.

(** What a question that was resolved looks like. *)
Lemma resolveQuestion_consistent (key id : option string) (g g' : Rng) (q : Question) :
  resolveQuestion key id g = (Ok q, g') →
  g' = g ∧ QuestionGenerator.key q = key ∧ intervalId q = id ∧ consistentQuestion q.
Proof.
  unfold resolveQuestion.
  destruct (Intervals.getIntervalById id) as [interval|] eqn:Hentry; [|done].
  unfold bind, lift, ret.
  destruct (NoteUtils.getRootFrequency key) as [freq|] eqn:Hroot; [|done].
  destruct (NoteUtils.getIntervalFrequency freq _) as [hz|] eqn:Hhz; [|done].
  intros [= <- <-]. simpl. repeat (split; [done|]).
  exists interval. simpl. done.
Qed.

Lemma generateQuestion_consistent (ids keys : list string) (g g' : Rng) (q : Question) :
  generateQuestion ids keys g = (Ok q, g') →
  consistentQuestion q ∧ cursor g' = (cursor g + 2)%nat.
Proof.
  unfold generateQuestion.
  destruct (decide (keys = [])) as [->|Hk]; [done|].
  unfold bind at 1. rewrite (randomPick_draw keys g Hk).
  destruct (decide (ids = [])) as [->|Hi]; [done|].
  unfold bind at 1. rewrite (randomPick_draw ids _ Hi).
  intros Hres. apply resolveQuestion_consistent in Hres as (-> & _ & _ & Hq).
  split; [done|]. simpl. lia.
Qed.

Lemma adaptiveQuestion_ok (pool keys : list string) (g g' : Rng) (q : Question) :
  adaptiveQuestion pool keys g = (Ok q, g') →
  (∃ id, intervalId q = Some id ∧ id ∈ pool)
  ∧ (∃ k, QuestionGenerator.key q = Some k ∧ k ∈ keys)
  ∧ consistentQuestion q
  ∧ sameSource g g' ∧ cursor g' = (cursor g + 2)%nat.
Proof.
  unfold adaptiveQuestion.
  destruct (decide (pool = [])) as [->|Hp]; [done|].
  unfold bind at 1. rewrite (pickFromWeightedPool_draw pool g Hp).
  unfold bind at 1, Math_random at 1. cbn [rand cursor].
  intros Hres.
  pose proof Hres as Hok. apply resolveQuestion_ok in Hok
    as (_ & Hkey & Hid & [k Hk'] & [i Hi'] & _).
  apply resolveQuestion_consistent in Hres as (-> & _ & _ & Hq).
  rewrite Hk' in Hkey. rewrite Hi' in Hid.
  split; [|split; [|split; [done|split; [done | simpl; lia]]]].
  - exists i. split; [done|]. by eapply at_index_Some.
  - exists k. split; [done|]. by eapply at_index_Some.
Qed.

Lemma adaptiveQuestion_succeeds (pool keys : list string) (g : Rng) :
  pool ≠ [] → keys ≠ [] → Forall inCatalog pool → Forall knownKey keys →
  unitInterval g →
  ∃ q g', adaptiveQuestion pool keys g = (Ok q, g').
Proof.
  intros Hp Hk Hcat Hknown Hg. unfold adaptiveQuestion.
  unfold bind at 1. rewrite (pickFromWeightedPool_draw pool g Hp).
  destruct (drawn_index_defined pool g Hp Hg) as (i & -> & Hiin).
  unfold bind at 1, Math_random at 1. cbn [rand cursor].
  destruct (drawn_index_defined keys (mkRng (rand g) (S (cursor g))) Hk)
    as (k & Hidx & Hkin); [done|].
  simpl in Hidx. rewrite Hidx.
  rewrite Forall_forall in Hcat, Hknown.
  destruct (resolveQuestion_succeeds k i (mkRng (rand g) (S (S (cursor g))))
              (Hknown k Hkin) (Hcat i Hiin)) as [q Hq].
  by exists q, (mkRng (rand g) (S (S (cursor g)))).
Qed.

(** X14: The adaptive session has the count and the members of the uniform
    one: for catalog ids and known keys, both lists non-empty, and a
    positive integer count it returns exactly [count] questions, each
    with its id among the ids, its key among the keys and its interval
    not below its root; whatever the lists, a returned session has these
    properties; without an active id the pool is empty and the call
    fails on it; a count that is not a positive integer is refused
    before anything is drawn. *)
Theorem generateAdaptiveSession_count_and_members
    (ids keys : list string) (count : Q)
    (stats : option (list AdaptiveWeighting.IntervalStat)) (g : Rng) :
  (positiveInteger count → ids ≠ [] → keys ≠ [] →
   Forall inCatalog ids → Forall knownKey keys → unitInterval g →
     ∃ qs g', generateAdaptiveSession ids keys count stats g = (Ok qs, g')
              ∧ (inject_Z (Z.of_nat (length qs)) == count)%Q
              ∧ Forall (questionWithin ids keys) qs)
  ∧ (∀ qs g', generateAdaptiveSession ids keys count stats g = (Ok qs, g') →
       (inject_Z (Z.of_nat (length qs)) == count)%Q
       ∧ Forall (questionWithin ids keys) qs)
  ∧ (positiveInteger count → ids = [] →
       generateAdaptiveSession ids keys count stats g = (Throw EmptyPool, g))
  ∧ (¬ positiveInteger count →
       generateAdaptiveSession ids keys count stats g = (Throw (InvalidCount count), g)).
Proof.
  rewrite generateAdaptiveSession_unfold.
  set (pool := AdaptiveWeighting.buildWeightedPool ids (Some (default [] stats))).
  assert (Hpost : ∀ qs g',
            (if invalidCount count then throw (InvalidCount count)
             else Array_from (Z.to_nat (Qfloor count)) (adaptiveQuestion pool keys)) g
            = (Ok qs, g') →
            (inject_Z (Z.of_nat (length qs)) == count)%Q
            ∧ Forall (questionWithin ids keys) qs).
  { intros qs g'. destruct (invalidCount count) eqn:Hc; [done|].
    apply invalidCount_positiveInteger, positiveInteger_iterations in Hc as [_ Hn].
    intros Hrun.
    apply (Array_from_ok (questionWithin ids keys)) in Hrun as (Hlen & HF & _).
    - by rewrite Hlen.
    - intros g0 q g1 Hq.
      apply adaptiveQuestion_ok in Hq as ((i & Hi & Hin) & Hkey & Hcons & Hsame & _).
      split; [|done]. split; [|split; [done|]].
      + exists i. split; [done|]. by eapply pool_members.
      + destruct Hcons as (interval & Hentry & Hroot & Hhz).
        eapply getIntervalFrequency_ge; [|done]. by eapply getRootFrequency_pos. }
  split; [|split; [exact Hpost|split]].
  - intros Hc Hi Hk Hcat Hknown Hg.
    assert (Hrun : ∃ qs g',
              (if invalidCount count then throw (InvalidCount count)
               else Array_from (Z.to_nat (Qfloor count)) (adaptiveQuestion pool keys)) g
              = (Ok qs, g')).
    { apply invalidCount_positiveInteger in Hc as ->.
      apply Array_from_succeeds; [|done].
      intros g0 Hg0.
      destruct (adaptiveQuestion_succeeds pool keys g0) as (q & g1 & Hq);
        [by apply pool_nonempty | done | | done | done |].
      { apply Forall_forall. intros i Hin. rewrite Forall_forall in Hcat.
        by eapply Hcat, pool_members. }
      exists q, g1. split; [done|].
      by apply adaptiveQuestion_ok in Hq as (_ & _ & _ & ? & _). }
    destruct Hrun as (qs & g' & Hrun).
    exists qs, g'. split; [done|]. by apply Hpost in Hrun.
  - intros Hc ->.
    pose proof Hc as Hc'. apply invalidCount_positiveInteger in Hc' as ->.
    apply positiveInteger_iterations in Hc as [Hpos _].
    destruct (Z.to_nat (Qfloor count)) as [|n]; [lia|].
    by apply Array_from_first_throws.
  - intros Hc. destruct (invalidCount count) eqn:Hinv; [done|].
    by apply invalidCount_positiveInteger in Hinv.
Qed.

Lemma generateAdaptiveSession_count_and_members_witness :
  let g := mkRng (λ _, 0.5%Q) 0 in
  let ids := ["root"; "perfect_fifth"] in
  let keys := ["C"; "G"] in
  let stats := Some [AdaptiveWeighting.mkStat "root" (Some 0.9%Q)] in
  ∃ qs g', generateAdaptiveSession ids keys 3 stats g = (Ok qs, g')
           ∧ (inject_Z (Z.of_nat (length qs)) == 3)%Q
           ∧ Forall (questionWithin ids keys) qs.
Proof.
  intros g ids keys stats.
  apply (proj1 (generateAdaptiveSession_count_and_members ids keys 3 stats g)).
  - exists 3. split; [lia | reflexivity].
  - discriminate.
  - discriminate.
  - repeat constructor; unfold inCatalog; compute_done.
  - repeat constructor; unfold knownKey; compute_done.
  - intros n. simpl. split; [unfold Qle | unfold Qlt]; simpl; lia.
Defined.

Lemma catalog_semitones_range (i : Intervals.Interval) :
  i ∈ Intervals.INTERVALS → 0 ≤ Intervals.semitones i ≤ 11.
Proof.
  revert i. apply Forall_forall. unfold Intervals.INTERVALS.
  repeat (constructor; [simpl; lia|]). constructor.
Qed.

(** Why resolving a question can fail: the id is not in the catalog, or
    else the key is not in the table; the catalog offsets are never
    refused. *)
Lemma resolveQuestion_throws (key id : option string) (g g' : Rng) (e : Error) :
  resolveQuestion key id g = (Throw e, g') →
  g' = g
  ∧ ((e = UnknownIntervalId id ∧ Intervals.getIntervalById id = None)
     ∨ (e = UnknownKey key
        ∧ NoteUtils.getRootFrequency key = Throw (UnknownKey key))).
Proof.
  unfold resolveQuestion.
  destruct (Intervals.getIntervalById id) as [interval|] eqn:Hentry;
    [|intros [= <- <-]; split; [done|]; by left].
  unfold bind, lift, ret.
  destruct (NoteUtils.getRootFrequency key) as [freq|e'] eqn:Hroot.
  - assert (Hin : interval ∈ Intervals.INTERVALS).
    { destruct id as [i|]; [|done]. by apply getIntervalById_Some in Hentry as [? _]. }
    unfold NoteUtils.getIntervalFrequency.
    rewrite (proj2 (Z.ltb_ge _ 0) (proj1 (catalog_semitones_range _ Hin))). done.
  - intros [= <- <-]. split; [done|]. right.
    unfold NoteUtils.getRootFrequency in Hroot.
    destruct (NoteUtils.NOTE_FREQUENCIES !! NoteUtils.keyWithOctave key); [done|].
    injection Hroot as <-. done.
Qed.

Lemma unknown_key_of_throw (k : string) :
  NoteUtils.getRootFrequency (Some k) = Throw (UnknownKey (Some k)) → ¬ knownKey k.
Proof.
  intros Hthrow Hk. destruct (getRootFrequency_known k Hk) as [f Hf]. congruence.
Qed.

(** X15: Why a question cannot be made.  With no key the call is refused
    before anything is drawn, with no id after the key was drawn; the
    only other failures name their culprit: an id drawn from the list
    that the catalog does not have, or a key drawn from the list that
    the table does not have.  The id is checked first, so when no id is
    in the catalog the failure is the unknown id whatever the keys. *)
Theorem generateQuestion_errors (ids keys : list string) (g : Rng) :
  (keys = [] → generateQuestion ids keys g = (Throw EmptyArray, g))
  ∧ (keys ≠ [] → ids = [] →
       generateQuestion ids keys g = (Throw EmptyArray, mkRng (rand g) (S (cursor g))))
  ∧ (∀ e g', generateQuestion ids keys g = (Throw e, g') →
       (e = EmptyArray ∧ (keys = [] ∨ ids = []))
       ∨ (∃ id, e = UnknownIntervalId id
                ∧ ∀ i, id = Some i → i ∈ ids ∧ ¬ inCatalog i)
       ∨ (∃ k, e = UnknownKey k
               ∧ ∀ k', k = Some k' → k' ∈ keys ∧ ¬ knownKey k'))
  ∧ (keys ≠ [] → ids ≠ [] → Forall (λ i, ¬ inCatalog i) ids →
       ∃ id, generateQuestion ids keys g
             = (Throw (UnknownIntervalId id), mkRng (rand g) (S (S (cursor g))))).
Proof.
  unfold generateQuestion. split; [|split; [|split]].
  - by intros ->.
  - intros Hk ->. unfold bind at 1. by rewrite (randomPick_draw keys g Hk).
  - intros e g'.
    destruct (decide (keys = [])) as [->|Hk];
      [intros [= <- _]; left; split; [done | by left]|].
    unfold bind at 1. rewrite (randomPick_draw keys g Hk).
    destruct (decide (ids = [])) as [->|Hi];
      [intros [= <- _]; left; split; [done | by right]|].
    unfold bind at 1. rewrite (randomPick_draw ids _ Hi).
    intros Hres. apply resolveQuestion_throws in Hres as [_ [[-> Hnone]|[-> Hroot]]].
    + right; left. eexists. split; [reflexivity|].
      intros i Hi'. split; [by eapply at_index_Some|].
      rewrite Hi' in Hnone. intros Hcat.
      apply inCatalog_lookup in Hcat as [j Hj]. congruence.
    + right; right. eexists. split; [reflexivity|].
      intros k' Hk'. split; [by eapply at_index_Some|].
      rewrite Hk' in Hroot. by apply unknown_key_of_throw.
  - intros Hk Hi Hbad.
    unfold bind at 1. rewrite (randomPick_draw keys g Hk).
    unfold bind at 1. rewrite (randomPick_draw ids _ Hi).
    eexists. apply resolveQuestion_unknown_id.
    intros i Hid. rewrite Forall_forall in Hbad. apply Hbad.
    by eapply at_index_Some.
Qed.

Lemma generateQuestion_errors_witness :
  let g := mkRng (λ _, 0%Q) 0 in
  generateQuestion ["root"] [] g = (Throw EmptyArray, g)
  ∧ ∃ id, generateQuestion ["ninth"] ["H"] g
          = (Throw (UnknownIntervalId id), mkRng (λ _, 0%Q) 2).
Proof.
  intros g. split.
  - by apply (proj1 (generateQuestion_errors ["root"] [] g)).
  - apply (proj2 (proj2 (proj2 (generateQuestion_errors ["ninth"] ["H"] g))));
      [discriminate | discriminate |].
    repeat constructor. unfold inCatalog. compute_done.
Defined.

(** A consistent question lies within the octave above its root, and a
    root question sounds the root twice. *)
Lemma consistentQuestion_octave (q : Question) :
  consistentQuestion q →
  (0 < rootHz q)%R
  ∧ (rootHz q <= intervalHz q)%R ∧ (intervalHz q < 2 * rootHz q)%R
  ∧ (intervalId q = Some "root" → intervalHz q = rootHz q).
Proof.
  intros (interval & Hentry & Hroot & Hhz).
  assert (Hin : interval ∈ Intervals.INTERVALS).
  { destruct (intervalId q) as [i|]; [|done].
    by apply getIntervalById_Some in Hentry as [? _]. }
  pose proof (catalog_semitones_range _ Hin) as [Hs0 Hs11].
  pose proof (getRootFrequency_pos _ _ Hroot) as Hpos.
  unfold NoteUtils.getIntervalFrequency in Hhz.
  rewrite (proj2 (Z.ltb_ge _ 0) Hs0) in Hhz. injection Hhz as Hhz.
  pose proof (Rpower_two_ge_one _ Hs0) as Hge.
  assert (Hlt : (Rpower 2 (IZR (Intervals.semitones interval) / 12) < 2)%R).
  { rewrite <- (Rpower_1 2) at 2 by lra. apply Rpower_two_lt.
    assert (IZR (Intervals.semitones interval) <= 11)%R by (by apply IZR_le).
    lra. }
  split; [done|]. split; [nra|]. split; [nra|].
  intros Hid. rewrite Hid in Hentry. injection Hentry as <-.
  rewrite <- Hhz. simpl. replace (0 / 12)%R with 0%R by lra.
  rewrite Rpower_O by lra. lra.
Qed.

Lemma Array_from_cursor {A} (P : A → Prop) (f : M A) (c n : nat) :
  (∀ g x g', f g = (Ok x, g') → P x ∧ cursor g' = (cursor g + c)%nat) →
  ∀ g xs g', Array_from n f g = (Ok xs, g') →
    Forall P xs ∧ cursor g' = (cursor g + length xs * c)%nat.
Proof.
  intros Hf. induction n as [|n IH]; intros g xs g'; simpl.
  - intros [= <- <-]. split; [done | simpl; lia].
  - unfold bind at 1. destruct (f g) as [[x|e] g1] eqn:Hfg; [|done].
    unfold bind at 1. destruct (Array_from n f g1) as [[xs'|e] g2] eqn:Hrest; [|done].
    intros [= <- <-].
    destruct (Hf _ _ _ Hfg) as [HP Hc1].
    destruct (IH _ _ _ Hrest) as (HF & Hc2).
    split; [by constructor|]. simpl. lia.
Qed.

(** X16: Every question either generator returns agrees with the catalog and
    the frequency table, has a positive root, lies within the octave
    above its root, and sounds the root twice when it is the root
    interval; each question costs exactly two random numbers. *)
Theorem generated_questions_consistent (ids keys : list string) (count : Q)
    (stats : option (list AdaptiveWeighting.IntervalStat)) (g g' : Rng)
    (qs : list Question) :
  generateSession ids keys count g = (Ok qs, g')
  ∨ generateAdaptiveSession ids keys count stats g = (Ok qs, g') →
  Forall (λ q, consistentQuestion q
               ∧ (0 < rootHz q)%R
               ∧ (rootHz q <= intervalHz q)%R ∧ (intervalHz q < 2 * rootHz q)%R
               ∧ (intervalId q = Some "root" → intervalHz q = rootHz q)) qs
  ∧ cursor g' = (cursor g + 2 * length qs)%nat.
Proof.
  intros Hrun.
  assert (H : Forall consistentQuestion qs
              ∧ cursor g' = (cursor g + length qs * 2)%nat).
  { destruct Hrun as [Hrun|Hrun].
    - unfold generateSession in Hrun.
      destruct (invalidCount count); [done|].
      eapply Array_from_cursor; [|exact Hrun].
      intros g0 q g1. apply generateQuestion_consistent.
    - rewrite generateAdaptiveSession_unfold in Hrun.
      destruct (invalidCount count); [done|].
      eapply Array_from_cursor; [|exact Hrun].
      intros g0 q g1 Hq.
      by apply adaptiveQuestion_ok in Hq as (_ & _ & ? & _ & ?). }
  destruct H as [HF Hc]. split; [|lia].
  eapply Forall_impl; [exact HF|].
  intros q Hq. split; [done|]. by apply consistentQuestion_octave.
Qed.

Lemma generated_questions_consistent_witness :
  let g := mkRng (λ _, 0%Q) 5 in
  ∃ qs g', generateSession ["root"; "tritone"] ["E"] 2 g = (Ok qs, g')
           ∧ Forall (λ q, intervalHz q = rootHz q) qs
           ∧ cursor g' = 9%nat.
Proof.
  intros g.
  destruct (generateSession ["root"; "tritone"] ["E"] 2 g) as [r g'] eqn:Hrun.
  assert (Hr : ∃ qs, r = Ok qs ∧ Forall (λ q, intervalId q = Some "root") qs
                     ∧ length qs = 2%nat).
  { assert (Hrun' : generateSession ["root"; "tritone"] ["E"] 2 g = (r, g'))
      by exact Hrun.
    eexists. split; [|split].
    - assert (Hfst : r = (generateSession ["root"; "tritone"] ["E"] 2 g).1)
        by (by rewrite Hrun').
      rewrite Hfst. reflexivity.
    - repeat constructor.
    - reflexivity. }
  destruct Hr as (qs & -> & Hroot & Hlen).
  destruct (generated_questions_consistent ["root"; "tritone"] ["E"] 2 None g g' qs)
    as [HF Hc]; [by left|].
  exists qs, g'. split; [done|]. split.
  - rewrite Forall_forall in HF, Hroot. apply Forall_forall.
    intros q Hq. destruct (HF q Hq) as (_ & _ & _ & _ & Hsame).
    by apply Hsame, Hroot.
  - rewrite Hc, Hlen. reflexivity.
Defined.

End MoreGenerator.

(** ** Runs of a session *)

Section MoreSession.

Import QuestionGenerator QuizSession.

(** One call keeps the questions, moves the index on by at most one and
    appends at most one result. *)
Lemma updater_monotone (c : Call) (s : State) :
  let s' := (updater c s).1 in
  questions s' = questions s
  ∧ (currentIndex s ≤ currentIndex s' ≤ S (currentIndex s))%nat
  ∧ sessionResults s `prefix_of` sessionResults s'
  ∧ (length (sessionResults s') ≤ S (length (sessionResults s)))%nat.
Proof.
  assert (Hsame : questions s = questions s
            ∧ (currentIndex s ≤ currentIndex s ≤ S (currentIndex s))%nat
            ∧ sessionResults s `prefix_of` sessionResults s
            ∧ (length (sessionResults s) ≤ S (length (sessionResults s)))%nat).
  { split; [done|]. split; [lia|]. split; [done | lia]. }
  assert (Hadv : ∀ r, let s' := (computeAdvance s (sessionResults s ++ r)).1 in
            (length r ≤ 1)%nat →
            questions s' = questions s
            ∧ (currentIndex s ≤ currentIndex s' ≤ S (currentIndex s))%nat
            ∧ sessionResults s `prefix_of` sessionResults s'
            ∧ (length (sessionResults s') ≤ S (length (sessionResults s)))%nat).
  { intros r s' Hr. subst s'. rewrite computeAdvance_state. simpl.
    split; [done|]. split; [lia|]. split; [by apply prefix_app_r|].
    rewrite length_app. lia. }
  destruct c as [a|]; simpl.
  - unfold submitAnswerUpdater.
    destruct (questions s !! currentIndex s) as [q|]; [|exact Hsame].
    case_bool_decide; [by apply Hadv|].
    destruct (retryUsed s); simpl; [by apply Hadv|].
    split; [done|]. split; [lia|]. split; [done | lia].
  - specialize (Hadv [] (Nat.le_0_l _)). by rewrite app_nil_r in Hadv.
Qed.

(** X17: A run never goes back: whatever the calls and wherever they start,
    they all return, use no random number, keep the questions, never
    lower the index and raise it by at most one per call, and only
    append to the results, at most one result per call; no recorded
    result is dropped or rewritten. *)
Theorem run_never_goes_back (cs : list Call) (h : Hook) :
  ∃ h', calls cs h = (Ok tt, h')
    ∧ rng h' = rng h
    ∧ questions (state h') = questions (state h)
    ∧ (currentIndex (state h) ≤ currentIndex (state h')
       ≤ currentIndex (state h) + length cs)%nat
    ∧ sessionResults (state h) `prefix_of` sessionResults (state h')
    ∧ (length (sessionResults (state h'))
       ≤ length (sessionResults (state h)) + length cs)%nat.
Proof.
  revert h. induction cs as [|c cs IH]; intros h.
  - exists h. split; [done|]. split; [done|]. split; [done|].
    split; [simpl; lia|]. split; [done | simpl; lia].
  - rewrite calls_cons.
    destruct (IH (mkHook (rng h) (updater c (state h)).1
                    (log h ++ (updater c (state h)).2)))
      as (h' & Hrun & Hrng & Hqs & Hidx & Hpre & Hlen).
    destruct (updater_monotone c (state h)) as (Hqs1 & Hidx1 & Hpre1 & Hlen1).
    simpl in *. exists h'. split; [done|]. split; [done|].
    split; [congruence|]. split; [lia|].
    split; [by etrans | lia].
Qed.

(** The results follow the questions before the index. *)
Lemma updater_follows (c : Call) (s : State) :
  let s' := (updater c s).1 in
  resultIds (sessionResults s)
    `sublist_of` questionIds (take (currentIndex s) (questions s)) →
  resultIds (sessionResults s')
    `sublist_of` questionIds (take (currentIndex s') (questions s')).
Proof.
  intros s' Hsub. subst s'.
  assert (Hskip : resultIds (sessionResults s)
            `sublist_of` questionIds (take (S (currentIndex s)) (questions s))).
  { etrans; [exact Hsub|]. unfold questionIds. apply fmap_sublist.
    destruct (questions s !! currentIndex s) as [q|] eqn:Hq.
    - rewrite (take_S_r _ _ _ Hq). by apply sublist_inserts_r.
    - apply lookup_ge_None in Hq. rewrite !take_ge by lia. done. }
  destruct c as [a|]; simpl; [|by rewrite computeAdvance_state].
  unfold submitAnswerUpdater.
  destruct (questions s !! currentIndex s) as [q|] eqn:Hq; [|done].
  assert (Hadv : ∀ b u,
            resultIds (sessionResults s ++ [AnswerResult.mk (intervalId q) b u])
              `sublist_of` questionIds (take (S (currentIndex s)) (questions s))).
  { intros b u. rewrite (take_S_r _ _ _ Hq). unfold resultIds, questionIds.
    rewrite !fmap_app. by apply sublist_app. }
  case_bool_decide; [rewrite computeAdvance_state; apply Hadv|].
  destruct (retryUsed s); simpl; [rewrite computeAdvance_state; apply Hadv | done].
Qed.

Lemma updater_follows_exactly (a : option string) (s : State) :
  let s' := (submitAnswerUpdater a s).1 in
  resultIds (sessionResults s) = questionIds (take (currentIndex s) (questions s)) →
  resultIds (sessionResults s') = questionIds (take (currentIndex s') (questions s')).
Proof.
  intros s' Heq. subst s'. unfold submitAnswerUpdater.
  destruct (questions s !! currentIndex s) as [q|] eqn:Hq; [|done].
  assert (Hadv : ∀ b u,
            resultIds (sessionResults s ++ [AnswerResult.mk (intervalId q) b u])
            = questionIds (take (S (currentIndex s)) (questions s))).
  { intros b u. rewrite (take_S_r _ _ _ Hq). unfold resultIds, questionIds in *.
    rewrite !fmap_app, Heq. done. }
  case_bool_decide; [rewrite computeAdvance_state; apply Hadv|].
  destruct (retryUsed s); simpl; [rewrite computeAdvance_state; apply Hadv | done].
Qed.

Lemma calls_follow (cs : list Call) (h h' : Hook) :
  calls cs h = (Ok tt, h') →
  resultIds (sessionResults (state h))
    `sublist_of` questionIds (take (currentIndex (state h)) (questions (state h))) →
  resultIds (sessionResults (state h'))
    `sublist_of` questionIds (take (currentIndex (state h')) (questions (state h'))).
Proof.
  revert h. induction cs as [|c cs IH]; intros h.
  - by intros [= <-].
  - rewrite calls_cons. intros Hrun Hsub. apply (IH _ Hrun). simpl.
    by apply updater_follows.
Qed.

Lemma calls_follow_exactly (cs : list Call) (h h' : Hook) :
  calls cs h = (Ok tt, h') →
  advances cs = 0%nat →
  resultIds (sessionResults (state h))
  = questionIds (take (currentIndex (state h)) (questions (state h))) →
  resultIds (sessionResults (state h'))
  = questionIds (take (currentIndex (state h')) (questions (state h'))).
Proof.
  revert h. induction cs as [|c cs IH]; intros h.
  - by intros [= <-].
  - rewrite calls_cons, advances_cons. intros Hrun Hadv Heq.
    apply (IH _ Hrun); [lia|]. simpl.
    destruct c as [a|]; [|unfold advances in Hadv; simpl in Hadv; lia].
    by apply updater_follows_exactly.
Qed.

Lemma startSession_state (cfg : Config) (h0 h1 : Hook) :
  startSession cfg h0 = (Ok tt, h1) →
  ∃ qs g, sessionGenerator cfg (rng h0) = (Ok qs, g)
          ∧ h1 = mkHook g (mkState qs 0 answering None None false [])
                   (log h0 ++ play (qs !! 0%nat)).
Proof.
  rewrite startSession_unfold.
  destruct (sessionGenerator cfg (rng h0)) as [[qs|e] g]; [|done].
  intros [= <-]. by exists qs, g.
Qed.

(** X18: The results of a session come in the order of its questions: at
    any moment of a run their ids are, in order, ids of questions
    before the current index, no question counted twice, so there are
    never more results than questions passed.  In a run without
    [advanceToNext] no question is passed over: result number i is the
    result of question number i. *)
Theorem results_follow_questions (cfg : Config) (h0 h1 h2 : Hook) (cs : list Call) :
  startSession cfg h0 = (Ok tt, h1) →
  calls cs h1 = (Ok tt, h2) →
  let qs := questions (state h2) in
  let rs := sessionResults (state h2) in
  resultIds rs `sublist_of` questionIds (take (currentIndex (state h2)) qs)
  ∧ (length rs ≤ currentIndex (state h2))%nat ∧ (length rs ≤ length qs)%nat
  ∧ (advances cs = 0%nat →
       resultIds rs = questionIds (take (currentIndex (state h2)) qs)
       ∧ ∀ i r, rs !! i = Some r →
           ∃ q, qs !! i = Some q ∧ AnswerResult.intervalId r = intervalId q).
Proof.
  intros Hstart Hrun qs rs.
  apply startSession_state in Hstart as (qs0 & g & _ & ->).
  assert (Hsub : resultIds rs `sublist_of` questionIds (take (currentIndex (state h2)) qs)).
  { apply (calls_follow cs _ _ Hrun). simpl. done. }
  split; [done|].
  apply sublist_length in Hsub as Hlen.
  unfold resultIds, questionIds in Hlen. rewrite !length_fmap, length_take in Hlen.
  split; [lia|]. split; [lia|].
  intros Hadv.
  assert (Heq : resultIds rs = questionIds (take (currentIndex (state h2)) qs)).
  { apply (calls_follow_exactly cs _ _ Hrun Hadv). simpl. done. }
  split; [done|].
  intros i r Hr.
  assert (Hi : resultIds rs !! i = Some (AnswerResult.intervalId r)).
  { unfold resultIds. by rewrite list_lookup_fmap, Hr. }
  rewrite Heq in Hi. unfold questionIds in Hi.
  rewrite list_lookup_fmap in Hi.
  destruct (take (currentIndex (state h2)) qs !! i) as [q|] eqn:Hq; [|done].
  injection Hi as Hi. exists q. split; [|done].
  apply lookup_take_Some in Hq. by destruct Hq.
Qed.

Lemma results_follow_questions_witness :
  let h1 := (startSession sampleConfig sampleHook).2 in
  let cs := [SubmitAnswer (Some "perfect_fifth"); SubmitAnswer (Some "root")] in
  let h2 := (calls cs h1).2 in
  resultIds (sessionResults (state h2))
  = questionIds (take (currentIndex (state h2)) (questions (state h2))).
Proof.
  intros h1 cs h2.
  destruct (results_follow_questions sampleConfig sampleHook h1 h2 cs)
    as (_ & _ & _ & Hexact); [reflexivity | reflexivity |].
  apply Hexact. reflexivity.
Defined.

Lemma calls_questions (cs : list Call) (h h' : Hook) :
  calls cs h = (Ok tt, h') → questions (state h') = questions (state h).
Proof.
  revert h. induction cs as [|c cs IH]; intros h.
  - by intros [= <-].
  - rewrite calls_cons. intros Hrun. rewrite (IH _ Hrun). simpl.
    apply updater_monotone.
Qed.

Lemma updater_phase (c : Call) (s : State) :
  phaseInvariant s → phaseInvariant (updater c s).1.
Proof.
  intros Hinv.
  assert (Hadv : ∀ rs, phaseInvariant (computeAdvance s rs).1).
  { intros rs. rewrite computeAdvance_state. unfold phaseInvariant. simpl.
    destruct (Nat.ltb_spec (S (currentIndex s)) (length (questions s))).
    - split; [done|]. split; [split; [done | lia]|]. done.
    - split; [done|]. split; [split; [lia | done]|]. done. }
  destruct c as [a|]; simpl; [|apply Hadv].
  unfold submitAnswerUpdater.
  destruct (questions s !! currentIndex s) as [q|] eqn:Hq; [|done].
  case_bool_decide as Ha; [apply Hadv|].
  destruct (retryUsed s); simpl; [apply Hadv|].
  pose proof (lookup_lt_Some _ _ _ Hq) as Hlt.
  unfold phaseInvariant, getCurrentQuestion. simpl.
  split; [done|]. split; [split; [done | lia]|]. split; [|done].
  intros _. split; [done|]. split; [done|]. by exists q.
Qed.

Lemma calls_phase (cs : list Call) (h h' : Hook) :
  calls cs h = (Ok tt, h') → phaseInvariant (state h) → phaseInvariant (state h').
Proof.
  revert h. induction cs as [|c cs IH]; intros h.
  - by intros [= <-].
  - rewrite calls_cons. intros Hrun Hinv. apply (IH _ Hrun). simpl.
    by apply updater_phase.
Qed.

Lemma start_phase (qs : list Question) :
  qs ≠ [] → phaseInvariant (mkState qs 0 answering None None false []).
Proof.
  intros Hqs. unfold phaseInvariant. simpl.
  split; [done|]. split; [|done].
  split; [done|]. destruct qs; [done | simpl; lia].
Qed.

Lemma sessionGenerator_nonempty (cfg : Config) (g g' : Rng) (qs : list Question) :
  sessionGenerator cfg g = (Ok qs, g') → qs ≠ [].
Proof.
  intros Hgen. apply sessionGenerator_length in Hgen as [Hpos _].
  destruct qs; [simpl in Hpos; lia | done].
Qed.

(** X19: What the phase of a started session says, whatever calls were
    made: it is never idle again; it is complete exactly when the index
    is past the last question; in feedback the retry is used, the
    answer is marked incorrect, and the selected answer is a wrong
    answer to the question at the index; in any other phase the retry
    is unused and no answer is selected or marked. *)
Theorem session_phase_invariant (cfg : Config) (h0 h1 h2 : Hook) (cs : list Call) :
  startSession cfg h0 = (Ok tt, h1) →
  calls cs h1 = (Ok tt, h2) →
  let s := state h2 in
  phase s ≠ idle
  ∧ (phase s = complete ↔ (length (questions s) ≤ currentIndex s)%nat)
  ∧ (phase s = feedback →
       retryUsed s = true ∧ isCorrect s = Some false
       ∧ ∃ q, getCurrentQuestion s = Some q ∧ selectedAnswer s ≠ intervalId q)
  ∧ (phase s ≠ feedback →
       retryUsed s = false ∧ isCorrect s = None ∧ selectedAnswer s = None).
Proof.
  intros Hstart Hrun.
  apply startSession_state in Hstart as (qs & g & Hgen & ->).
  apply (calls_phase cs _ _ Hrun). simpl.
  apply start_phase. by eapply sessionGenerator_nonempty.
Qed.

Lemma session_phase_invariant_witness :
  let h1 := (startSession sampleConfig sampleHook).2 in
  let h2 := (calls [SubmitAnswer (Some "perfect_fifth")] h1).2 in
  retryUsed (state h2) = true ∧ isCorrect (state h2) = Some false
  ∧ ∃ q, getCurrentQuestion (state h2) = Some q
         ∧ selectedAnswer (state h2) ≠ intervalId q.
Proof.
  intros h1 h2.
  destruct (session_phase_invariant sampleConfig sampleHook h1 h2
              [SubmitAnswer (Some "perfect_fifth")])
    as (_ & _ & Hfeedback & _); [reflexivity | reflexivity |].
  apply Hfeedback. reflexivity.
Defined.

Lemma computeAdvance_effects (s : State) (rs : list AnswerResult.t) :
  (computeAdvance s rs).2
  = if (length (questions s) <=? S (currentIndex s))%nat
    then [onSessionComplete (payloadOf (questions s) rs)]
    else play (questions s !! S (currentIndex s)).
Proof.
  unfold computeAdvance. rewrite Nat.add_1_r.
  by destruct (length (questions s) <=? S (currentIndex s))%nat.
Qed.

Lemma updater_payloads (c : Call) (s : State) (new : list Effect) :
  payloadsAgree new s → payloadsAgree (new ++ (updater c s).2) (updater c s).1.
Proof.
  intros [Hbefore Hafter].
  assert (Hadv : ∀ rs,
            ((length (questions s) ≤ currentIndex s)%nat → rs = sessionResults s) →
            payloadsAgree (new ++ (computeAdvance s rs).2) (computeAdvance s rs).1).
  { intros rs Hrs. rewrite computeAdvance_effects, computeAdvance_state.
    unfold payloadsAgree. simpl. rewrite payloads_app.
    destruct (Nat.leb_spec (length (questions s)) (S (currentIndex s))) as [Hle|Hlt].
    - split; [lia|]. intros _ p Hp.
      apply elem_of_app in Hp as [Hp|Hp].
      + destruct (decide (currentIndex s < length (questions s))%nat) as [Hlt|Hge].
        * rewrite (Hbefore Hlt) in Hp. by apply elem_of_nil in Hp.
        * rewrite Hrs by lia. apply Hafter; [lia | done].
      + by apply list_elem_of_singleton in Hp.
    - split; [|lia]. intros _. rewrite payloads_play, Hbefore by lia. done. }
  destruct c as [a|]; simpl; [|by apply Hadv].
  unfold submitAnswerUpdater.
  destruct (questions s !! currentIndex s) as [q|] eqn:Hq.
  - pose proof (lookup_lt_Some _ _ _ Hq) as Hlt.
    case_bool_decide; [apply Hadv; lia|].
    destruct (retryUsed s); simpl; [apply Hadv; lia|].
    unfold payloadsAgree. simpl. rewrite payloads_app, app_nil_r.
    split; [done | lia].
  - by rewrite app_nil_r.
Qed.

Lemma calls_payloads (cs : list Call) :
  ∀ (h : Hook) (new0 : list Effect),
    payloadsAgree new0 (state h) →
    ∃ h' new, calls cs h = (Ok tt, h')
              ∧ log h' = (log h ++ new)%list
              ∧ payloadsAgree (new0 ++ new) (state h').
Proof.
  induction cs as [|c cs IH]; intros h new0 Hinv.
  - exists h, []. by rewrite !app_nil_r.
  - rewrite calls_cons.
    destruct (IH (mkHook (rng h) (updater c (state h)).1
                    (log h ++ (updater c (state h)).2)) _
                (updater_payloads c (state h) new0 Hinv))
      as (h' & new & Hrun & Hlog & Hinv').
    exists h', ((updater c (state h)).2 ++ new)%list.
    split; [done|]. simpl in Hlog. by rewrite Hlog, !app_assoc.
Qed.

Lemma filter_length_bound {A} (f : A → bool) (l : list A) :
  (length (List.filter f l) ≤ length l)%nat.
Proof. induction l as [|x l IH]; simpl; [lia|]. destruct (f x); simpl; lia. Qed.

(** X20: Whatever calls are made on a started session, every payload the
    run sends is the same one: the payload of the session's questions
    and of the results as they stand, sent only once the run is
    complete.  Its score counts the correct results, its total all of
    them; the score is at most the total and the total at most the
    number of questions, which is the session length. *)
Theorem run_payloads_agree (cfg : Config) (h0 h1 h2 : Hook) (cs : list Call) :
  startSession cfg h0 = (Ok tt, h1) →
  calls cs h1 = (Ok tt, h2) →
  ∃ new, log h2 = (log h1 ++ new)%list
    ∧ ∀ p, p ∈ payloads new →
        p = payloadOf (questions (state h2)) (sessionResults (state h2))
        ∧ phase (state h2) = complete
        ∧ (Payload.score p ≤ Payload.total p)%nat
        ∧ (Payload.total p ≤ length (Payload.questions p))%nat
        ∧ (inject_Z (Z.of_nat (length (Payload.questions p))) == sessionLength cfg)%Q.
Proof.
  intros Hstart Hrun.
  apply startSession_state in Hstart as (qs & g & Hgen & ->).
  pose proof (sessionGenerator_nonempty _ _ _ _ Hgen) as Hne.
  apply sessionGenerator_length in Hgen as [_ Hlen].
  set (h1 := mkHook g (mkState qs 0 answering None None false [])
                (log h0 ++ play (qs !! 0%nat))) in *.
  assert (Hinit : payloadsAgree [] (state h1)).
  { split; [done|]. intros _ p Hp. by apply elem_of_nil in Hp. }
  destruct (calls_payloads cs h1 [] Hinit) as (h' & new & Hrun' & Hlog & Hb & Ha).
  rewrite Hrun in Hrun'. injection Hrun' as <-.
  pose proof (calls_questions cs _ _ Hrun) as Hqs.
  pose proof (calls_phase cs _ _ Hrun (start_phase qs Hne)) as (_ & Hcomplete & _).
  assert (Hsub : resultIds (sessionResults (state h2))
            `sublist_of` questionIds (take (currentIndex (state h2)) (questions (state h2)))).
  { apply (calls_follow cs _ _ Hrun). simpl. done. }
  apply sublist_length in Hsub.
  unfold resultIds, questionIds in Hsub. rewrite !length_fmap, length_take in Hsub.
  change ([] ++ new)%list with new in Hb, Ha.
  exists new. split; [done|]. intros p Hp.
  destruct (decide (currentIndex (state h2) < length (questions (state h2)))%nat)
    as [Hlt|Hge].
  { rewrite (Hb Hlt) in Hp. by apply elem_of_nil in Hp. }
  rewrite (Ha ltac:(lia) p Hp). split; [done|].
  split; [apply Hcomplete; lia|]. simpl.
  split; [apply filter_length_bound|]. split; [lia|].
  rewrite Hqs. done.
Qed.

Lemma run_payloads_agree_witness :
  let h1 := (startSession sampleConfig sampleHook).2 in
  let cs := [SubmitAnswer (Some "root"); AdvanceToNext; AdvanceToNext] in
  let h2 := (calls cs h1).2 in
  ∃ new, log h2 = (log h1 ++ new)%list
    ∧ length (payloads new) = 3%nat
    ∧ ∀ p, p ∈ payloads new →
        p = payloadOf (questions (state h2)) (sessionResults (state h2)).
Proof.
  intros h1 cs h2.
  destruct (run_payloads_agree sampleConfig sampleHook h1 h2 cs)
    as (new & Hlog & Hp); [reflexivity | reflexivity |].
  exists new. split; [exact Hlog|]. split.
  - assert (Hnew : new = drop (length (log h1)) (log h2)).
    { rewrite Hlog. by rewrite drop_app_length. }
    rewrite Hnew. reflexivity.
  - intros p Hin. by destruct (Hp p Hin) as [-> _].
Defined.

Lemma firstTry_score (qs : list Question) :
  length (List.filter AnswerResult.correct (firstTry <$> qs)) = length qs.
Proof. induction qs as [|q qs IH]; simpl in *; [done | by f_equal]. Qed.

(** Answering the remaining questions [rest] one after the other, each
    with its own id, from a state that stands at the first of them with
    the retry unused. *)
Lemma answerAll_from (rest : list Question) :
  ∀ (pre : list Question) (h : Hook),
    rest ≠ [] →
    questions (state h) = (pre ++ rest)%list →
    currentIndex (state h) = length pre →
    retryUsed (state h) = false →
    ∃ h2, calls (answerAll rest) h = (Ok tt, h2)
      ∧ state h2
        = mkState (pre ++ rest) (length (pre ++ rest)) complete None None false
            (sessionResults (state h) ++ (firstTry <$> rest))
      ∧ log h2
        = (log h ++ (soundOf <$> tail rest)
             ++ [onSessionComplete
                   (payloadOf (pre ++ rest)
                      (sessionResults (state h) ++ (firstTry <$> rest)))])%list.
Proof.
  induction rest as [|q rest IH]; intros pre h Hne Hqs Hidx Hretry; [done|].
  unfold answerAll. rewrite fmap_cons, calls_cons. fold (answerAll rest).
  assert (Hq : questions (state h) !! currentIndex (state h) = Some q).
  { rewrite Hqs, Hidx. by apply list_lookup_middle. }
  cbn [updater]. unfold submitAnswerUpdater. rewrite Hq.
  rewrite bool_decide_eq_true_2 by done. rewrite Hretry.
  fold (firstTry q).
  rewrite computeAdvance_effects, computeAdvance_state, Hqs, Hidx.
  destruct rest as [|q' rest].
  - rewrite (proj2 (Nat.leb_le _ _)) by (rewrite length_app; simpl; lia).
    rewrite (proj2 (Nat.ltb_ge _ _)) by (rewrite length_app; simpl; lia).
    eexists. split; [reflexivity|]. simpl.
    split; [f_equal; rewrite length_app; simpl; lia | done].
  - rewrite (proj2 (Nat.leb_gt _ _)) by (rewrite length_app; simpl; lia).
    rewrite (proj2 (Nat.ltb_lt _ _)) by (rewrite length_app; simpl; lia).
    assert (Hnext : (pre ++ q :: q' :: rest)%list !! S (length pre) = Some q').
    { rewrite (cons_middle q pre), app_assoc.
      replace (S (length pre)) with (length (pre ++ [q])%list)
        by (rewrite length_app; simpl; lia).
      by apply list_lookup_middle. }
    rewrite Hnext.
    edestruct (IH (pre ++ [q])%list) as (h2 & Hrun & Hstate & Hlog);
      [done | | | | exists h2; split; [exact Hrun|]].
    + simpl. by rewrite <- app_assoc.
    + simpl. rewrite length_app. simpl. lia.
    + done.
    + cbn [state log sessionResults] in Hstate, Hlog.
      rewrite Hstate, Hlog. rewrite <- !app_assoc. simpl. done.
Qed.

(** X21: A perfect run: on a started session, answering each question with
    its own id completes the run.  Every question is sounded once, in
    order, then the one payload goes out; each result is correct with
    the retry unused, and score and total both equal the number of
    questions. *)
Theorem perfect_run (cfg : Config) (h0 h1 : Hook) :
  startSession cfg h0 = (Ok tt, h1) →
  let qs := questions (state h1) in
  ∃ h2, calls (answerAll qs) h1 = (Ok tt, h2)
    ∧ phase (state h2) = complete
    ∧ sessionResults (state h2) = firstTry <$> qs
    ∧ log h2 = (log h0 ++ (soundOf <$> qs)
                  ++ [onSessionComplete (payloadOf qs (firstTry <$> qs))])%list
    ∧ Payload.score (payloadOf qs (firstTry <$> qs)) = length qs
    ∧ Payload.total (payloadOf qs (firstTry <$> qs)) = length qs.
Proof.
  intros Hstart.
  apply startSession_state in Hstart as (qs & g & Hgen & ->).
  pose proof (sessionGenerator_nonempty _ _ _ _ Hgen) as Hne.
  cbn [state questions].
  destruct (answerAll_from qs []
              (mkHook g (mkState qs 0 answering None None false [])
                 (log h0 ++ play (qs !! 0%nat)))
              Hne eq_refl eq_refl eq_refl)
    as (h2 & Hrun & Hstate & Hlog).
  exists h2. split; [exact Hrun|]. rewrite Hstate. simpl.
  split; [done|]. split; [done|]. split.
  - rewrite Hlog. destruct qs as [|q qs]; [done|]. simpl.
    by rewrite <- app_assoc.
  - split; [apply firstTry_score | by rewrite length_fmap].
Qed.

Lemma perfect_run_witness :
  let h1 := (startSession sampleConfig sampleHook).2 in
  ∃ h2, calls (answerAll (questions (state h1))) h1 = (Ok tt, h2)
    ∧ phase (state h2) = complete
    ∧ sessionResults (state h2) = [AnswerResult.mk (Some "root") true false].
Proof.
  intros h1.
  destruct (perfect_run sampleConfig sampleHook h1) as (h2 & Hrun & Hph & Hres & _);
    [reflexivity|].
  exists h2. split; [exact Hrun|]. split; [exact Hph|].
  rewrite Hres. reflexivity.
Defined.

Lemma buildBreakdown_snoc_lookup (rs : list AnswerResult.t) (r : AnswerResult.t)
    (k : string) :
  buildBreakdown (rs ++ [r]) !! k
  = if decide (propertyKey (AnswerResult.intervalId r) = k)
    then
      let t := default (Tally.mk 0 0) (buildBreakdown rs !! k) in
      Some (Tally.mk (Tally.correct t + (if AnswerResult.correct r then 1 else 0))
              (Tally.total t + 1))
    else buildBreakdown rs !! k.
Proof.
  unfold buildBreakdown. rewrite foldl_app. cbn [foldl].
  set (acc := foldl _ ∅ rs). set (kr := propertyKey _).
  destruct (decide (kr = k)) as [<-|Hne].
  - destruct (acc !! kr) as [t|] eqn:Hacc; destruct (AnswerResult.correct r);
      rewrite ?lookup_alter_eq, ?lookup_insert_eq, ?Hacc; simpl;
      repeat f_equal; lia.
  - destruct (acc !! kr); destruct (AnswerResult.correct r);
      by rewrite ?lookup_alter_ne, ?lookup_insert_ne by done.
Qed.

Lemma tallyOf_snoc (rs : list AnswerResult.t) (r : AnswerResult.t) (k : string) :
  tallyOf k (rs ++ [r])
  = if decide (propertyKey (AnswerResult.intervalId r) = k)
    then
      let t := default (Tally.mk 0 0) (tallyOf k rs) in
      Some (Tally.mk (Tally.correct t + (if AnswerResult.correct r then 1 else 0))
              (Tally.total t + 1))
    else tallyOf k rs.
Proof.
  unfold tallyOf. rewrite List.filter_app. cbn [List.filter].
  destruct (decide (propertyKey (AnswerResult.intervalId r) = k)) as [Hk|Hk].
  - rewrite (bool_decide_eq_true_2 _ Hk).
    destruct (List.filter _ rs) as [|m mine].
    + simpl. by destruct (AnswerResult.correct r).
    + cbn [app default]. change (m :: (mine ++ [r]))%list with ((m :: mine) ++ [r])%list.
      rewrite List.filter_app, !length_app. simpl.
      destruct (AnswerResult.correct r); simpl; repeat f_equal; lia.
  - rewrite (bool_decide_eq_false_2 _ Hk). by rewrite app_nil_r.
Qed.

Lemma buildBreakdown_lookup (rs : list AnswerResult.t) (k : string) :
  buildBreakdown rs !! k = tallyOf k rs.
Proof.
  induction rs as [|r rs IH] using rev_ind; [apply lookup_empty|].
  by rewrite buildBreakdown_snoc_lookup, tallyOf_snoc, IH.
Qed.

(** X22: The breakdown of results whose ids are catalog ids: under each id
    it holds how many results have that id and how many of those are
    correct, and it has no entry for an id without a result.  So every
    entry is that of a catalog id, counts at least one result, and has
    no more correct results than results. *)
Theorem buildBreakdown_tally (rs : list AnswerResult.t) :
  Forall (λ r, ∃ i, AnswerResult.intervalId r = Some i ∧ inCatalog i) rs →
  (∀ k, buildBreakdown rs !! k = tallyOf k rs)
  ∧ (∀ k t, buildBreakdown rs !! k = Some t →
       inCatalog k
       ∧ (∃ r, r ∈ rs ∧ AnswerResult.intervalId r = Some k)
       ∧ (1 ≤ Tally.total t)%nat
       ∧ (Tally.correct t ≤ Tally.total t)%nat
       ∧ (Tally.total t ≤ length rs)%nat).
Proof.
  intros Hcat. split; [apply buildBreakdown_lookup|].
  intros k t. rewrite buildBreakdown_lookup. unfold tallyOf.
  destruct (List.filter _ rs) as [|m mine] eqn:Hmine; [done|].
  intros [= <-].
  assert (Hm : In m (List.filter
                  (λ r, bool_decide (propertyKey (AnswerResult.intervalId r) = k)) rs)).
  { rewrite Hmine. by left. }
  apply filter_In in Hm as [Hin Hk]. apply bool_decide_eq_true_1 in Hk.
  apply list_elem_of_In in Hin.
  rewrite Forall_forall in Hcat. destruct (Hcat m Hin) as (i & Hi & Hc).
  rewrite Hi in Hk. simpl in Hk. subst i.
  split; [done|]. split; [by exists m|].
  cbn [Tally.total Tally.correct].
  split; [simpl; lia|].
  split; [apply (filter_length_bound AnswerResult.correct (m :: mine))|].
  pose proof (filter_length_bound
                (λ r, bool_decide (propertyKey (AnswerResult.intervalId r) = k)) rs)
    as Hb.
  rewrite Hmine in Hb. exact Hb.
Qed.

Lemma buildBreakdown_tally_witness :
  buildBreakdown [AnswerResult.mk (Some "root") true false;
                  AnswerResult.mk (Some "tritone") false true;
                  AnswerResult.mk (Some "root") false true] !! "root"
  = Some (Tally.mk 1 2).
Proof.
  match goal with |- buildBreakdown ?l !! _ = _ => set (rs := l) end.
  assert (Hcat : Forall (λ r, ∃ i, AnswerResult.intervalId r = Some i ∧ inCatalog i) rs).
  { repeat (constructor; [eexists; split; [reflexivity | compute_done]|]).
    constructor. }
  rewrite (proj1 (buildBreakdown_tally rs Hcat)). reflexivity.
Defined.

#[local] Instance bySemitones_total : Total bySemitones.
Proof. intros a b. unfold bySemitones. lia. Qed.

#[local] Instance bySemitones_transitive : Transitive bySemitones.
Proof. intros a b c. unfold bySemitones. lia. Qed.

Lemma catalog_semitones_inj (i j : Intervals.Interval) :
  i ∈ Intervals.INTERVALS → j ∈ Intervals.INTERVALS →
  Intervals.semitones i = Intervals.semitones j → i = j.
Proof.
  intros Hi Hj. apply (fmap_NoDup_inj Intervals.semitones Intervals.INTERVALS); [|done|done].
  compute_done.
Qed.

Lemma getAnswerChoices_members (cfg : Config) (i : Intervals.Interval) :
  i ∈ getAnswerChoices cfg
  ↔ i ∈ Intervals.INTERVALS ∧ Intervals.id i ∈ intervalIds cfg.
Proof.
  unfold getAnswerChoices. rewrite merge_sort_Permutation, list_elem_of_omap. split.
  - intros (id & Hid & Hi). apply getIntervalById_Some in Hi as [Hin <-]. done.
  - intros [Hin Hid]. exists (Intervals.id i). split; [done|].
    by apply getIntervalById_catalog.
Qed.

(** X23: The answer choices are the catalog entries of the listed ids,
    lowest interval first: ids the catalog does not have are dropped
    without an error, an id listed twice gives its entry twice, and the
    order is fully determined, since no two catalog entries have the
    same number of semitones. *)
Theorem getAnswerChoices_sorted_known (cfg : Config) :
  Sorted bySemitones (getAnswerChoices cfg)
  ∧ (∀ i, i ∈ getAnswerChoices cfg
          ↔ i ∈ Intervals.INTERVALS ∧ Intervals.id i ∈ intervalIds cfg)
  ∧ Intervals.id <$> getAnswerChoices cfg ≡ₚ filter inCatalog (intervalIds cfg)
  ∧ (∀ l, l ≡ₚ omap (λ id, Intervals.getIntervalById (Some id)) (intervalIds cfg) →
          Sorted bySemitones l → l = getAnswerChoices cfg).
Proof.
  split; [apply (Sorted_merge_sort bySemitones)|].
  split; [apply getAnswerChoices_members|]. split.
  - unfold getAnswerChoices. rewrite merge_sort_Permutation.
    induction (intervalIds cfg) as [|id ids IH]; [done|].
    cbn [omap list_omap]. rewrite filter_cons.
    destruct (Intervals.getIntervalById (Some id)) as [i|] eqn:Hi.
    + rewrite decide_True by (apply inCatalog_lookup; by exists i).
      apply getIntervalById_Some in Hi as [_ <-].
      rewrite fmap_cons. by f_equiv.
    + rewrite decide_False; [done|].
      intros Hc. apply inCatalog_lookup in Hc as [i Hi']. congruence.
  - intros l Hperm Hsorted.
    apply (Sorted_unique_strong bySemitones).
    + intros a b Ha Hb Hab Hba.
      rewrite Hperm in Ha. apply getAnswerChoices_members in Hb as [Hb _].
      apply list_elem_of_omap in Ha as (id & _ & Ha).
      apply getIntervalById_Some in Ha as [Ha _].
      apply catalog_semitones_inj; [done | done |].
      unfold bySemitones in *. lia.
    + done.
    + apply (Sorted_merge_sort bySemitones).
    + unfold getAnswerChoices. by rewrite merge_sort_Permutation.
Qed.

Lemma getAnswerChoices_sorted_known_witness :
  [Intervals.mkInterval "root" "Root" 0 1 "Root (Unison)";
   Intervals.mkInterval "perfect_fifth" "Perfect Fifth" 7 1 "Perfect 5th"]
  = getAnswerChoices (mkConfig ["perfect_fifth"; "ninth"; "root"] ["C"] 1 None).
Proof.
  apply (proj2 (proj2 (proj2 (getAnswerChoices_sorted_known
           (mkConfig ["perfect_fifth"; "ninth"; "root"] ["C"] 1 None))))).
  - apply perm_swap.
  - repeat constructor. unfold bySemitones. simpl. lia.
Defined.

Lemma sessionGenerator_questions (cfg : Config) (g g' : Rng) (qs : list Question) :
  sessionGenerator cfg g = (Ok qs, g') →
  Forall (λ q, (∃ id, intervalId q = Some id ∧ id ∈ intervalIds cfg)
               ∧ consistentQuestion q) qs.
Proof.
  unfold sessionGenerator.
  destruct (match intervalStats cfg with Some _ => _ | None => _ end).
  - rewrite generateAdaptiveSession_unfold.
    destruct (invalidCount (sessionLength cfg)); [done|]. intros Hrun.
    eapply (Array_from_cursor
              (λ q, (∃ id, intervalId q = Some id ∧ id ∈ intervalIds cfg)
                    ∧ consistentQuestion q) _ 2) in Hrun as [HF _]; [exact HF|].
    intros g0 q g1 Hq.
    apply adaptiveQuestion_ok in Hq as ((id & Hid & Hin) & _ & Hc & _ & Hcur).
    split; [|done]. split; [|done]. exists id. split; [done|].
    by eapply pool_members.
  - unfold generateSession.
    destruct (invalidCount (sessionLength cfg)); [done|]. intros Hrun.
    eapply (Array_from_cursor
              (λ q, (∃ id, intervalId q = Some id ∧ id ∈ intervalIds cfg)
                    ∧ consistentQuestion q) _ 2) in Hrun as [HF _]; [exact HF|].
    intros g0 q g1 Hq.
    pose proof (generateQuestion_ok _ _ _ _ _ Hq) as [(Hid & _ & _) _].
    apply generateQuestion_consistent in Hq as [Hc Hcur]. done.
Qed.

(** X24: The right answer is always on offer: whatever calls were made on a
    started session, the interval of the question at the index is among
    the answer choices, and submitting its id is counted as correct and
    moves on to the next question. *)
Theorem session_answer_available (cfg : Config) (h0 h1 h2 : Hook) (cs : list Call)
    (q : Question) :
  startSession cfg h0 = (Ok tt, h1) →
  calls cs h1 = (Ok tt, h2) →
  getCurrentQuestion (state h2) = Some q →
  ∃ i, i ∈ getAnswerChoices cfg
    ∧ intervalId q = Some (Intervals.id i)
    ∧ NoteUtils.getIntervalFrequency (rootHz q) (Intervals.semitones i)
      = Ok (intervalHz q)
    ∧ ∃ h3, submitAnswer (Some (Intervals.id i)) h2 = (Ok tt, h3)
        ∧ currentIndex (state h3) = S (currentIndex (state h2))
        ∧ sessionResults (state h3)
          = (sessionResults (state h2)
               ++ [AnswerResult.mk (intervalId q) true (retryUsed (state h2))])%list.
Proof.
  intros Hstart Hrun Hq.
  apply startSession_state in Hstart as (qs & g & Hgen & ->).
  apply sessionGenerator_questions in Hgen.
  pose proof (calls_questions cs _ _ Hrun) as Hqs. simpl in Hqs.
  unfold getCurrentQuestion in Hq.
  assert (Hin : q ∈ qs).
  { rewrite <- Hqs. by eapply list_elem_of_lookup_2. }
  rewrite Forall_forall in Hgen.
  destruct (Hgen q Hin) as ((id & Hid & Hids) & interval & Hentry & _ & Hhz).
  rewrite Hid in Hentry.
  pose proof (getIntervalById_Some _ _ Hentry) as [Hcat Heq].
  exists interval. split; [by apply getAnswerChoices_members; rewrite Heq|].
  split; [by rewrite Heq|]. split; [done|].
  unfold submitAnswer, setState, submitAnswerUpdater. rewrite Hq.
  rewrite bool_decide_eq_true_2 by (by rewrite Heq).
  destruct (computeAdvance (state h2) _) as [s' es] eqn:Hadv.
  eexists. split; [reflexivity|]. cbn [state].
  change s' with (s', es).1. rewrite <- Hadv, computeAdvance_state. done.
Qed.

Lemma session_answer_available_witness :
  let h1 := (startSession sampleConfig sampleHook).2 in
  ∃ i, i ∈ getAnswerChoices sampleConfig ∧ Intervals.id i = "root".
Proof.
  intros h1.
  destruct (session_answer_available sampleConfig sampleHook h1 h1 []
              (mkQuestion (Some "C") (Some "root")
                 (NoteUtils.hzOfOffset (-9))
                 (NoteUtils.hzOfOffset (-9) * Rpower 2 (IZR 0 / 12))))
    as (i & Hin & Hid & _); [reflexivity | reflexivity | reflexivity |].
  exists i. split; [exact Hin|]. by injection Hid as <-.
Defined.

Lemma plays_app (es1 es2 : list Effect) :
  plays (es1 ++ es2) = (plays es1 ++ plays es2)%list.
Proof. unfold plays. apply omap_app. Qed.

Lemma plays_play (qs : list Question) (i : nat) (x : R * R) :
  x ∈ plays (play (qs !! i)) →
  ∃ q, q ∈ qs ∧ x = (rootHz q, intervalHz q).
Proof.
  destruct (qs !! i) as [q|] eqn:Hq; simpl; [|by intros ?%elem_of_nil].
  intros ->%list_elem_of_singleton. exists q. split; [|done].
  by eapply list_elem_of_lookup_2.
Qed.

Lemma updater_plays (c : Call) (s : State) (x : R * R) :
  x ∈ plays (updater c s).2 →
  ∃ q, q ∈ questions s ∧ x = (rootHz q, intervalHz q).
Proof.
  assert (Hadv : ∀ rs, x ∈ plays (computeAdvance s rs).2 →
            ∃ q, q ∈ questions s ∧ x = (rootHz q, intervalHz q)).
  { intros rs. rewrite computeAdvance_effects.
    destruct (length (questions s) <=? S (currentIndex s))%nat;
      [by intros ?%elem_of_nil | apply plays_play]. }
  destruct c as [a|]; simpl; [|apply Hadv].
  unfold submitAnswerUpdater.
  destruct (questions s !! currentIndex s) as [q|] eqn:Hq; [|by intros ?%elem_of_nil].
  case_bool_decide; [apply Hadv|].
  destruct (retryUsed s); simpl; [apply Hadv|].
  intros ->%list_elem_of_singleton. exists q. split; [|done].
  by eapply list_elem_of_lookup_2.
Qed.

Lemma calls_plays (cs : list Call) :
  ∀ (h h' : Hook),
    calls cs h = (Ok tt, h') →
    ∃ new, log h' = (log h ++ new)%list
      ∧ ∀ x, x ∈ plays new →
          ∃ q, q ∈ questions (state h) ∧ x = (rootHz q, intervalHz q).
Proof.
  induction cs as [|c cs IH]; intros h h'.
  - intros [= <-]. exists []. split; [by rewrite app_nil_r|].
    by intros x ?%elem_of_nil.
  - rewrite calls_cons. intros Hrun.
    destruct (IH _ _ Hrun) as (new & Hlog & Hnew). simpl in Hlog, Hnew.
    exists ((updater c (state h)).2 ++ new)%list.
    split; [by rewrite Hlog, app_assoc|].
    intros x. rewrite plays_app. intros [Hx|Hx]%elem_of_app.
    + by apply (updater_plays c).
    + destruct (Hnew x Hx) as (q & Hq & ->). exists q. split; [|done].
      by rewrite (proj1 (updater_monotone c (state h))) in Hq.
Qed.

(** X25: What a session sounds: starting it sounds its first question, and
    whatever calls follow, every interval sounded is that of one of the
    session's questions, so it agrees with the catalog and the
    frequency table, and its upper note lies within the octave above
    its root. *)
Theorem run_sounds_questions (cfg : Config) (h0 h1 h2 : Hook) (cs : list Call) :
  startSession cfg h0 = (Ok tt, h1) →
  calls cs h1 = (Ok tt, h2) →
  ∃ q0 new,
    questions (state h2) !! 0%nat = Some q0
    ∧ log h2 = (log h0 ++ soundOf q0 :: new)%list
    ∧ ∀ x, x ∈ plays (soundOf q0 :: new) →
        (∃ q, q ∈ questions (state h2) ∧ x = (rootHz q, intervalHz q)
              ∧ consistentQuestion q)
        ∧ (0 < x.1)%R ∧ (x.1 <= x.2)%R ∧ (x.2 < 2 * x.1)%R.
Proof.
  intros Hstart Hrun.
  apply startSession_state in Hstart as (qs & g & Hgen & ->).
  pose proof (sessionGenerator_nonempty _ _ _ _ Hgen) as Hne.
  apply sessionGenerator_questions in Hgen. rewrite Forall_forall in Hgen.
  pose proof (calls_questions cs _ _ Hrun) as Hqs. simpl in Hqs.
  destruct (calls_plays cs _ _ Hrun) as (new & Hlog & Hnew).
  simpl in Hlog, Hnew.
  destruct qs as [|q0 qs]; [done|].
  exists q0, new. split; [by rewrite Hqs|].
  split; [by rewrite Hlog, <- app_assoc|].
  intros x Hx.
  assert (Hq : ∃ q, q ∈ q0 :: qs ∧ x = (rootHz q, intervalHz q)).
  { change (soundOf q0 :: new) with ([soundOf q0] ++ new)%list in Hx.
    rewrite plays_app in Hx. apply elem_of_app in Hx as [Hx|Hx]; [|by apply Hnew].
    apply list_elem_of_singleton in Hx. exists q0. split; [apply list_elem_of_here | done]. }
  destruct Hq as (q & Hq & ->).
  destruct (Hgen q Hq) as [_ Hc].
  pose proof (consistentQuestion_octave q Hc) as (Hpos & Hle & Hlt & _).
  split; [|done]. exists q. rewrite Hqs. done.
Qed.

Lemma run_sounds_questions_witness :
  let h1 := (startSession sampleConfig sampleHook).2 in
  let h2 := (calls [SubmitAnswer (Some "tritone")] h1).2 in
  ∃ q0 new, log h2 = (soundOf q0 :: new)%list
    ∧ ∀ x, x ∈ plays (soundOf q0 :: new) → (x.1 <= x.2)%R.
Proof.
  intros h1 h2.
  destruct (run_sounds_questions sampleConfig sampleHook h1 h2
              [SubmitAnswer (Some "tritone")])
    as (q0 & new & _ & Hlog & Hx); [reflexivity | reflexivity |].
  exists q0, new. split; [exact Hlog|].
  intros x Hin. by destruct (Hx x Hin) as (_ & _ & Hle & _).
Defined.

End MoreSession.

(** ** Sampler notes *)

Section MoreAudio.

Import AudioUtils.

Lemma closer_fold (x : R) (l : list Entry) :
  ∀ (pre : list Entry) (c : Entry) (d : R),
    d = distanceTo x c →
    firstNearest x pre c →
    firstNearest x (pre ++ l) (foldl (closer x) (c, d) l).1.
Proof.
  induction l as [|a l IH]; intros pre c d Hd (before & after & -> & Hb & Ha).
  - rewrite app_nil_r. by exists before, after.
  - cbn [foldl]. unfold closer at 2. cbn [snd].
    rewrite (cons_middle a), app_assoc.
    destruct (Rlt_dec (Rabs (x - freq a)) d) as [Hlt|Hge].
    + apply IH; [done|].
      exists (before ++ c :: after)%list, []. split; [done|].
      split; [|by intros e' ?%elem_of_nil].
      fold (distanceTo x a) in Hlt. intros e' He'.
      apply elem_of_app in He' as [He'|He'].
      * specialize (Hb e' He'). lra.
      * apply elem_of_cons in He' as [->|He']; [lra|].
        specialize (Ha e' He'). lra.
    + apply (IH _ c d Hd).
      exists before, (after ++ [a])%list.
      split; [by rewrite <- app_assoc|]. split; [done|].
      intros e' He'. apply elem_of_app in He' as [He'|He']; [by apply Ha|].
      apply list_elem_of_singleton in He' as ->.
      fold (distanceTo x a) in Hge. lra.
Qed.

Lemma NOTE_TABLE_cons :
  NOTE_TABLE = entryOf 24 :: (entryOf <$> seqZ (Z.succ 24) (Z.pred 72)).
Proof. unfold NOTE_TABLE. rewrite seqZ_cons by lia. apply fmap_cons. Qed.

(** The search over a table that is not empty. *)
Lemma search_firstNearest (x : R) (first : Entry) (rest : list Entry) :
  firstNearest x (first :: rest)
    (foldl (closer x)
       (default (entryOf 24) ((first :: rest) !! 0%nat),
        Rabs (x - freq (default (entryOf 24) ((first :: rest) !! 0%nat))))
       (first :: rest)).1.
Proof.
  cbn [lookup list_lookup from_option foldl]. unfold Datatypes.id.
  unfold closer at 2. cbn [snd].
  destruct (Rlt_dec _ _) as [Hlt|_]; [lra|].
  apply (closer_fold x rest [first]); [done|].
  exists [], []. split; [done|]. split; by intros e' ?%elem_of_nil.
Qed.

Lemma frequencyToSamplerNote_firstNearest (x : R) :
  (0 < x)%R →
  ∃ e, frequencyToSamplerNote (Some x) = Note (note e) ∧ firstNearest x NOTE_TABLE e.
Proof.
  intros Hx. unfold frequencyToSamplerNote.
  destruct (Rle_dec x 0) as [Hle|_]; [lra|].
  rewrite NOTE_TABLE_cons.
  eexists. split; [reflexivity|]. apply search_firstNearest.
Qed.



Lemma Rpower_two_inj (x y : R) : Rpower 2 x = Rpower 2 y → x = y.
Proof.
  intros Heq. destruct (Rtotal_order x y) as [Hlt|[Heq'|Hgt]]; [|done|].
  - apply Rpower_two_lt in Hlt. lra.
  - apply Rpower_two_lt in Hgt. lra.
Qed.

Lemma entryOf_freq_inj (m m' : Z) : freq (entryOf m) = freq (entryOf m') → m = m'.
Proof.
  unfold entryOf. cbn [freq]. intros Heq.
  assert (Hp : Rpower 2 (IZR (m - 69) / 12) = Rpower 2 (IZR (m' - 69) / 12)) by lra.
  apply Rpower_two_inj in Hp.
  assert (Hz : IZR (m - 69) = IZR (m' - 69)) by lra.
  apply eq_IZR in Hz. lia.
Qed.

Lemma entryOf_freq_pos (m : Z) : (0 < freq (entryOf m))%R.
Proof.
  unfold entryOf. cbn [freq].
  pose proof (Rpower_two_pos (IZR (m - 69) / 12)). lra.
Qed.

Lemma NOTE_TABLE_members (e : Entry) :
  e ∈ NOTE_TABLE ↔ ∃ m, e = entryOf m ∧ 24 ≤ m ≤ 95.
Proof.
  unfold NOTE_TABLE. rewrite list_elem_of_fmap. split.
  - intros (m & -> & Hm). exists m. split; [done|].
    apply elem_of_seqZ in Hm. lia.
  - intros (m & -> & Hm). exists m. split; [done|].
    apply elem_of_seqZ. lia.
Qed.

Lemma firstNearest_member (x : R) (table : list Entry) (e e' : Entry) :
  firstNearest x table e → e' ∈ table →
  e ∈ table ∧ (distanceTo x e <= distanceTo x e')%R.
Proof.
  intros (before & after & -> & Hb & Ha) He'. split.
  - apply elem_of_app. right. apply list_elem_of_here.
  - apply elem_of_app in He' as [He'|He']; [specialize (Hb e' He'); lra|].
    apply elem_of_cons in He' as [->|He']; [lra | by apply Ha].
Qed.

Lemma frequencyToSamplerNote_entry (m : Z) :
  24 ≤ m ≤ 95 →
  frequencyToSamplerNote (Some (freq (entryOf m))) = Note (note (entryOf m)).
Proof.
  intros Hm.
  destruct (frequencyToSamplerNote_firstNearest _ (entryOf_freq_pos m))
    as (e & -> & Hnear).
  assert (Hin : entryOf m ∈ NOTE_TABLE) by (apply NOTE_TABLE_members; by exists m).
  destruct (firstNearest_member _ _ _ _ Hnear Hin) as [He Hdist].
  apply NOTE_TABLE_members in He as (m' & -> & _).
  unfold distanceTo in Hdist.
  replace (freq (entryOf m) - freq (entryOf m))%R with 0%R in Hdist by lra.
  rewrite Rabs_R0 in Hdist.
  pose proof (Rabs_pos (freq (entryOf m) - freq (entryOf m'))) as Hpos.
  assert (Hzero : Rabs (freq (entryOf m) - freq (entryOf m')) = 0%R) by lra.
  destruct (Req_dec (freq (entryOf m) - freq (entryOf m')) 0) as [Heq|Hne];
    [|by apply Rabs_no_R0 in Hne].
  assert (Hm' : m' = m) by (apply entryOf_freq_inj; lra).
  by rewrite Hm'.
Qed.

Lemma hzOfOffset_entry (off : Z) :
  NoteUtils.hzOfOffset off = freq (entryOf (69 + off)).
Proof.
  unfold NoteUtils.hzOfOffset, entryOf. cbn [freq].
  by replace (69 + off - 69) with off by lia.
Qed.

Lemma SEMITONES_FROM_A4_entries (name : string) (off : Z) :
  (name, off) ∈ NoteUtils.SEMITONES_FROM_A4 →
  -21 ≤ off ≤ 2 ∧ note (entryOf (69 + off)) = name
  ∧ (stripOctave4 name = None ∨ -9 ≤ off).
Proof.
  revert name off.
  assert (H : Forall (λ e, -21 ≤ e.2 ≤ 2 ∧ note (entryOf (69 + e.2)) = e.1
                           ∧ (stripOctave4 e.1 = None ∨ -9 ≤ e.2))
                NoteUtils.SEMITONES_FROM_A4).
  { unfold NoteUtils.SEMITONES_FROM_A4.
    repeat (constructor;
            [split; [simpl; lia|];
             split; [reflexivity|];
             first [left; reflexivity | right; simpl; lia]|]).
    constructor. }
  intros name off Hin. rewrite Forall_forall in H. apply (H _ Hin).
Qed.

(** X27: The two frequency tables agree: the frequency of every entry of the
    sampler's table gives back that entry's note, and every pitch of the
    key table, from C3 to B4, gives back its own name. *)
Theorem frequencyToSamplerNote_round_trip :
  (∀ m, 24 ≤ m ≤ 95 →
     frequencyToSamplerNote (Some (freq (entryOf m))) = Note (note (entryOf m)))
  ∧ (∀ name off, (name, off) ∈ NoteUtils.SEMITONES_FROM_A4 →
       frequencyToSamplerNote (Some (NoteUtils.hzOfOffset off)) = Note name).
Proof.
  split; [apply frequencyToSamplerNote_entry|].
  intros name off Hin.
  apply SEMITONES_FROM_A4_entries in Hin as (Hm & <- & _).
  rewrite hzOfOffset_entry. apply frequencyToSamplerNote_entry. lia.
Qed.

Lemma frequencyToSamplerNote_round_trip_witness :
  frequencyToSamplerNote (Some (NoteUtils.hzOfOffset (-9))) = Note "C4".
Proof.
  apply (proj2 frequencyToSamplerNote_round_trip "C4" (-9)).
  unfold NoteUtils.SEMITONES_FROM_A4. do 12 apply list_elem_of_further.
  apply list_elem_of_here.
Defined.

Lemma getRootFrequency_entry (keyName : option string) (f : R) :
  NoteUtils.getRootFrequency keyName = Ok f →
  ∃ off, (NoteUtils.keyWithOctave keyName, off) ∈ NoteUtils.SEMITONES_FROM_A4
         ∧ f = NoteUtils.hzOfOffset off.
Proof.
  unfold NoteUtils.getRootFrequency, NoteUtils.NOTE_FREQUENCIES.
  rewrite table_lookup.
  destruct (last _) as [[name off]|] eqn:Hlast; simpl; [|done].
  intros [= <-]. exists off. split; [|done].
  apply last_Some_elem_of, list_elem_of_filter in Hlast as [Hname Hin].
  simpl in Hname. by rewrite <- Hname.
Qed.

Lemma keyWithOctave_octave4 (keyName : option string) :
  stripOctave4 (NoteUtils.keyWithOctave keyName) ≠ None.
Proof.
  destruct keyName as [k|]; [|done].
  unfold NoteUtils.keyWithOctave. by rewrite stripOctave4_append.
Qed.

(** X28: The notes the sampler is asked for when a question is sounded: the
    root is the question's key in octave 4, and the upper note is the
    table note as many semitones above it as the question's interval
    has, so between C4 and A#5. *)
Theorem question_sampler_notes (q : QuestionGenerator.Question) :
  consistentQuestion q →
  ∃ m i,
    60 ≤ m ≤ 71
    ∧ Intervals.getIntervalById (QuestionGenerator.intervalId q) = Some i
    ∧ note (entryOf m) = NoteUtils.keyWithOctave (QuestionGenerator.key q)
    ∧ frequencyToSamplerNote (Some (QuestionGenerator.rootHz q))
      = Note (NoteUtils.keyWithOctave (QuestionGenerator.key q))
    ∧ frequencyToSamplerNote (Some (QuestionGenerator.intervalHz q))
      = Note (note (entryOf (m + Intervals.semitones i)))
    ∧ 60 ≤ m + Intervals.semitones i ≤ 82.
Proof.
  intros (i & Hentry & Hroot & Hhz).
  assert (Hin : i ∈ Intervals.INTERVALS).
  { destruct (QuestionGenerator.intervalId q) as [id|]; [|done].
    by apply getIntervalById_Some in Hentry as [? _]. }
  pose proof (catalog_semitones_range _ Hin) as Hs.
  apply getRootFrequency_entry in Hroot as (off & Hoff & Hf).
  apply SEMITONES_FROM_A4_entries in Hoff as (Hrange & Hnote & [Hnone|Hlow]);
    [by apply keyWithOctave_octave4 in Hnone|].
  unfold NoteUtils.getIntervalFrequency in Hhz.
  rewrite (proj2 (Z.ltb_ge _ 0) (proj1 Hs)) in Hhz. injection Hhz as Hhz.
  exists (69 + off), i. split; [lia|]. split; [done|]. split; [done|].
  split; [|split; [|lia]].
  - rewrite Hf, hzOfOffset_entry, <- Hnote.
    apply frequencyToSamplerNote_entry. lia.
  - assert (Hup : QuestionGenerator.intervalHz q
                  = freq (entryOf (69 + off + Intervals.semitones i))).
    { rewrite <- Hhz, Hf. unfold NoteUtils.hzOfOffset, entryOf. cbn [freq].
      replace (69 + off + Intervals.semitones i - 69)
        with (off + Intervals.semitones i) by lia.
      rewrite plus_IZR, Rdiv_plus_distr, Rpower_plus. lra. }
    rewrite Hup. apply frequencyToSamplerNote_entry. lia.
Qed.

Lemma question_sampler_notes_witness :
  ∃ m, 60 ≤ m ≤ 71
    ∧ frequencyToSamplerNote (Some (NoteUtils.hzOfOffset (-2))) = Note "G4"
    ∧ frequencyToSamplerNote
        (Some (NoteUtils.hzOfOffset (-2) * Rpower 2 (IZR 7 / 12))%R)
      = Note (note (entryOf (m + 7))).
Proof.
  destruct (question_sampler_notes
              (QuestionGenerator.mkQuestion (Some "G") (Some "perfect_fifth")
                 (NoteUtils.hzOfOffset (-2))
                 (NoteUtils.hzOfOffset (-2) * Rpower 2 (IZR 7 / 12))%R))
    as (m & i & Hm & Hi & _ & Hroot & Hup & _).
  - eexists. split; [reflexivity|]. split; reflexivity.
  - injection Hi as <-. exists m. split; [exact Hm|]. split; [exact Hroot | exact Hup].
Defined.

End MoreAudio.

(** ** The session screen *)

Section Screen.

Import QuestionGenerator QuizSession SessionScreen.

Lemma sessionGenerator_succeeds (cfg : Config) (g : Rng) :
  intervalIds cfg ≠ [] → QuizSession.keys cfg ≠ [] →
  Forall inCatalog (intervalIds cfg) → Forall knownKey (QuizSession.keys cfg) →
  positiveInteger (sessionLength cfg) →
  unitInterval g →
  ∃ qs g', sessionGenerator cfg g = (Ok qs, g').
Proof.
  intros Hi Hk Hcat Hknown Hcount Hg.
  apply invalidCount_positiveInteger in Hcount.
  unfold sessionGenerator.
  destruct (match intervalStats cfg with Some _ => _ | None => _ end).
  - rewrite generateAdaptiveSession_unfold, Hcount.
    apply Array_from_succeeds; [|done].
    intros g0 Hg0.
    destruct (adaptiveQuestion_succeeds
                (AdaptiveWeighting.buildWeightedPool (intervalIds cfg)
                   (Some (default [] (intervalStats cfg))))
                (QuizSession.keys cfg) g0) as (q & g1 & Hq);
      [by apply pool_nonempty | done | | done | done |].
    + apply Forall_forall. intros i Hin. rewrite Forall_forall in Hcat.
      by eapply Hcat, pool_members.
    + exists q, g1. split; [done|].
      by apply adaptiveQuestion_ok in Hq as (_ & _ & _ & ? & _).
  - unfold generateSession. rewrite Hcount.
    apply Array_from_succeeds; [|done].
    intros g0 Hg0.
    destruct (generateQuestion_succeeds (intervalIds cfg) (QuizSession.keys cfg) g0)
      as (q & g1 & Hq); [done..|].
    exists q, g1. split; [done|].
    by apply generateQuestion_ok in Hq as [_ ?].
Qed.

Lemma clampLength_range (sessionLength : option Q) :
  (5 <= clampLength sessionLength)%Q ∧ (clampLength sessionLength <= 8)%Q.
Proof.
  unfold clampLength.
  set (n := match sessionLength with Some v => _ | None => _ end).
  destruct (Qltb n 8) eqn:H8; [apply Qltb_lt in H8 | apply Qltb_ge in H8].
  - destruct (Qltb n 5) eqn:H5; [apply Qltb_lt in H5 | apply Qltb_ge in H5];
      split; Lqa.lra.
  - destruct (Qltb 8 5) eqn:H5; [apply Qltb_lt in H5 | apply Qltb_ge in H5];
      split; Lqa.lra.
Qed.

Lemma clampLength_whole (sessionLength : option Q) :
  wholeSetting sessionLength → positiveInteger (clampLength sessionLength).
Proof.
  intros Hwhole.
  assert (Hfive : positiveInteger 5) by (exists 5; split; [lia | reflexivity]).
  assert (Height : positiveInteger 8) by (exists 8; split; [lia | reflexivity]).
  unfold clampLength.
  set (n := match sessionLength with Some v => _ | None => _ end).
  assert (Hn : ∃ k : Z, (n == inject_Z k)%Q).
  { subst n. destruct sessionLength as [v|]; [|by exists 5].
    destruct (Qeq_bool v 0); [by exists 5 | by apply Hwhole]. }
  destruct Hn as [k Hk].
  destruct (Qltb n 8) eqn:H8; [|by rewrite (proj2 (Qltb_ge 8 5)) by Lqa.lra].
  destruct (Qltb n 5) eqn:H5; [done|].
  apply Qltb_ge in H5. exists k. split; [|done].
  rewrite Hk in H5. change 5%Q with (inject_Z 5) in H5.
  rewrite <- Zle_Qle in H5. lia.
Qed.

Lemma active_ids (currentPhase : Z) (activeIntervalIds : option (list string)) :
  Forall inCatalog
    (Intervals.id <$>
       PhaseProgression.getActiveIntervalsForPhase currentPhase activeIntervalIds)
  ∧ (1 ≤ currentPhase →
       Intervals.id <$>
         PhaseProgression.getActiveIntervalsForPhase currentPhase activeIntervalIds
       ≠ [])
  ∧ (currentPhase < 1 →
       PhaseProgression.getActiveIntervalsForPhase currentPhase activeIntervalIds = []).
Proof.
  assert (Hphase : ∀ i, i ∈ Intervals.getIntervalsForPhase currentPhase →
                        i ∈ Intervals.INTERVALS).
  { intros i Hi. by apply getIntervalsForPhase_members in Hi as [? _]. }
  assert (Hroot : 1 ≤ currentPhase → Intervals.getIntervalsForPhase currentPhase ≠ []).
  { intros Hp Hnil.
    assert (Hin : Intervals.mkInterval "root" "Root" 0 1 "Root (Unison)"
                  ∈ Intervals.getIntervalsForPhase currentPhase).
    { apply getIntervalsForPhase_members. split; [apply list_elem_of_here | simpl; lia]. }
    rewrite Hnil in Hin. by apply elem_of_nil in Hin. }
  assert (Hlow : currentPhase < 1 → Intervals.getIntervalsForPhase currentPhase = []).
  { intros Hp. destruct (Intervals.getIntervalsForPhase currentPhase) as [|i l] eqn:Hl;
      [done|].
    assert (Hin : i ∈ Intervals.getIntervalsForPhase currentPhase)
      by (rewrite Hl; apply list_elem_of_here).
    apply getIntervalsForPhase_members in Hin as [Hin Hle].
    pose proof (catalog_phase_range i Hin). lia. }
  rewrite getActiveIntervalsForPhase_unfold.
  split; [|split].
  - apply Forall_forall. intros id Hid.
    apply list_elem_of_fmap in Hid as (i & -> & Hi).
    unfold inCatalog. apply list_elem_of_fmap. exists i. split; [done|].
    destruct activeIntervalIds as [ids|]; [|by apply Hphase].
    destruct (customFiltered currentPhase ids) as [|j l] eqn:Hl; [by apply Hphase|].
    rewrite <- Hl in Hi. by apply customFiltered_valid in Hi as [? _].
  - intros Hp.
    destruct activeIntervalIds as [ids|];
      [destruct (customFiltered currentPhase ids) as [|j l]; [|done]|];
      (destruct (Intervals.getIntervalsForPhase currentPhase) eqn:Hl;
         [by apply Hroot in Hp | done]).
  - intros Hp.
    destruct activeIntervalIds as [ids|]; [|by apply Hlow].
    destruct (customFiltered currentPhase ids) as [|j l] eqn:Hl; [by apply Hlow|].
    assert (Hin : j ∈ customFiltered currentPhase ids)
      by (rewrite Hl; apply list_elem_of_here).
    apply customFiltered_valid in Hin as (Hin & Hle & _).
    pose proof (catalog_phase_range j Hin). lia.
Qed.

Lemma DEFAULT_KEYS_known : Forall knownKey DEFAULT_KEYS.
Proof.
  unfold DEFAULT_KEYS. repeat (constructor; [unfold knownKey; compute_done|]).
  constructor.
Qed.

(** X29: The session the screen sets up from the stored settings.  With a
    current phase of 1 or more and a stored session length that is a
    whole number (or no number at all), the session always starts,
    whatever the custom selection and the stats, with 5 to 8 questions.
    A stored length strictly between 5 and 8 that is not whole is
    passed on as it is, and the session does not start; nor does it
    with a current phase below 1, which leaves no interval to ask. *)
Theorem screen_session_starts (currentPhase : Z)
    (activeIntervalIds : option (list string)) (sessionLength : option Q)
    (stats : list AdaptiveWeighting.IntervalStat) (h : Hook) :
  let cfg := sessionConfig currentPhase activeIntervalIds sessionLength stats in
  (1 ≤ currentPhase → wholeSetting sessionLength → unitInterval (rng h) →
     ∃ h1, startSession cfg h = (Ok tt, h1)
       ∧ phase (state h1) = answering
       ∧ (5 ≤ length (questions (state h1)) ≤ 8)%nat)
  ∧ (∀ v, sessionLength = Some v → (5 < v)%Q → (v < 8)%Q →
       (∀ n : Z, ¬ (v == inject_Z n)%Q) →
       startSession cfg h = (Throw (InvalidCount v), h))
  ∧ (currentPhase < 1 → ∃ e h1, startSession cfg h = (Throw e, h1) ∧ state h1 = state h).
Proof.
  intros cfg.
  destruct (active_ids currentPhase activeIntervalIds) as (Hcat & Hne & Hempty).
  split; [|split].
  - intros Hp Hwhole Hg.
    destruct (sessionGenerator_succeeds cfg (rng h)) as (qs & g & Hgen);
      [by apply Hne | done | done | apply DEFAULT_KEYS_known
       | by apply clampLength_whole | done |].
    rewrite startSession_unfold, Hgen. eexists. split; [reflexivity|].
    split; [done|]. cbn [state questions].
    apply sessionGenerator_length in Hgen as [_ Hlen].
    pose proof (clampLength_range sessionLength) as [H5 H8].
    change (QuizSession.sessionLength cfg) with (clampLength sessionLength) in Hlen.
    rewrite <- Hlen in H5, H8.
    change 5%Q with (inject_Z 5) in H5. change 8%Q with (inject_Z 8) in H8.
    rewrite <- Zle_Qle in H5, H8. lia.
  - intros v -> H5 H8 Hfrac.
    assert (Hclamp : clampLength (Some v) = v).
    { unfold clampLength.
      destruct (Qeq_bool v 0) eqn:H0; [apply Qeq_bool_iff in H0; Lqa.lra|].
      rewrite (proj2 (Qltb_lt v 8) H8).
      by rewrite (proj2 (Qltb_ge v 5)) by Lqa.lra. }
    assert (Hbad : invalidCount v = true).
    { destruct (invalidCount v) eqn:Hc; [done|].
      apply invalidCount_positiveInteger in Hc as (n & _ & Hn).
      by destruct (Hfrac n). }
    rewrite startSession_unfold. unfold sessionGenerator.
    cbn [cfg sessionConfig intervalStats QuizSession.sessionLength].
    rewrite generateAdaptiveSession_unfold. unfold generateSession.
    rewrite Hclamp, Hbad.
    destruct (0 <? length stats)%nat; unfold throw; by rewrite hook_eta.
  - intros Hp.
    assert (Hids : intervalIds cfg = []).
    { cbn [cfg sessionConfig intervalIds]. by rewrite (Hempty Hp). }
    destruct (sessionGenerator cfg (rng h)) as [[qs|e] g] eqn:Hgen.
    + pose proof (sessionGenerator_nonempty _ _ _ _ Hgen) as Hqs.
      apply sessionGenerator_questions in Hgen.
      destruct qs as [|q qs]; [done|].
      apply Forall_cons in Hgen as [((id & _ & Hin) & _) _].
      rewrite Hids in Hin. by apply elem_of_nil in Hin.
    + rewrite startSession_unfold, Hgen. by eexists _, _.
Qed.

Lemma screen_session_starts_witness :
  ∃ h1, startSession (sessionConfig 1 None (Some 7%Q) []) sampleHook = (Ok tt, h1)
    ∧ (5 ≤ length (questions (state h1)) ≤ 8)%nat.
Proof.
  destruct (proj1 (screen_session_starts 1 None (Some 7%Q) [] sampleHook))
    as (h1 & Hstart & _ & Hlen).
  - lia.
  - intros v [= <-]. by exists 7.
  - intros n. split; [done | reflexivity].
  - by exists h1.
Defined.

Lemma calls_app (cs1 cs2 : list Call) (h h1 : Hook) :
  calls cs1 h = (Ok tt, h1) → calls (cs1 ++ cs2) h = calls cs2 h1.
Proof.
  revert h. induction cs1 as [|c cs1 IH]; intros h.
  - by intros [= <-].
  - rewrite <- app_comm_cons, !calls_cons. apply IH.
Qed.

(** One event on the screen is no call or one call of the hook, and
    leaves only first-attempt results. *)
Lemma handle_step (e : Event) (h : Hook) :
  phaseInvariant (state h) →
  Forall firstAttempt (sessionResults (state h)) →
  ∃ cs h', handle e h = (Ok tt, h')
    ∧ calls cs h = (Ok tt, h')
    ∧ Forall firstAttempt (sessionResults (state h')).
Proof.
  intros (_ & _ & _ & Hfresh) Hres.
  assert (Hnone : ∃ cs h', (Ok tt, h) = (Ok tt, h')
            ∧ calls cs h = (Ok tt, h')
            ∧ Forall firstAttempt (sessionResults (state h'))).
  { by exists [], h. }
  destruct e as [id|]; unfold handle.
  - destruct (loading (state h) || buttonsDisabled (state h)) eqn:Hgate;
      [exact Hnone|].
    assert (Hph : phase (state h) ≠ feedback).
    { intros Hph. unfold loading, buttonsDisabled in Hgate. by rewrite Hph in Hgate. }
    destruct (Hfresh Hph) as (Hretry & _).
    exists [SubmitAnswer (Some id)]. eexists.
    split; [apply (call_step (SubmitAnswer (Some id)))|].
    split; [by rewrite calls_cons|].
    cbn [state updater]. unfold submitAnswerUpdater.
    destruct (questions (state h) !! currentIndex (state h)) as [q|]; [|done].
    rewrite Hretry. case_bool_decide; [|done].
    rewrite computeAdvance_state. cbn [sessionResults].
    apply Forall_app. split; [done|]. by repeat constructor.
  - destruct (timerSet (state h)); [|exact Hnone].
    exists [AdvanceToNext]. eexists.
    split; [apply (call_step AdvanceToNext)|].
    split; [by rewrite calls_cons|].
    cbn [state updater]. by rewrite computeAdvance_state.
Qed.

Lemma events_calls (es : list Event) :
  ∀ h : Hook,
    phaseInvariant (state h) →
    Forall firstAttempt (sessionResults (state h)) →
    ∃ cs h', events es h = (Ok tt, h')
      ∧ calls cs h = (Ok tt, h')
      ∧ Forall firstAttempt (sessionResults (state h')).
Proof.
  induction es as [|e es IH]; intros h Hph Hres.
  - by exists [], h.
  - destruct (handle_step e h Hph Hres) as (cs1 & h1 & Hstep & Hcalls1 & Hres1).
    destruct (IH h1 (calls_phase _ _ _ Hcalls1 Hph) Hres1)
      as (cs2 & h2 & Hrest & Hcalls2 & Hres2).
    exists (cs1 ++ cs2)%list, h2.
    split; [|split; [|done]].
    + cbn [events]. unfold bind. by rewrite Hstep.
    + by rewrite (calls_app _ _ _ _ Hcalls1).
Qed.

Lemma firstAttempt_score (rs : list AnswerResult.t) :
  Forall firstAttempt rs →
  length (List.filter AnswerResult.correct rs) = length rs.
Proof.
  induction 1 as [|r rs [Hc _] _ IH]; [done|].
  cbn [List.filter]. rewrite Hc. simpl. by rewrite IH.
Qed.

(** X30: On the session screen a wrong answer is never retried.  In the
    feedback phase the answer buttons are disabled and the auto-advance
    condition holds, so the only thing that can happen is the timer,
    which passes the question over without a result.  Hence, whatever
    is clicked and whenever the timer runs, every recorded result is a
    correct first answer, and a payload's score equals its total. *)
Theorem screen_never_retries (cfg : Config) (h0 h1 : Hook) (es : list Event) :
  startSession cfg h0 = (Ok tt, h1) →
  ∃ h2 new,
    events es h1 = (Ok tt, h2)
    ∧ log h2 = (log h1 ++ new)%list
    ∧ Forall firstAttempt (sessionResults (state h2))
    ∧ (∀ p, p ∈ payloads new → Payload.score p = Payload.total p)
    ∧ (phase (state h2) = feedback →
         (∀ id, handle (Click id) h2 = (Ok tt, h2))
         ∧ ∃ h3, handle Timer h2 = (Ok tt, h3)
             ∧ currentIndex (state h3) = S (currentIndex (state h2))
             ∧ sessionResults (state h3) = sessionResults (state h2)).
Proof.
  intros Hstart.
  apply startSession_state in Hstart as (qs & g & Hgen & ->).
  pose proof (sessionGenerator_nonempty _ _ _ _ Hgen) as Hne.
  set (h1 := mkHook g (mkState qs 0 answering None None false [])
                (log h0 ++ play (qs !! 0%nat))) in *.
  destruct (events_calls es h1 (start_phase qs Hne) (Forall_nil_2 _))
    as (cs & h2 & Hrun & Hcalls & Hres).
  assert (Hinit : payloadsAgree [] (state h1)).
  { split; [done|]. intros _ p Hp. by apply elem_of_nil in Hp. }
  destruct (calls_payloads cs h1 [] Hinit) as (h' & new & Hcalls' & Hlog & Hb & Ha).
  rewrite Hcalls in Hcalls'. injection Hcalls' as <-.
  change ([] ++ new)%list with new in Hb, Ha.
  pose proof (calls_phase cs _ _ Hcalls (start_phase qs Hne))
    as (_ & _ & Hfeedback & _).
  exists h2, new. split; [done|]. split; [done|]. split; [done|]. split.
  - intros p Hp.
    destruct (decide (currentIndex (state h2) < length (questions (state h2)))%nat)
      as [Hlt|Hge].
    { rewrite (Hb Hlt) in Hp. by apply elem_of_nil in Hp. }
    rewrite (Ha ltac:(lia) p Hp). simpl. by apply firstAttempt_score.
  - intros Hph. destruct (Hfeedback Hph) as (Hretry & Hwrong & _).
    split.
    + intros id. unfold handle, loading, buttonsDisabled. by rewrite Hph.
    + unfold handle, timerSet, shouldAdvance. rewrite Hph, Hwrong, Hretry.
      unfold advanceToNext, setState.
      destruct (computeAdvance (state h2) (sessionResults (state h2)))
        as [s' es'] eqn:Hadv.
      eexists. split; [reflexivity|]. cbn [state].
      change s' with (s', es').1. rewrite <- Hadv, computeAdvance_state. done.
Qed.

Lemma screen_never_retries_witness :
  let h1 := (startSession sampleConfig sampleHook).2 in
  ∃ h2 new,
    events [Click "tritone"; Click "root"; Timer] h1 = (Ok tt, h2)
    ∧ log h2 = (log h1 ++ new)%list
    ∧ sessionResults (state h2) = []
    ∧ ∀ p, p ∈ payloads new → Payload.score p = Payload.total p.
Proof.
  intros h1.
  destruct (screen_never_retries sampleConfig sampleHook h1
              [Click "tritone"; Click "root"; Timer])
    as (h2 & new & Hrun & Hlog & _ & Hscore & _); [reflexivity|].
  exists h2, new. split; [exact Hrun|]. split; [exact Hlog|]. split; [|exact Hscore].
  assert (Hh2 : h2 = (events [Click "tritone"; Click "root"; Timer] h1).2)
    by (by rewrite Hrun).
  rewrite Hh2. reflexivity.
Defined.

End Screen.
